(** * The AST walker of pigeon: traversal and in-place replacement

    A shallow embedding of the two walker variants of package [ast]:

    - the variant in which every visitor receives a [Backref]
      ([Walk], [walk0], [inspector], [Inspect]), in module [BackrefWalk];
    - the variant in which replacement is an optional capability found by a
      dynamic type assertion ([Walk], [walkVisitor], [walkReplacer],
      [inspector], [Inspect]), in module [UpgradeWalk].

    Go pointers to AST nodes are addresses into an explicit heap, so that the
    aliasing between the tree, the replacer closures and the walker's local
    variables is the one of the source.  Recursion through the heap is not
    structural: the walkers take fuel, and running out of it is a result of
    its own, distinct from a normal return and from a panic. *)

From stdpp Require Import base gmap list.

(** ** Data model *)

Definition addr := nat.

(** A value of the interface type [Expression]: the nil interface or a
    pointer to a node.  The dynamic type of a pointer is the constructor of
    the cell it points to (Go never changes the type of an allocated
    struct); typed nil pointers are not modelled. *)
Inductive Expression : Type :=
  | nilExpr
  | ptr (a : addr).

#[global] Instance Expression_eq_dec : EqDecision Expression.
Proof. solve_decision. Defined.

(** Modelled from the spec: the declarations of the node structs, which
    the walker's files use and do not contain.  The table of node kinds
    gives each kind and its structural children; the field names ([Expr],
    [Alternatives], [Rules], [Exprs]) are those the walker reads.  Fields
    that carry no child (names, code, positions) are left out.
    [ForeignExpr] stands for any other type implementing the open
    interface [Expression]. *)
Inductive node : Type :=
  | ActionExpr (Expr : Expression)
  | AndCodeExpr
  | AndExpr (Expr : Expression)
  | AnyMatcher
  | CharClassMatcher
  | ChoiceExpr (Alternatives : list Expression)
  | Grammar (Rules : list Expression)
  | LabeledExpr (Expr : Expression)
  | LitMatcher
  | NotCodeExpr
  | NotExpr (Expr : Expression)
  | OneOrMoreExpr (Expr : Expression)
  | Rule (Expr : Expression)
  | RuleRefExpr
  | SeqExpr (Exprs : list Expression)
  | StateCodeExpr
  | ZeroOrMoreExpr (Expr : Expression)
  | ZeroOrOneExpr (Expr : Expression)
  | ForeignExpr.

#[global] Instance node_eq_dec : EqDecision node.
Proof. solve_decision. Defined.

(** ** Results *)

(** The run-time panics the walker and its replacers can raise. *)
Inductive panic : Type :=
  | UnknownExpressionType   (* panic(fmt.Sprintf("unknown expression type %T", expr)) *)
  | InvalidReplacement      (* failed type assertion expr.( *Rule) *)
  | IndexOutOfRange         (* slice index out of range *)
  | NilFuncCall             (* call of a nil func value *)
  | BadPointer              (* a pointer without a cell: unreachable from Go *)
  | VisitorPanic.           (* a panic raised by the visitor's own code *)

Inductive res (A : Type) : Type :=
  | Ok (a : A)
  | Panic (p : panic)
  | OutOfFuel.
Arguments Ok {A} a.
Arguments Panic {A} p.
Arguments OutOfFuel {A}.

(** ** Replacers *)

(** The expression's dynamic type is [*Rule]. *)
Definition isRule (h : gmap addr node) (e : Expression) : bool :=
  match e with
  | nilExpr => false
  | ptr r => match h !! r with Some (Rule _) => true | _ => false end
  end.

(** [s[index] = e] on a slice held in a cell, with Go's bounds check. *)
Definition setIndex (s : list Expression) (index : nat) (e : Expression)
  : option (list Expression) :=
  if decide (index < length s) then Some (<[index := e]> s) else None.

(** A replacer is a Go closure [func(Expression)]: it acts on the heap it is
    applied in and either returns or panics (the heap is then left as it
    was). *)
Definition replacerFn : Type :=
  Expression → gmap addr node → res unit * gmap addr node.

(** [replacer = func(expr Expression) {}] *)
Definition noopReplacer : replacerFn := λ _ h, (Ok tt, h).

(** The zero value of [func(Expression)]: calling it panics. *)
Definition nilReplacer : replacerFn := λ _ h, (Panic NilFuncCall, h).

(** [parent.Expr = expr] for a parent with the single field [Expr]; [mk] is
    the parent's constructor. *)
Definition setExpr (p : addr) (mk : Expression → node) : replacerFn :=
  λ e h, (Ok tt, <[p := mk e]> h).

(** [parent.Alternatives[index] = expr] *)
Definition setAlternative (p : addr) (index : nat) : replacerFn :=
  λ e h,
    match h !! p with
    | Some (ChoiceExpr s) =>
        match setIndex s index e with
        | Some s' => (Ok tt, <[p := ChoiceExpr s']> h)
        | None => (Panic IndexOutOfRange, h)
        end
    | _ => (Panic BadPointer, h)
    end.

(** [parent.Exprs[index] = expr] *)
Definition setSeqElem (p : addr) (index : nat) : replacerFn :=
  λ e h,
    match h !! p with
    | Some (SeqExpr s) =>
        match setIndex s index e with
        | Some s' => (Ok tt, <[p := SeqExpr s']> h)
        | None => (Panic IndexOutOfRange, h)
        end
    | _ => (Panic BadPointer, h)
    end.

(** [parent.Rules[index] = expr.( *Rule)]: the type assertion on the right
    is evaluated first, then the indexed store. *)
Definition setRule (p : addr) (index : nat) : replacerFn :=
  λ e h,
    if isRule h e then
      match h !! p with
      | Some (Grammar s) =>
          match setIndex s index e with
          | Some s' => (Ok tt, <[p := Grammar s']> h)
          | None => (Panic IndexOutOfRange, h)
          end
      | _ => (Panic BadPointer, h)
      end
    else (Panic InvalidReplacement, h).

(** The first [switch] of [walk0] and of [walkReplacer]: the replacer for
    the slot [index] of [parent0], chosen by the dynamic type of [parent0]
    in the heap [h] at the time of the call.  The switch has no [default]:
    for a parent of any other type the variable keeps its zero value. *)
Definition replacerOf (h : gmap addr node) (parent0 : Expression) (index : nat)
  : replacerFn :=
  match parent0 with
  | nilExpr => noopReplacer
  | ptr p =>
      match h !! p with
      | Some (ActionExpr _) => setExpr p ActionExpr
      | Some (AndExpr _) => setExpr p AndExpr
      | Some (ChoiceExpr _) => setAlternative p index
      | Some (Grammar _) => setRule p index
      | Some (LabeledExpr _) => setExpr p LabeledExpr
      | Some (NotExpr _) => setExpr p NotExpr
      | Some (OneOrMoreExpr _) => setExpr p OneOrMoreExpr
      | Some (Rule _) => setExpr p Rule
      | Some (SeqExpr _) => setSeqElem p index
      | Some (ZeroOrMoreExpr _) => setExpr p ZeroOrMoreExpr
      | Some (ZeroOrOneExpr _) => setExpr p ZeroOrOneExpr
      | _ => nilReplacer
      end
  end.

(** Calling a replacer several times in a row, as a visitor may; the first
    panic ends the sequence. *)
Fixpoint applyAll (r : replacerFn) (es : list Expression) (h : gmap addr node)
  : res unit * gmap addr node :=
  match es with
  | [] => (Ok tt, h)
  | e :: es' =>
      match r e h with
      | (Ok _, h') => applyAll r es' h'
      | (bad, h') => (bad, h')
      end
  end.

(** ** The walker's range loops *)

(** The element the loop variable [e] receives at iteration [i] of
    [for i, e := range s]: the slice header is read once when the loop
    starts ([snap], the elements then), each element is read from the
    backing array when its iteration starts.  The backing array is the list
    in the cell; [sel] selects the slice field of the parent's type. *)
Definition elemAt (sel : node → option (list Expression))
    (h : gmap addr node) (p : addr) (i : nat) (snap : Expression) : Expression :=
  match h !! p ≫= sel with
  | Some s => default snap (s !! i)
  | None => snap
  end.

Definition selAlternatives (c : node) : option (list Expression) :=
  match c with ChoiceExpr s => Some s | _ => None end.
Definition selRules (c : node) : option (list Expression) :=
  match c with Grammar s => Some s | _ => None end.
Definition selExprs (c : node) : option (list Expression) :=
  match c with SeqExpr s => Some s | _ => None end.

(** The walker's state: the log of the [Visit] calls made so far (their
    [expr] arguments, in call order; ghost state that the source does not
    have) and the world the visitor acts on, the heap and the visitor's own
    mutable state of type [G]. *)
Definition wstate (G : Type) : Type :=
  list Expression * (gmap addr node * G).

Section range.
Context {G : Type}.
Variable body : Expression → nat → wstate G → res unit * wstate G.
Variable sel : node → option (list Expression).
Variable p : addr.

(** [for i, e := range s { body(e, i) }] from index [i] on, [snap] being
    the elements not yet iterated over as they were when the loop
    started.  A panic in the body leaves the loop. *)
Fixpoint rangeFrom (i : nat) (snap : list Expression) (st : wstate G)
  : res unit * wstate G :=
  match snap with
  | [] => (Ok tt, st)
  | e0 :: snap' =>
      match body (elemAt sel st.2.1 p i e0) i st with
      | (Ok _, st') => rangeFrom (S i) snap' st'
      | (bad, st') => (bad, st')
      end
  end.
End range.

(** ** The walker with back-references *)

Module BackrefWalk.

(** [type Backref struct { parent Expression; replacer func(Expression) }] *)
Record Backref : Type := mkBackref {
  parent : Expression;
  replacer : replacerFn
}.

Section walker.
Context {V G : Type}.

(** The method [Visit(expr Expression, br Backref) (w Visitor)] of the
    visitors at hand: [V] is the type of the visitor values, [None] the
    nil visitor.  A call may read and write the heap, call the replacer
    it is handed, update the visitor's own state, panic or diverge. *)
Variable Visit :
  V → Expression → Backref → gmap addr node * G
    → res (option V) * (gmap addr node * G).

Fixpoint walk0 (fuel : nat) (v : V) (expr parent0 : Expression)
    (index : nat) (st : wstate G) : res unit * wstate G :=
  match fuel with
  | 0 => (OutOfFuel, st)
  | S fuel' =>
      let br := {| parent := parent0;
                   replacer := replacerOf st.2.1 parent0 index |} in
      match Visit v expr br st.2 with
      | (Ok None, w) => (Ok tt, (st.1 ++ [expr], w))
      | (Ok (Some v'), w) =>
          let st' := (st.1 ++ [expr], w) in
          match expr with
          | nilExpr => (Panic UnknownExpressionType, st')
          | ptr a =>
              match w.1 !! a with
              | Some (ActionExpr e) => walk0 fuel' v' e expr 0 st'
              | Some AndCodeExpr => (Ok tt, st')
              | Some (AndExpr e) => walk0 fuel' v' e expr 0 st'
              | Some AnyMatcher => (Ok tt, st')
              | Some CharClassMatcher => (Ok tt, st')
              | Some (ChoiceExpr s) =>
                  rangeFrom (λ e i, walk0 fuel' v' e expr i)
                    selAlternatives a 0 s st'
              | Some (Grammar s) =>
                  rangeFrom (λ e i, walk0 fuel' v' e expr i)
                    selRules a 0 s st'
              | Some (LabeledExpr e) => walk0 fuel' v' e expr 0 st'
              | Some LitMatcher => (Ok tt, st')
              | Some NotCodeExpr => (Ok tt, st')
              | Some (NotExpr e) => walk0 fuel' v' e expr 0 st'
              | Some (OneOrMoreExpr e) => walk0 fuel' v' e expr 0 st'
              | Some (Rule e) => walk0 fuel' v' e expr 0 st'
              | Some RuleRefExpr => (Ok tt, st')
              | Some (SeqExpr s) =>
                  rangeFrom (λ e i, walk0 fuel' v' e expr i)
                    selExprs a 0 s st'
              | Some StateCodeExpr => (Ok tt, st')
              | Some (ZeroOrMoreExpr e) => walk0 fuel' v' e expr 0 st'
              | Some (ZeroOrOneExpr e) => walk0 fuel' v' e expr 0 st'
              | Some ForeignExpr => (Panic UnknownExpressionType, st')
              | None => (Panic BadPointer, st')
              end
          end
      | (Panic q, w) => (Panic q, (st.1 ++ [expr], w))
      | (OutOfFuel, w) => (OutOfFuel, (st.1 ++ [expr], w))
      end
  end.

(** [func Walk(v Visitor, expr Expression) { walk0(v, expr, nil, 0) }] *)
Definition Walk (fuel : nat) (v : V) (expr : Expression) (st : wstate G)
  : res unit * wstate G :=
  walk0 fuel v expr nilExpr 0 st.
End walker.

(** [type inspector func(Expression) bool]: the function may be a closure
    with effects of its own. *)
Definition inspector (G : Type) : Type :=
  Expression → gmap addr node * G → res bool * (gmap addr node * G).

(** [func (f inspector) Visit(expr Expression, br Backref) Visitor] *)
Definition inspectorVisit {G : Type} (f : inspector G) (expr : Expression)
    (br : Backref) (w : gmap addr node * G)
  : res (option (inspector G)) * (gmap addr node * G) :=
  match f expr w with
  | (Ok true, w') => (Ok (Some f), w')
  | (Ok false, w') => (Ok None, w')
  | (Panic q, w') => (Panic q, w')
  | (OutOfFuel, w') => (OutOfFuel, w')
  end.

(** [func Inspect(expr Expression, f func(Expression) bool)] *)
Definition Inspect {G : Type} (fuel : nat) (expr : Expression)
    (f : inspector G) (st : wstate G) : res unit * wstate G :=
  Walk inspectorVisit fuel f expr st.

End BackrefWalk.

(** ** The walker with an optional replacement capability *)

Module UpgradeWalk.

Section walker.
Context {V R G : Type}.

(** [Visit(expr Expression) (w Visitor)] of the visitor values [V]. *)
Variable Visit :
  V → Expression → gmap addr node * G
    → res (option V) * (gmap addr node * G).

(** [VisitReplace(expr Expression, replacer func(Expression))
    VisitReplacer] of the values [R] that implement [VisitReplacer]. *)
Variable VisitReplace :
  R → Expression → replacerFn → gmap addr node * G
    → res (option R) * (gmap addr node * G).

(** The type assertion [v.(VisitReplacer)]. *)
Variable asVisitReplacer : V → option R.

Fixpoint walkVisitor (fuel : nat) (v : V) (expr : Expression)
    (st : wstate G) : res unit * wstate G :=
  match fuel with
  | 0 => (OutOfFuel, st)
  | S fuel' =>
      match Visit v expr st.2 with
      | (Ok None, w) => (Ok tt, (st.1 ++ [expr], w))
      | (Ok (Some v'), w) =>
          let st' := (st.1 ++ [expr], w) in
          match expr with
          | nilExpr => (Panic UnknownExpressionType, st')
          | ptr a =>
              match w.1 !! a with
              | Some (ActionExpr e) => walkVisitor fuel' v' e st'
              | Some AndCodeExpr => (Ok tt, st')
              | Some (AndExpr e) => walkVisitor fuel' v' e st'
              | Some AnyMatcher => (Ok tt, st')
              | Some CharClassMatcher => (Ok tt, st')
              | Some (ChoiceExpr s) =>
                  rangeFrom (λ e _, walkVisitor fuel' v' e)
                    selAlternatives a 0 s st'
              | Some (Grammar s) =>
                  rangeFrom (λ e _, walkVisitor fuel' v' e)
                    selRules a 0 s st'
              | Some (LabeledExpr e) => walkVisitor fuel' v' e st'
              | Some LitMatcher => (Ok tt, st')
              | Some NotCodeExpr => (Ok tt, st')
              | Some (NotExpr e) => walkVisitor fuel' v' e st'
              | Some (OneOrMoreExpr e) => walkVisitor fuel' v' e st'
              | Some (Rule e) => walkVisitor fuel' v' e st'
              | Some RuleRefExpr => (Ok tt, st')
              | Some (SeqExpr s) =>
                  rangeFrom (λ e _, walkVisitor fuel' v' e)
                    selExprs a 0 s st'
              | Some StateCodeExpr => (Ok tt, st')
              | Some (ZeroOrMoreExpr e) => walkVisitor fuel' v' e st'
              | Some (ZeroOrOneExpr e) => walkVisitor fuel' v' e st'
              | Some ForeignExpr => (Panic UnknownExpressionType, st')
              | None => (Panic BadPointer, st')
              end
          end
      | (Panic q, w) => (Panic q, (st.1 ++ [expr], w))
      | (OutOfFuel, w) => (OutOfFuel, (st.1 ++ [expr], w))
      end
  end.

Fixpoint walkReplacer (fuel : nat) (v : R) (expr parent0 : Expression)
    (index : nat) (st : wstate G) : res unit * wstate G :=
  match fuel with
  | 0 => (OutOfFuel, st)
  | S fuel' =>
      let replacer := replacerOf st.2.1 parent0 index in
      match VisitReplace v expr replacer st.2 with
      | (Ok None, w) => (Ok tt, (st.1 ++ [expr], w))
      | (Ok (Some v'), w) =>
          let st' := (st.1 ++ [expr], w) in
          match expr with
          | nilExpr => (Panic UnknownExpressionType, st')
          | ptr a =>
              match w.1 !! a with
              | Some (ActionExpr e) => walkReplacer fuel' v' e expr 0 st'
              | Some AndCodeExpr => (Ok tt, st')
              | Some (AndExpr e) => walkReplacer fuel' v' e expr 0 st'
              | Some AnyMatcher => (Ok tt, st')
              | Some CharClassMatcher => (Ok tt, st')
              | Some (ChoiceExpr s) =>
                  rangeFrom (λ e i, walkReplacer fuel' v' e expr i)
                    selAlternatives a 0 s st'
              | Some (Grammar s) =>
                  rangeFrom (λ e i, walkReplacer fuel' v' e expr i)
                    selRules a 0 s st'
              | Some (LabeledExpr e) => walkReplacer fuel' v' e expr 0 st'
              | Some LitMatcher => (Ok tt, st')
              | Some NotCodeExpr => (Ok tt, st')
              | Some (NotExpr e) => walkReplacer fuel' v' e expr 0 st'
              | Some (OneOrMoreExpr e) => walkReplacer fuel' v' e expr 0 st'
              | Some (Rule e) => walkReplacer fuel' v' e expr 0 st'
              | Some RuleRefExpr => (Ok tt, st')
              | Some (SeqExpr s) =>
                  rangeFrom (λ e i, walkReplacer fuel' v' e expr i)
                    selExprs a 0 s st'
              | Some StateCodeExpr => (Ok tt, st')
              | Some (ZeroOrMoreExpr e) => walkReplacer fuel' v' e expr 0 st'
              | Some (ZeroOrOneExpr e) => walkReplacer fuel' v' e expr 0 st'
              | Some ForeignExpr => (Panic UnknownExpressionType, st')
              | None => (Panic BadPointer, st')
              end
          end
      | (Panic q, w) => (Panic q, (st.1 ++ [expr], w))
      | (OutOfFuel, w) => (OutOfFuel, (st.1 ++ [expr], w))
      end
  end.

(** [Walk]: a visitor that is also a [VisitReplacer] is upgraded. *)
Definition Walk (fuel : nat) (v : V) (expr : Expression) (st : wstate G)
  : res unit * wstate G :=
  match asVisitReplacer v with
  | Some visitReplacer => walkReplacer fuel visitReplacer expr nilExpr 0 st
  | None => walkVisitor fuel v expr st
  end.
End walker.

(** [type inspector func(Expression) bool] *)
Definition inspector (G : Type) : Type :=
  Expression → gmap addr node * G → res bool * (gmap addr node * G).

(** [func (f inspector) Visit(expr Expression) Visitor] *)
Definition inspectorVisit {G : Type} (f : inspector G) (expr : Expression)
    (w : gmap addr node * G)
  : res (option (inspector G)) * (gmap addr node * G) :=
  match f expr w with
  | (Ok true, w') => (Ok (Some f), w')
  | (Ok false, w') => (Ok None, w')
  | (Panic q, w') => (Panic q, w')
  | (OutOfFuel, w') => (OutOfFuel, w')
  end.

(** The type [inspector] has the method [Visit] only: the assertion
    [v.(VisitReplacer)] fails for it, whatever [VisitReplace] is for the
    other visitors of the program. *)
Definition inspectorNoUpgrade {G : Type} (f : inspector G)
  : option Empty_set := None.

(** [func Inspect(expr Expression, f func(Expression) bool)] *)
Definition Inspect {G : Type} (fuel : nat) (expr : Expression)
    (f : inspector G) (st : wstate G) : res unit * wstate G :=
  Walk inspectorVisit (λ r : Empty_set, match r with end)
    inspectorNoUpgrade fuel f expr st.

End UpgradeWalk.

(** ** One walker for the three

    The three recursive functions of the source differ in what they hand to
    the visitor only.  [gwalk] is their common skeleton over an abstract
    visit step, with the second [switch] grouped by the shape of the node;
    the lemmas [walk0_gwalk], [walkVisitor_gwalk] and [walkReplacer_gwalk]
    show that each function of the source is an instance of it. *)

Inductive shape : Type :=
  | Single (e : Expression)
  | Many (sel : node → option (list Expression)) (s : list Expression)
  | Leaf
  | Unknown.

Definition shapeOf (c : node) : shape :=
  match c with
  | ActionExpr e | AndExpr e | LabeledExpr e | NotExpr e | OneOrMoreExpr e
  | Rule e | ZeroOrMoreExpr e | ZeroOrOneExpr e => Single e
  | ChoiceExpr s => Many selAlternatives s
  | Grammar s => Many selRules s
  | SeqExpr s => Many selExprs s
  | AndCodeExpr | AnyMatcher | CharClassMatcher | LitMatcher | NotCodeExpr
  | RuleRefExpr | StateCodeExpr => Leaf
  | ForeignExpr => Unknown
  end.

(** The structural children of a node of the taxonomy, in declared order. *)
Definition childrenOf (c : node) : option (list Expression) :=
  match shapeOf c with
  | Single e => Some [e]
  | Many _ s => Some s
  | Leaf => Some []
  | Unknown => None
  end.

(** An expression the second [switch] has no case for, in the heap [h]. *)
Definition unknownIn (h : gmap addr node) (e : Expression) : Prop :=
  match e with
  | nilExpr => True
  | ptr a => h !! a = Some ForeignExpr
  end.

Section generic.
Context {V G : Type}.
Variable step :
  V → Expression → Expression → nat → gmap addr node * G
    → res (option V) * (gmap addr node * G).

Fixpoint gwalk (fuel : nat) (v : V) (expr parent0 : Expression)
    (index : nat) (st : wstate G) : res unit * wstate G :=
  match fuel with
  | 0 => (OutOfFuel, st)
  | S fuel' =>
      match step v expr parent0 index st.2 with
      | (Ok None, w) => (Ok tt, (st.1 ++ [expr], w))
      | (Ok (Some v'), w) =>
          let st' := (st.1 ++ [expr], w) in
          match expr with
          | nilExpr => (Panic UnknownExpressionType, st')
          | ptr a =>
              match w.1 !! a with
              | Some c =>
                  match shapeOf c with
                  | Single e => gwalk fuel' v' e expr 0 st'
                  | Many sel s =>
                      rangeFrom (λ e i, gwalk fuel' v' e expr i) sel a 0 s st'
                  | Leaf => (Ok tt, st')
                  | Unknown => (Panic UnknownExpressionType, st')
                  end
              | None => (Panic BadPointer, st')
              end
          end
      | (Panic q, w) => (Panic q, (st.1 ++ [expr], w))
      | (OutOfFuel, w) => (OutOfFuel, (st.1 ++ [expr], w))
      end
  end.
End generic.

(** The visit steps of the three walkers. *)
Definition backrefStep {V G : Type}
    (Visit : V → Expression → BackrefWalk.Backref → gmap addr node * G
               → res (option V) * (gmap addr node * G))
    (v : V) (expr parent0 : Expression) (index : nat)
    (w : gmap addr node * G) : res (option V) * (gmap addr node * G) :=
  Visit v expr (BackrefWalk.mkBackref parent0 (replacerOf w.1 parent0 index)) w.

Definition plainStep {V G : Type}
    (Visit : V → Expression → gmap addr node * G
               → res (option V) * (gmap addr node * G))
    (v : V) (expr parent0 : Expression) (index : nat)
    (w : gmap addr node * G) : res (option V) * (gmap addr node * G) :=
  Visit v expr w.

Definition replacerStep {R G : Type}
    (VisitReplace : R → Expression → replacerFn → gmap addr node * G
                      → res (option R) * (gmap addr node * G))
    (v : R) (expr parent0 : Expression) (index : nat)
    (w : gmap addr node * G) : res (option R) * (gmap addr node * G) :=
  VisitReplace v expr (replacerOf w.1 parent0 index) w.

(** ** Trees in the heap *)

(** The shape of a strict tree: the address of each node and its subtrees
    in child order. *)
#[local] Unset Elimination Schemes.
Inductive tree : Type :=
  | Tree (a : addr) (kids : list tree).
#[local] Set Elimination Schemes.

Definition rootOf (t : tree) : Expression :=
  match t with Tree a _ => ptr a end.

Definition kidsOf (t : tree) : list tree :=
  match t with Tree _ kids => kids end.

(** The heap [h] holds the tree [t]: every node is a cell of the taxonomy
    whose children are the roots of the subtrees, in order. *)
Fixpoint repr (h : gmap addr node) (t : tree) : bool :=
  match t with
  | Tree a kids =>
      match h !! a ≫= childrenOf with
      | Some es => bool_decide (es = map rootOf kids) && forallb (repr h) kids
      | None => false
      end
  end.

Fixpoint depth (t : tree) : nat :=
  match t with
  | Tree _ kids => S (list_max (map depth kids))
  end.

(** Pre-order listing: a node, then its subtrees from first to last. *)
Fixpoint preorder (t : tree) : list Expression :=
  match t with
  | Tree a kids => ptr a :: flat_map preorder kids
  end.

(** The nodes strictly below the root of [t]. *)
Definition descendants (t : tree) : list Expression :=
  flat_map preorder (kidsOf t).

Section decisions.
Context {V : Type}.
(** What a visitor answers at a node: the continuation, or [None]. *)
Variable dec : V → Expression → option V.

(** Pre-order listing with pruning: the subtrees of a node are listed
    only if the visitor continues there, with the continuation. *)
Fixpoint trav (v : V) (t : tree) : list Expression :=
  match t with
  | Tree a kids =>
      ptr a :: match dec v (ptr a) with
               | Some w => flat_map (trav w) kids
               | None => []
               end
  end.

End decisions.

(** ** Walks of a tree by a visitor with a state *)

Section stateful.
Context {V G : Type}.
(** What a visitor that only reads answers at a node, and the state it
    leaves: the answer may depend on the visitor value, the node, the
    parent and index of the back-reference, and the visitor's state. *)
Variable ans : V → Expression → Expression → nat → G → option V * G.

(** The visits of the walks of the trees [ks], one after the other from
    index [j] on, each started in the state the one before left; [f] gives
    the visits and final state of the walk of one tree. *)
Definition kidsT (f : nat → tree → G → list Expression * G)
  : nat → list tree → G → list Expression * G :=
  fix go (j : nat) (ks : list tree) (g : G) : list Expression * G :=
    match ks with
    | [] => ([], g)
    | k :: ks' =>
        ((f j k g).1 ++ (go (S j) ks' (f j k g).2).1,
         (go (S j) ks' (f j k g).2).2)
    end.

(** Pre-order listing with pruning, the visitor's state threaded through:
    the visits of the walk of [t] by the visitor [v], handed the
    back-reference of slot [i] of [p], started in state [g], and the
    state at the end. *)
Fixpoint walkT (v : V) (p : Expression) (i : nat) (t : tree) (g : G)
  : list Expression * G :=
  match t with
  | Tree a kids =>
      match (ans v (ptr a) p i g).1 with
      | Some w =>
          (ptr a :: (kidsT (λ j k, walkT w (ptr a) j k) 0 kids
                       (ans v (ptr a) p i g).2).1,
           (kidsT (λ j k, walkT w (ptr a) j k) 0 kids
              (ans v (ptr a) p i g).2).2)
      | None => ([ptr a], (ans v (ptr a) p i g).2)
      end
  end.

(** [arrives v p i t g N u pN iN gN]: the walk of [t] by [v] started in
    state [g] gets to the subtree [N] - the visitor continues at every
    ancestor of [N] - and visits its root with the visitor [u], the
    back-reference of slot [iN] of [pN], in state [gN]. *)
Inductive arrives
  : V → Expression → nat → tree → G
    → tree → V → Expression → nat → G → Prop :=
  | arrives_here v p i t g : arrives v p i t g t v p i g
  | arrives_kid v p i a kids g w pre k post N u pN iN gN :
      (ans v (ptr a) p i g).1 = Some w →
      kids = pre ++ k :: post →
      arrives w (ptr a) (length pre) k
        (kidsT (λ j k, walkT w (ptr a) j k) 0 pre (ans v (ptr a) p i g).2).2
        N u pN iN gN →
      arrives v p i (Tree a kids) g N u pN iN gN.
End stateful.

(** The answers of a visitor of the variant with back-references, in the
    heap [h] (read-only visitors leave [h] and return). *)
Definition answerOf {V G : Type}
    (Visit : V → Expression → BackrefWalk.Backref → gmap addr node * G
               → res (option V) * (gmap addr node * G))
    (h : gmap addr node) (v : V) (e p : Expression) (i : nat) (g : G)
  : option V * G :=
  match Visit v e (BackrefWalk.mkBackref p (replacerOf h p i)) (h, g) with
  | (Ok o, w) => (o, w.2)
  | (_, w) => (None, w.2)
  end.

(** The answers of the method [Visit] of the variant with the optional
    capability. *)
Definition answerPlain {V G : Type}
    (Visit : V → Expression → gmap addr node * G
               → res (option V) * (gmap addr node * G))
    (h : gmap addr node) (v : V) (e p : Expression) (i : nat) (g : G)
  : option V * G :=
  match Visit v e (h, g) with
  | (Ok o, w) => (o, w.2)
  | (_, w) => (None, w.2)
  end.

(** The answers of the method [VisitReplace]. *)
Definition answerReplacer {R G : Type}
    (VisitReplace : R → Expression → replacerFn → gmap addr node * G
                      → res (option R) * (gmap addr node * G))
    (h : gmap addr node) (r : R) (e p : Expression) (i : nat) (g : G)
  : option R * G :=
  match VisitReplace r e (replacerOf h p i) (h, g) with
  | (Ok o, w) => (o, w.2)
  | (_, w) => (None, w.2)
  end.

(** ** Kinds, arities and visitors that write through the replacer only *)

(** The kind of a node and the number of its children: the node with its
    children blanked. *)
Definition tagOf (c : node) : node :=
  match c with
  | ActionExpr _ => ActionExpr nilExpr
  | AndExpr _ => AndExpr nilExpr
  | ChoiceExpr s => ChoiceExpr (replicate (length s) nilExpr)
  | Grammar s => Grammar (replicate (length s) nilExpr)
  | LabeledExpr _ => LabeledExpr nilExpr
  | NotExpr _ => NotExpr nilExpr
  | OneOrMoreExpr _ => OneOrMoreExpr nilExpr
  | Rule _ => Rule nilExpr
  | SeqExpr s => SeqExpr (replicate (length s) nilExpr)
  | ZeroOrMoreExpr _ => ZeroOrMoreExpr nilExpr
  | ZeroOrOneExpr _ => ZeroOrOneExpr nilExpr
  | AndCodeExpr | AnyMatcher | CharClassMatcher | LitMatcher | NotCodeExpr
  | RuleRefExpr | StateCodeExpr | ForeignExpr => c
  end.

(** The invariant of the data model on Grammars: every element of a
    [Rules] slice is a [*Rule]. *)
Definition grammarTyped (h : gmap addr node) : Prop :=
  ∀ g s, h !! g = Some (Grammar s) → Forall (λ e, isRule h e = true) s.

(** [grammarTyped], as a check on the cells of the heap. *)
Definition grammarTypedB (h : gmap addr node) : bool :=
  forallb (λ gc : addr * node,
             match gc.2 with
             | Grammar s => forallb (isRule h) s
             | _ => true
             end) (map_to_list h).

(** The result is not one of the faults of a replacer call gone wrong: an
    index out of range, a call of a nil replacer, a panic of the visitor's
    own. *)
Definition noSlotFault {A : Type} (r : res A) : Prop :=
  match r with
  | Panic IndexOutOfRange | Panic NilFuncCall | Panic VisitorPanic => False
  | _ => True
  end.

(** A visitor whose only effect on the heap is to call the replacer it is
    handed.  At each node its [script] reads the heap and the visitor's
    state and gives the arguments of the successive replacer calls, the
    continuation and the new state; a panic of the replacer goes through
    the visitor. *)
Definition scripted {V G : Type}
    (script : V → Expression → gmap addr node → G
                → list Expression * option V * G)
    (v : V) (expr : Expression) (br : BackrefWalk.Backref)
    (w : gmap addr node * G) : res (option V) * (gmap addr node * G) :=
  match applyAll (BackrefWalk.replacer br) (script v expr w.1 w.2).1.1 w.1 with
  | (Ok _, h1) => (Ok (script v expr w.1 w.2).1.2, (h1, (script v expr w.1 w.2).2))
  | (Panic q, h1) => (Panic q, (h1, (script v expr w.1 w.2).2))
  | (OutOfFuel, h1) => (OutOfFuel, (h1, (script v expr w.1 w.2).2))
  end.

(** The same visitor as [scripted] for the variant with the optional
    capability: its method [VisitReplace]. *)
Definition scriptedReplacer {V G : Type}
    (script : V → Expression → gmap addr node → G
                → list Expression * option V * G)
    (v : V) (expr : Expression) (r : replacerFn)
    (w : gmap addr node * G) : res (option V) * (gmap addr node * G) :=
  match applyAll r (script v expr w.1 w.2).1.1 w.1 with
  | (Ok _, h1) => (Ok (script v expr w.1 w.2).1.2, (h1, (script v expr w.1 w.2).2))
  | (Panic q, h1) => (Panic q, (h1, (script v expr w.1 w.2).2))
  | (OutOfFuel, h1) => (OutOfFuel, (h1, (script v expr w.1 w.2).2))
  end.

(** What a visitor given by [script] answers in the heap [h0], and the
    state it leaves: the continuation and next state of the script. *)
Definition scriptAnswer {V G : Type}
    (script : V → Expression → gmap addr node → G
                → list Expression * option V * G)
    (h0 : gmap addr node) (v : V) (e p : Expression) (i : nat) (g : G)
  : option V * G :=
  ((script v e h0 g).1.2, (script v e h0 g).2).

(** The slot [index] of [parent0] exists in the heap [h]: the parent is
    nil, or a node of the taxonomy with more than [index] children. *)
Definition validSlot (h : gmap addr node) (parent0 : Expression)
    (index : nat) : Prop :=
  match parent0 with
  | nilExpr => True
  | ptr p => ∃ c es, h !! p = Some c ∧ childrenOf c = Some es
                     ∧ index < length es
  end.

(** The expression in slot [j] of the node at [a], if there is one. *)
Definition slotOf (h : gmap addr node) (a : addr) (j : nat)
  : option Expression :=
  (h !! a ≫= childrenOf) ≫= (λ es, es !! j).

(** [sameBut nodes parent0 i h h']: the heap [h'] is the heap [h] up to
    the contents of the cells of [nodes] and of slot [i] of [parent0];
    kinds and arities are those of [h] everywhere. *)
Definition sameBut (nodes : list Expression) (parent0 : Expression) (i : nat)
    (h h' : gmap addr node) : Prop :=
  tagOf <$> h' = tagOf <$> h
  ∧ (∀ a, ptr a ∉ nodes → parent0 ≠ ptr a → h' !! a = h !! a)
  ∧ (∀ p j, parent0 = ptr p → ptr p ∉ nodes → j ≠ i →
            slotOf h' p j = slotOf h p j).

(** A script that replaces every leaf matcher it is handed by the
    expression [c] and then by [d], and continues everywhere. *)
Definition twiceScript (c d : Expression) (v : unit) (expr : Expression)
    (h : gmap addr node) (g : nat) : list Expression * option unit * nat :=
  match expr with
  | ptr a =>
      match h !! a with
      | Some LitMatcher | Some AnyMatcher | Some CharClassMatcher =>
          ([c; d], Some tt, S g)
      | _ => ([], Some tt, g)
      end
  | nilExpr => ([], Some tt, g)
  end.

(** ** The calls a walk makes *)

(** A call of the walker: the arguments of [walk0] and the state it is
    entered in. *)
Record call (V G : Type) : Type := mkCall {
  c_fuel : nat;
  c_visitor : V;
  c_expr : Expression;
  c_parent : Expression;
  c_index : nat;
  c_state : wstate G
}.
Arguments mkCall {V G} _ _ _ _ _ _.
Arguments c_fuel {V G} _.
Arguments c_visitor {V G} _.
Arguments c_expr {V G} _.
Arguments c_parent {V G} _.
Arguments c_index {V G} _.
Arguments c_state {V G} _.

Section calls.
Context {V G : Type}.
Variable step :
  V → Expression → Expression → nat → gmap addr node * G
    → res (option V) * (gmap addr node * G).

Definition run (c : call V G) : res unit * wstate G :=
  gwalk step (c_fuel c) (c_visitor c) (c_expr c) (c_parent c) (c_index c)
    (c_state c).

(** [iterates body sel p i snap st j e st']: the loop [rangeFrom]
    started at index [i] in state [st] gets to iteration [j], all
    iterations before it having returned, and enters it with the element
    [e] in state [st']. *)
Inductive iterates
    (body : Expression → nat → wstate G → res unit * wstate G)
    (sel : node → option (list Expression)) (p : addr)
  : nat → list Expression → wstate G
    → nat → Expression → wstate G → Prop :=
  | iterates_here i e0 snap st :
      iterates body sel p i (e0 :: snap) st i (elemAt sel st.2.1 p i e0) st
  | iterates_next i e0 snap st st1 j e st' :
      body (elemAt sel st.2.1 p i e0) i st = (Ok tt, st1) →
      iterates body sel p (S i) snap st1 j e st' →
      iterates body sel p i (e0 :: snap) st j e st'.

(** [subcall outer inner]: the call [inner] is made in the course of the
    call [outer] (or is [outer] itself): the visitor continued at every
    node on the way down, and in every loop on the way all earlier
    iterations returned. *)
Inductive subcall : call V G → call V G → Prop :=
  | subcall_here c : subcall c c
  | subcall_single fuel v expr p i st v' w a c e inner :
      step v expr p i st.2 = (Ok (Some v'), w) →
      expr = ptr a → w.1 !! a = Some c → shapeOf c = Single e →
      subcall (mkCall fuel v' e expr 0 (st.1 ++ [expr], w)) inner →
      subcall (mkCall (S fuel) v expr p i st) inner
  | subcall_many fuel v expr p i st v' w a c sel s j e st' inner :
      step v expr p i st.2 = (Ok (Some v'), w) →
      expr = ptr a → w.1 !! a = Some c → shapeOf c = Many sel s →
      iterates (λ e i, gwalk step fuel v' e expr i) sel a 0 s
        (st.1 ++ [expr], w) j e st' →
      subcall (mkCall fuel v' e expr j st') inner →
      subcall (mkCall (S fuel) v expr p i st) inner.
End calls.

(** ** Comparing visitors *)

(** Two visit calls agree: they leave the same world and both stop, both
    continue (with continuations related by [P]), both raise the same panic
    or both diverge. *)
Definition agree {V V' W : Type} (P : V → V' → Prop)
    (x : res (option V) * W) (y : res (option V') * W) : Prop :=
  x.2 = y.2 ∧
  match x.1, y.1 with
  | Ok None, Ok None => True
  | Ok (Some a), Ok (Some b) => P a b
  | Panic p, Panic q => p = q
  | OutOfFuel, OutOfFuel => True
  | _, _ => False
  end.

(** ** Visitors used in the statements *)

(** The visitor that first calls the replacer it is handed on each
    expression of [es] in turn, when it is the visitor the walk starts
    with (flag [true]), and then does what [Visit] does; the continuations
    carry the flag [false] and do what [Visit] does only. *)
Definition writingAtRoot {V G : Type} (es : list Expression)
    (Visit : V → Expression → BackrefWalk.Backref → gmap addr node * G
               → res (option V) * (gmap addr node * G))
    (bv : bool * V) (expr : Expression) (br : BackrefWalk.Backref)
    (w : gmap addr node * G)
  : res (option (bool * V)) * (gmap addr node * G) :=
  let then_visit w1 :=
    match Visit bv.2 expr br w1 with
    | (Ok o, w2) => (Ok (option_map (pair false) o), w2)
    | (Panic q, w2) => (Panic q, w2)
    | (OutOfFuel, w2) => (OutOfFuel, w2)
    end in
  if bv.1 then
    match applyAll (BackrefWalk.replacer br) es w.1 with
    | (Ok _, h1) => then_visit (h1, w.2)
    | (Panic q, h1) => (Panic q, (h1, w.2))
    | (OutOfFuel, h1) => (OutOfFuel, (h1, w.2))
    end
  else then_visit w.


(** The visitor that never looks at the back-reference it is handed and
    assigns the field [Expr] of every OneOrMoreExpr it visits itself
    ([expr.( *OneOrMoreExpr).Expr = c]); it continues everywhere. *)
Definition directWrite (c : Expression) (v : unit) (expr : Expression)
    (br : BackrefWalk.Backref) (w : gmap addr node * unit)
  : res (option unit) * (gmap addr node * unit) :=
  match expr with
  | ptr a =>
      match w.1 !! a with
      | Some (OneOrMoreExpr _) =>
          (Ok (Some tt), (<[a := OneOrMoreExpr c]> w.1, w.2))
      | _ => (Ok (Some tt), w)
      end
  | nilExpr => (Ok (Some tt), w)
  end.

(** The visitor that always continues and touches nothing. *)
Definition visitAll (v : unit) (expr : Expression) (br : BackrefWalk.Backref)
    (w : gmap addr node * unit) : res (option unit) * (gmap addr node * unit) :=
  (Ok (Some tt), w).

(** The visitor that stops at the nodes outside the taxonomy and continues
    at all others. *)
Definition skipUnknown (v : unit) (expr : Expression)
    (br : BackrefWalk.Backref) (w : gmap addr node * unit)
  : res (option unit) * (gmap addr node * unit) :=
  match expr with
  | ptr a =>
      match w.1 !! a with
      | Some ForeignExpr => (Ok None, w)
      | _ => (Ok (Some tt), w)
      end
  | nilExpr => (Ok None, w)
  end.

(** The inspector of a pure predicate on the heap and the node. *)
Definition purePredicate {G : Type} (pred : gmap addr node → Expression → bool)
  : BackrefWalk.inspector G :=
  λ e w, (Ok (pred w.1 e), w).

(** The predicate "the node is not a [ChoiceExpr]". *)
Definition notChoice (h : gmap addr node) (e : Expression) : bool :=
  match e with
  | ptr a => match h !! a with Some (ChoiceExpr _) => false | _ => true end
  | nilExpr => true
  end.

(** A visitor with a counter as continuation that continues exactly where
    [notChoice] holds. *)
Definition countingVisit (v : nat) (expr : Expression)
    (br : BackrefWalk.Backref) (w : gmap addr node * unit)
  : res (option nat) * (gmap addr node * unit) :=
  (Ok (if notChoice w.1 expr then Some (S v) else None), w).

(** Visitors of the variant with the optional capability: one that only
    has [Visit], and one that also has [VisitReplace]; both continue
    everywhere. *)
Definition plainAll (v : unit) (expr : Expression) (w : gmap addr node * unit)
  : res (option unit) * (gmap addr node * unit) :=
  (Ok (Some tt), w).

Definition replacerAll (v : unit) (expr : Expression) (r : replacerFn)
    (w : gmap addr node * unit) : res (option unit) * (gmap addr node * unit) :=
  (Ok (Some tt), w).

(** What [countingVisit] answers in the heap [h]. *)
Definition countingDec (h : gmap addr node) (v : nat) (e : Expression)
  : option nat :=
  if notChoice h e then Some (S v) else None.

(** What the inspector of a pure predicate answers in the heap [h]. *)
Definition predicateDec (pred : gmap addr node → Expression → bool)
    (h : gmap addr node) (v : unit) (e : Expression) : option unit :=
  if pred h e then Some tt else None.

(** The method [Visit] of a visitor of the variant with the optional
    capability that stops at ChoiceExprs. *)
Definition plainCounting (v : nat) (expr : Expression)
    (w : gmap addr node * unit) : res (option nat) * (gmap addr node * unit) :=
  (Ok (countingDec w.1 v expr), w).

(** A method [Visit] that panics whenever it is called. *)
Definition plainPanics (v : nat) (expr : Expression)
    (w : gmap addr node * unit) : res (option nat) * (gmap addr node * unit) :=
  (Panic VisitorPanic, w).

(** The visitor that panics when it is handed the expression [x] and
    continues at every other node. *)
Definition failAt (x : Expression) (v : unit) (expr : Expression)
    (br : BackrefWalk.Backref) (w : gmap addr node * unit)
  : res (option unit) * (gmap addr node * unit) :=
  if decide (expr = x) then (Panic VisitorPanic, w) else (Ok (Some tt), w).

(** The visitor that notes, for every node it is handed, the parent named
    by the back-reference, and continues everywhere. *)
Definition notingParents (v : unit) (expr : Expression)
    (br : BackrefWalk.Backref)
    (w : gmap addr node * list (Expression * Expression))
  : res (option unit) * (gmap addr node * list (Expression * Expression)) :=
  (Ok (Some tt), (w.1, w.2 ++ [(expr, BackrefWalk.parent br)])).

(** The nodes of a tree in pre-order, each with its parent; [parent0] is
    the parent of the root. *)
Fixpoint edges (parent0 : Expression) (t : tree)
  : list (Expression * Expression) :=
  match t with
  | Tree a kids => (ptr a, parent0) :: flat_map (edges (ptr a)) kids
  end.

(** The script of the visitor that replaces the node it is handed by
    [e'] when [F] gives [Some e'] for it, leaves it when [F] gives [None],
    and continues everywhere. *)
Definition replaceBy {G : Type} (F : Expression → option Expression)
    (v : unit) (expr : Expression) (h : gmap addr node) (g : G)
  : list Expression * option unit * G :=
  (match F expr with Some e' => [e'] | None => [] end, Some tt, g).

(** What is in the slot of [e] after the visitor of [replaceBy F] has been
    handed [e]. *)
Definition replaced (F : Expression → option Expression) (e : Expression)
  : Expression :=
  default e (F e).

(** A choice of replacements: the LitMatcher [ptr 5] becomes the
    CharClassMatcher [ptr 8], the Rule [ptr 3] becomes the Rule [ptr 1]. *)
Definition sampleChoice (e : Expression) : option Expression :=
  match e with
  | ptr 5 => Some (ptr 8)
  | ptr 3 => Some (ptr 1)
  | _ => None
  end.

(** A visitor that counts its calls and returns nil at its second call,
    whatever the node; it only reads. *)
Definition secondCallStops (v : unit) (expr : Expression)
    (br : BackrefWalk.Backref) (w : gmap addr node * nat)
  : res (option unit) * (gmap addr node * nat) :=
  (Ok (if decide (w.2 = 1) then None else Some tt), (w.1, S w.2)).

(** Sample heaps. *)
Definition heapRepeat : gmap addr node :=
  <[0 := OneOrMoreExpr (ptr 1)]>
    (<[1 := LitMatcher]> (<[2 := CharClassMatcher]> ∅)).

Definition heapForeign : gmap addr node :=
  <[0 := SeqExpr [ptr 1; ptr 2]]>
    (<[1 := ForeignExpr]> (<[2 := LitMatcher]> ∅)).

Definition heapGrammar : gmap addr node :=
  <[0 := Grammar [ptr 1; ptr 3]]>
    (<[1 := Rule (ptr 2)]> (<[2 := ChoiceExpr [ptr 5; ptr 6; ptr 7]]>
    (<[3 := Rule (ptr 4)]> (<[4 := SeqExpr [ptr 8; ptr 9]]>
    (<[5 := LitMatcher]> (<[6 := AnyMatcher]> (<[7 := RuleRefExpr]>
    (<[8 := CharClassMatcher]> (<[9 := NotCodeExpr]> ∅))))))))).

Definition treeGrammar : tree :=
  Tree 0 [Tree 1 [Tree 2 [Tree 5 []; Tree 6 []; Tree 7 []]];
          Tree 3 [Tree 4 [Tree 8 []; Tree 9 []]]].

(** * Theorems *)

(** ** The functions of the source are instances of [gwalk] *)

Lemma rangeFrom_ext {G : Type}
    (body body' : Expression → nat → wstate G → res unit * wstate G)
    sel p snap :
  (∀ e i st, body e i st = body' e i st) →
  ∀ i st, rangeFrom body sel p i snap st = rangeFrom body' sel p i snap st.
Proof.
  intros Hb. induction snap as [|e0 snap IH]; intros i st; simpl; [done|].
  rewrite Hb. destruct (body' _ i st) as [[[]| |] st']; auto.
Qed.

Lemma walk0_gwalk {V G : Type}
    (Visit : V → Expression → BackrefWalk.Backref → gmap addr node * G
               → res (option V) * (gmap addr node * G))
    fuel v expr parent0 index st :
  BackrefWalk.walk0 Visit fuel v expr parent0 index st
  = gwalk (backrefStep Visit) fuel v expr parent0 index st.
Proof.
  revert v expr parent0 index st.
  induction fuel as [|fuel IH]; intros v expr parent0 index st; [done|].
  simpl. unfold backrefStep at 1.
  destruct (Visit _ _ _ _) as [[[v'|]| |] w]; try done.
  destruct expr as [|a]; [done|].
  destruct (w.1 !! a) as [[]|]; simpl; try done; try apply IH;
    apply rangeFrom_ext; intros; apply IH.
Qed.

Lemma walkVisitor_gwalk {V G : Type}
    (Visit : V → Expression → gmap addr node * G
               → res (option V) * (gmap addr node * G))
    fuel v expr parent0 index st :
  UpgradeWalk.walkVisitor Visit fuel v expr st
  = gwalk (plainStep Visit) fuel v expr parent0 index st.
Proof.
  revert v expr parent0 index st.
  induction fuel as [|fuel IH]; intros v expr parent0 index st; [done|].
  simpl. unfold plainStep at 1.
  destruct (Visit _ _ _) as [[[v'|]| |] w]; try done.
  destruct expr as [|a]; [done|].
  destruct (w.1 !! a) as [[]|]; simpl; try done; try apply IH;
    apply rangeFrom_ext; intros; apply IH.
Qed.

Lemma walkReplacer_gwalk {R G : Type}
    (VisitReplace : R → Expression → replacerFn → gmap addr node * G
                      → res (option R) * (gmap addr node * G))
    fuel v expr parent0 index st :
  UpgradeWalk.walkReplacer VisitReplace fuel v expr parent0 index st
  = gwalk (replacerStep VisitReplace) fuel v expr parent0 index st.
Proof.
  revert v expr parent0 index st.
  induction fuel as [|fuel IH]; intros v expr parent0 index st; [done|].
  simpl. unfold replacerStep at 1.
  destruct (VisitReplace _ _ _ _) as [[[v'|]| |] w]; try done.
  destruct expr as [|a]; [done|].
  destruct (w.1 !! a) as [[]|]; simpl; try done; try apply IH;
    apply rangeFrom_ext; intros; apply IH.
Qed.

(** ** The range loop *)

Lemma elemAt_stable sel (h : gmap addr node) p c s i e snap :
  h !! p = Some c → sel c = Some s → s !! i = Some e →
  elemAt sel h p i snap = e.
Proof. intros Hp Hs Hi. unfold elemAt. by rewrite Hp; simpl; rewrite Hs, Hi. Qed.

Lemma shapeOf_Many c sel s : shapeOf c = Many sel s → sel c = Some s.
Proof. destruct c; simpl; intros [=]; by subst. Qed.

(** ** Walking leaves the heap to the visitor *)

Section frame.
Context {V G X : Type}.
Variable step :
  V → Expression → Expression → nat → gmap addr node * G
    → res (option V) * (gmap addr node * G).
(** The part of the world that the visitor leaves alone. *)
Variable part : gmap addr node * G → X.
Hypothesis step_frame : ∀ v e p i w, part (step v e p i w).2 = part w.

Lemma rangeFrom_frame
    (body : Expression → nat → wstate G → res unit * wstate G) sel p snap :
  (∀ e i st, part (body e i st).2.2 = part st.2) →
  ∀ i st, part (rangeFrom body sel p i snap st).2.2 = part st.2.
Proof.
  intros Hb. induction snap as [|e0 snap IH]; intros i st; simpl; [done|].
  specialize (Hb (elemAt sel st.2.1 p i e0) i st).
  destruct (body _ i st) as [[[]| |] st']; simpl in *; try done.
  by rewrite IH.
Qed.

Lemma gwalk_frame fuel :
  ∀ v e p i st, part (gwalk step fuel v e p i st).2.2 = part st.2.
Proof.
  induction fuel as [|fuel IH]; intros v e p i st; [done|]. simpl.
  pose proof (step_frame v e p i st.2) as Hs.
  destruct (step v e p i st.2) as [[[v'|]| |] w]; simpl in *; try done.
  destruct e as [|a]; [done|].
  destruct (w.1 !! a) as [c|]; [|done].
  destruct (shapeOf c) as [e1|sel s| |]; simpl; try done.
  - by rewrite IH.
  - rewrite rangeFrom_frame; [done|]. intros; apply IH.
Qed.
End frame.

(** ** Walks of visitors that agree *)

Section simulation.
Context {V V' G : Type}.
Variable step :
  V → Expression → Expression → nat → gmap addr node * G
    → res (option V) * (gmap addr node * G).
Variable step' :
  V' → Expression → Expression → nat → gmap addr node * G
    → res (option V') * (gmap addr node * G).
(** The relation between the visitors is indexed by the parent of the
    node they are about to visit. *)
Variable Rel : Expression → V → V' → Prop.
Hypothesis step_agree : ∀ p v v', Rel p v v' →
  ∀ e i w, agree (Rel e) (step v e p i w) (step' v' e p i w).

Lemma gwalk_sim fuel :
  ∀ p v v', Rel p v v' →
  ∀ e i st, gwalk step fuel v e p i st = gwalk step' fuel v' e p i st.
Proof.
  induction fuel as [|fuel IH]; intros p v v' HR e i st; [done|]. simpl.
  destruct (step_agree p v v' HR e i st.2) as [Hw Hr].
  destruct (step v e p i st.2) as [r w], (step' v' e p i st.2) as [r' w'].
  simpl in *. subst w'.
  destruct r as [[a|]| |], r' as [[b|]| |]; try done; [|by subst].
  destruct e as [|x]; [done|].
  destruct (w.1 !! x) as [c|]; [|done].
  destruct (shapeOf c) as [e1|sel s| |]; try done.
  - by apply IH.
  - apply rangeFrom_ext. intros. by apply IH.
Qed.
End simulation.

(** ** Replacers *)

Lemma applyAll_noop es h : applyAll noopReplacer es h = (Ok tt, h).
Proof. induction es as [|e es IH]; simpl; auto. Qed.

(** C3: the replacer built for slot [i] of a Grammar's [Rules] panics with
    the invalid-replacement fault, at the moment it is applied and without
    touching the heap, when the expression is not a [*Rule]; applied to a
    Rule it returns and the slot [i] of [Rules], and nothing else, holds
    that Rule. *)
Theorem grammar_slot_takes_rules_only
    (h0 h : gmap addr node) (g : addr) (s0 s : list Expression)
    (i : nat) (e : Expression) :
  h0 !! g = Some (Grammar s0) →
  h !! g = Some (Grammar s) →
  i < length s →
  let r := replacerOf h0 (ptr g) i in
  (isRule h e = false → r e h = (Panic InvalidReplacement, h)) ∧
  (isRule h e = true →
     r e h = (Ok tt, <[g := Grammar (<[i := e]> s)]> h) ∧
     (<[i := e]> s) !! i = Some e ∧
     (∀ j, j ≠ i → (<[i := e]> s) !! j = s !! j) ∧
     (∀ a, a ≠ g → (<[g := Grammar (<[i := e]> s)]> h) !! a = h !! a)).
Proof.
  intros H0 Hg Hi. simpl. rewrite H0. unfold setRule. split.
  - by intros ->.
  - intros ->. rewrite Hg. unfold setIndex. rewrite decide_True by done.
    split_and!; [done| |..].
    + by apply list_lookup_insert_eq.
    + intros j Hj. by apply list_lookup_insert_ne.
    + intros a Ha. by apply lookup_insert_ne.
Qed.

Lemma grammar_slot_takes_rules_only_witness :
  heapGrammar !! 0 = Some (Grammar [ptr 1; ptr 3]) ∧
  1 < length [ptr 1; ptr 3] ∧
  replacerOf heapGrammar (ptr 0) 1 (ptr 5) heapGrammar
    = (Panic InvalidReplacement, heapGrammar) ∧
  replacerOf heapGrammar (ptr 0) 1 (ptr 1) heapGrammar
    = (Ok tt, <[0 := Grammar [ptr 1; ptr 1]]> heapGrammar).
Proof.
  assert (H0 : heapGrammar !! 0 = Some (Grammar [ptr 1; ptr 3]))
    by reflexivity.
  assert (Hi : 1 < length [ptr 1; ptr 3]) by (simpl; lia).
  split; [exact H0|]. split; [exact Hi|]. split.
  - apply (grammar_slot_takes_rules_only heapGrammar heapGrammar 0
             [ptr 1; ptr 3] [ptr 1; ptr 3] 1 (ptr 5) H0 H0 Hi).
    reflexivity.
  - apply (grammar_slot_takes_rules_only heapGrammar heapGrammar 0
             [ptr 1; ptr 3] [ptr 1; ptr 3] 1 (ptr 1) H0 H0 Hi).
    reflexivity.
Defined.

(** C6: at the root of a walk the write operation does nothing.  Called
    any number of times with any expressions it returns and leaves every
    heap as it is; and a visitor that makes these calls when it is handed
    the root ([writingAtRoot]) produces the very walk of the visitor that
    does not: the same result, the same visits from the same root, the
    same final heap and visitor state. *)
Theorem root_write_is_noop {V G : Type}
    (Visit : V → Expression → BackrefWalk.Backref → gmap addr node * G
               → res (option V) * (gmap addr node * G))
    (es : list Expression) (fuel : nat) (v : V) (root : Expression)
    (st : wstate G) :
  (∀ h i h', applyAll (replacerOf h nilExpr i) es h' = (Ok tt, h')) ∧
  BackrefWalk.Walk (writingAtRoot es Visit) fuel (true, v) root st
  = BackrefWalk.Walk Visit fuel v root st.
Proof.
  split; [intros; apply applyAll_noop|].
  unfold BackrefWalk.Walk. rewrite !walk0_gwalk.
  apply (gwalk_sim _ _ (λ p (bv : bool * V) v', bv.2 = v' ∧ (bv.1 = true → p = nilExpr)));
    [|done].
  clear. intros p [b v] v' [Hv Hb] e i [h g]. simpl in *. subst v'.
  unfold backrefStep, writingAtRoot. simpl.
  assert (Hk : agree (λ (bv : bool * V) v', bv.2 = v' ∧ (bv.1 = true → e = nilExpr))
    match Visit v e (BackrefWalk.mkBackref p (replacerOf h p i)) (h, g) with
    | (Ok o, w2) => (Ok (option_map (pair false) o), w2)
    | (Panic q, w2) => (Panic q, w2)
    | (OutOfFuel, w2) => (OutOfFuel, w2)
    end
    (Visit v e (BackrefWalk.mkBackref p (replacerOf h p i)) (h, g))).
  { destruct (Visit _ _ _ _) as [[[a|]| |] w2]; split; simpl; done. }
  destruct b; [|exact Hk].
  rewrite (Hb eq_refl) in *. simpl. rewrite applyAll_noop. exact Hk.
Qed.

(** The claim C10 as stated fails: not invoking the replacer does not
    keep a visitor from changing the tree.  The visitor [directWrite]
    behaves the same whatever back-reference it is handed, so it never
    calls the replacer; it assigns the child field of the node it visits,
    and the tree after [Walk] is not the tree before it. *)
Lemma direct_write_changes_the_tree :
  (∀ v e br br' w,
     directWrite (ptr 2) v e br w = directWrite (ptr 2) v e br' w)
  ∧ (BackrefWalk.Walk (directWrite (ptr 2)) 3 tt (ptr 0)
       ([], (heapRepeat, tt))).2.2.1
    = <[0 := OneOrMoreExpr (ptr 2)]> heapRepeat
  ∧ (BackrefWalk.Walk (directWrite (ptr 2)) 3 tt (ptr 0)
       ([], (heapRepeat, tt))).2.2.1 ≠ heapRepeat.
Proof.
  split_and!; [done|vm_compute; reflexivity|].
  intros Heq. apply (f_equal (λ h : gmap addr node, h !! 0)) in Heq.
  vm_compute in Heq. discriminate Heq.
Qed.

(** C10 (as the code has it): the walkers write nothing themselves; every
    change of the tree is made inside a call of the visitor.  Whatever
    part of the heap no call of the visitor changes - one cell, the cells
    of a subtree, the whole heap - is after [Walk] what it was before, in
    both variants of the walker and whether the walk returns, panics or
    is cut short.  In particular, when no call of the visitor changes the
    heap, whatever replacer it is handed (so that it neither invokes the
    replacer nor assigns to a node itself), the heap after [Walk] is the
    heap before it, cell for cell. *)
Theorem Walk_writes_nothing {V VB R G X : Type}
    (VisitB : VB → Expression → BackrefWalk.Backref → gmap addr node * G
                → res (option VB) * (gmap addr node * G))
    (VisitA : V → Expression → gmap addr node * G
                → res (option V) * (gmap addr node * G))
    (VisitReplace : R → Expression → replacerFn → gmap addr node * G
                      → res (option R) * (gmap addr node * G))
    (asVisitReplacer : V → option R)
    (part : gmap addr node → X) :
  (∀ v e br w, part (VisitB v e br w).2.1 = part w.1) →
  (∀ v e w, part (VisitA v e w).2.1 = part w.1) →
  (∀ r e repl w, part (VisitReplace r e repl w).2.1 = part w.1) →
  ∀ fuel vb va expr st,
    part (BackrefWalk.Walk VisitB fuel vb expr st).2.2.1 = part st.2.1 ∧
    part (UpgradeWalk.Walk VisitA VisitReplace asVisitReplacer fuel va expr
            st).2.2.1
      = part st.2.1.
Proof.
  intros HB HA HR fuel vb va expr st. split.
  - unfold BackrefWalk.Walk. rewrite walk0_gwalk.
    apply (gwalk_frame _ (λ w, part w.1)). intros. apply HB.
  - unfold UpgradeWalk.Walk. destruct (asVisitReplacer va) as [r|].
    + rewrite walkReplacer_gwalk. apply (gwalk_frame _ (λ w, part w.1)).
      intros. apply HR.
    + rewrite (walkVisitor_gwalk _ _ _ _ nilExpr 0).
      apply (gwalk_frame _ (λ w, part w.1)). intros. apply HA.
Qed.

Lemma Walk_writes_nothing_witness :
  (BackrefWalk.Walk visitAll 4 tt (ptr 0) ([], (heapGrammar, tt))).2.2.1
    = heapGrammar ∧
  (UpgradeWalk.Walk plainAll replacerAll (λ _, Some tt) 4 tt (ptr 0)
     ([], (heapGrammar, tt))).2.2.1 = heapGrammar.
Proof.
  apply (Walk_writes_nothing visitAll plainAll replacerAll (λ _, Some tt)
           (λ h, h));
    intros; reflexivity.
Defined.

(** ** The inspector and the two variants *)

Lemma Inspect_variants {G : Type} (f : BackrefWalk.inspector G) fuel root st :
  UpgradeWalk.Inspect fuel root f st = BackrefWalk.Inspect fuel root f st.
Proof.
  unfold UpgradeWalk.Inspect, UpgradeWalk.Walk, BackrefWalk.Inspect,
    BackrefWalk.Walk. simpl.
  rewrite (walkVisitor_gwalk _ _ _ _ nilExpr 0), walk0_gwalk.
  apply (gwalk_sim _ _ (λ _ f1 f2, f1 = f2)); [|done].
  intros p f1 f2 <- e i w.
  unfold plainStep, backrefStep, UpgradeWalk.inspectorVisit,
    BackrefWalk.inspectorVisit.
  destruct (f1 e w) as [[[]| |] w']; split; simpl; done.
Qed.

(** C8: for a pure predicate [pred], [Inspect] makes the same visits in the
    same order, with the same result, as [Walk] with any visitor that
    continues exactly where the predicate holds and does nothing else; the
    adapter does not look at the back-reference, and the heap and the
    visitor's state after [Inspect] are those before it.  The [Inspect] of
    the other variant of the walker is the same function. *)
Theorem Inspect_is_Walk_of_predicate {V G : Type}
    (pred : gmap addr node → Expression → bool)
    (Visit : V → Expression → BackrefWalk.Backref → gmap addr node * G
               → res (option V) * (gmap addr node * G)) :
  (∀ v e br w, ∃ v',
     Visit v e br w = (Ok (if pred w.1 e then Some v' else None), w)) →
  ∀ fuel root v (st : wstate G),
    BackrefWalk.Inspect fuel root (purePredicate pred) st
      = BackrefWalk.Walk Visit fuel v root st
    ∧ UpgradeWalk.Inspect fuel root (purePredicate pred) st
      = BackrefWalk.Walk Visit fuel v root st
    ∧ (BackrefWalk.Inspect fuel root (purePredicate pred) st).2.2 = st.2
    ∧ (∀ e br br' (w : gmap addr node * G),
         BackrefWalk.inspectorVisit (purePredicate pred) e br w
         = BackrefWalk.inspectorVisit (purePredicate pred) e br' w).
Proof.
  intros HV fuel root v st.
  assert (HW : BackrefWalk.Inspect fuel root (purePredicate pred) st
               = BackrefWalk.Walk Visit fuel v root st).
  { unfold BackrefWalk.Inspect, BackrefWalk.Walk. rewrite !walk0_gwalk.
    apply (gwalk_sim _ _ (λ _ f1 _, f1 = purePredicate pred)); [|done].
    intros p f1 v1 -> e i w. unfold backrefStep.
    destruct (HV v1 e (BackrefWalk.mkBackref p (replacerOf w.1 p i)) w)
      as [v' ->].
    unfold BackrefWalk.inspectorVisit, purePredicate.
    destruct (pred w.1 e); split; simpl; done. }
  split_and!.
  - exact HW.
  - by rewrite Inspect_variants.
  - rewrite HW. unfold BackrefWalk.Walk. rewrite walk0_gwalk.
    apply (gwalk_frame _ id). intros v1 e p i w. unfold backrefStep.
    by destruct (HV v1 e (BackrefWalk.mkBackref p (replacerOf w.1 p i)) w)
      as [v' ->].
  - done.
Qed.

Lemma Inspect_is_Walk_of_predicate_witness :
  BackrefWalk.Inspect 5 (ptr 0) (purePredicate notChoice)
    ([], (heapGrammar, tt))
  = BackrefWalk.Walk countingVisit 5 0 (ptr 0) ([], (heapGrammar, tt)).
Proof.
  apply (Inspect_is_Walk_of_predicate notChoice countingVisit).
  intros v e br w. exists (S v). reflexivity.
Defined.

(** C9: the two variants of the walker behave alike.  A visitor of the
    variant with the optional capability (with [Visit] only, or upgraded
    to [VisitReplace]) and a visitor of the variant with back-references
    that take the same decisions with the same effects at every node, and
    so do their continuations, make the same visits in the same order and
    end with the same result, heap and state. *)
Theorem variants_visit_alike {V R VB G : Type}
    (VisitA : V → Expression → gmap addr node * G
                → res (option V) * (gmap addr node * G))
    (VisitReplace : R → Expression → replacerFn → gmap addr node * G
                      → res (option R) * (gmap addr node * G))
    (asVisitReplacer : V → option R)
    (VisitB : VB → Expression → BackrefWalk.Backref → gmap addr node * G
                → res (option VB) * (gmap addr node * G))
    (RelV : V → VB → Prop) (RelR : R → VB → Prop) :
  (∀ v vb, RelV v vb →
     ∀ e br w, agree RelV (VisitA v e w) (VisitB vb e br w)) →
  (∀ r vb, RelR r vb →
     ∀ e br w, agree RelR (VisitReplace r e (BackrefWalk.replacer br) w)
                 (VisitB vb e br w)) →
  ∀ v vb,
    match asVisitReplacer v with
    | Some r => RelR r vb
    | None => RelV v vb
    end →
    ∀ fuel expr st,
      UpgradeWalk.Walk VisitA VisitReplace asVisitReplacer fuel v expr st
      = BackrefWalk.Walk VisitB fuel vb expr st.
Proof.
  intros HV HR v vb Hv fuel expr st.
  unfold UpgradeWalk.Walk, BackrefWalk.Walk. rewrite walk0_gwalk.
  destruct (asVisitReplacer v) as [r|].
  - rewrite walkReplacer_gwalk.
    apply (gwalk_sim _ _ (λ _, RelR)); [|done].
    intros p r1 vb1 Hr e i w. unfold replacerStep, backrefStep.
    apply (HR r1 vb1 Hr e (BackrefWalk.mkBackref p (replacerOf w.1 p i)) w).
  - rewrite (walkVisitor_gwalk _ _ _ _ nilExpr 0).
    apply (gwalk_sim _ _ (λ _, RelV)); [|done].
    intros p v1 vb1 Hr e i w. unfold plainStep, backrefStep. by apply HV.
Qed.

Lemma variants_visit_alike_witness :
  UpgradeWalk.Walk plainAll replacerAll (λ _, None) 5 tt (ptr 0)
    ([], (heapGrammar, tt))
  = BackrefWalk.Walk visitAll 5 tt (ptr 0) ([], (heapGrammar, tt))
  ∧ UpgradeWalk.Walk plainAll replacerAll (λ _, Some tt) 5 tt (ptr 0)
      ([], (heapGrammar, tt))
    = BackrefWalk.Walk visitAll 5 tt (ptr 0) ([], (heapGrammar, tt)).
Proof.
  split.
  - apply (variants_visit_alike plainAll replacerAll (λ _, None) visitAll
             (λ _ _, True) (λ _ _, True)); try done;
      intros; split; simpl; done.
  - apply (variants_visit_alike plainAll replacerAll (λ _, Some tt) visitAll
             (λ _ _, True) (λ _ _, True)); try done;
      intros; split; simpl; done.
Defined.

(** ** Trees and their listings *)

Lemma tree_kids_ind (P : tree → Prop) :
  (∀ a kids, Forall P kids → P (Tree a kids)) → ∀ t, P t.
Proof.
  intros H. fix IH 1. intros [a kids]. apply H.
  induction kids as [|k kids IHk]; constructor; [apply IH|exact IHk].
Qed.

Lemma elem_of_flat_map {A B : Type} (f : A → list B) (l : list A) (y : B) :
  y ∈ flat_map f l ↔ ∃ x, x ∈ l ∧ y ∈ f x.
Proof.
  induction l as [|a l IH]; simpl.
  - split; [by intros ?%elem_of_nil|]. by intros (x & ?%elem_of_nil & _).
  - rewrite elem_of_app, IH. split.
    + intros [Hy|(x & Hx & Hy)]; [exists a|exists x];
        (split; [|done]); rewrite elem_of_cons; auto.
    + intros (x & [->|Hx]%elem_of_cons & Hy); [by left|right; eauto].
Qed.

Lemma NoDup_flat_map_parts {A B : Type} (f : A → list B) (l : list A) :
  NoDup (flat_map f l) →
  (∀ x, x ∈ l → NoDup (f x)) ∧
  (∀ x y e, x ∈ l → y ∈ l → e ∈ f x → e ∈ f y → x = y).
Proof.
  induction l as [|a l IH]; simpl.
  - intros _. split; [by intros x ?%elem_of_nil|].
    by intros x y e ?%elem_of_nil.
  - intros (Ha & Hdisj & Hl)%NoDup_app. destruct (IH Hl) as [IH1 IH2]. split.
    + intros x [->|Hx]%elem_of_cons; auto.
    + intros x y e [->|Hx]%elem_of_cons [->|Hy]%elem_of_cons Hex Hey;
        [done| | |by eapply IH2].
      * destruct (Hdisj e Hex). apply elem_of_flat_map. eauto.
      * destruct (Hdisj e Hey). apply elem_of_flat_map. eauto.
Qed.

Lemma depth_kid k kids : k ∈ kids → depth k ≤ list_max (map depth kids).
Proof.
  induction kids as [|k' kids IH]; [by intros ?%elem_of_nil|].
  intros [->|Hk]%elem_of_cons; simpl; [lia|]. specialize (IH Hk). lia.
Qed.

Lemma repr_inv h a kids :
  repr h (Tree a kids) = true →
  ∃ c, h !! a = Some c ∧ childrenOf c = Some (map rootOf kids)
       ∧ Forall (λ k, repr h k = true) kids.
Proof.
  intros H. unfold repr in H; fold repr in H.
  destruct (h !! a) as [c|]; [|done]. exists c.
  unfold mbind, option_bind in H.
  destruct (childrenOf c) as [es|]; [|done].
  apply andb_prop in H as [Hes Hk]. apply bool_decide_eq_true in Hes.
  subst es. split_and!; [done..|].
  apply Forall_forall. intros k Hk'. rewrite forallb_forall in Hk.
  by apply Hk, list_elem_of_In.
Qed.

Lemma root_in_preorder t : rootOf t ∈ preorder t.
Proof. destruct t; simpl. apply elem_of_cons; auto. Qed.

Lemma descendants_in_preorder t e : e ∈ descendants t → e ∈ preorder t.
Proof.
  destruct t as [a kids]. unfold descendants. simpl. intros He.
  apply elem_of_cons. by right.
Qed.

Section listings.
Context {V : Type}.
Variable dec : V → Expression → option V.

Lemma trav_in_preorder t : ∀ v e, e ∈ trav dec v t → e ∈ preorder t.
Proof.
  induction t as [a kids IH] using tree_kids_ind; intros v e; simpl.
  rewrite !elem_of_cons. intros [->|He]; [by left|right].
  destruct (dec v (ptr a)) as [w|]; [|by apply elem_of_nil in He].
  apply elem_of_flat_map in He as (k & Hk & He).
  apply elem_of_flat_map. exists k. split; [done|].
  rewrite Forall_forall in IH. by apply (IH k Hk w).
Qed.

Lemma trav_full t :
  (∀ v e, is_Some (dec v e)) → ∀ v, trav dec v t = preorder t.
Proof.
  intros Hfull. induction t as [a kids IH] using tree_kids_ind; intros v.
  simpl. f_equal.
  destruct (Hfull v (ptr a)) as [w ->].
  induction IH as [|k kids Hk _ IHk]; simpl; [done|]. by rewrite Hk, IHk.
Qed.

End listings.

(** ** Walking a tree with a visitor that only reads *)

Section readonly.
Context {V G : Type}.
Variable step :
  V → Expression → Expression → nat → gmap addr node * G
    → res (option V) * (gmap addr node * G).
Variable dec : V → Expression → option V.
Variable h : gmap addr node.
(** In the heap [h] the visitor answers [dec], leaves the heap as it is
    and may update its own state. *)
Hypothesis step_reads : ∀ v e p i g, ∃ g',
  step v e p i (h, g) = (Ok (dec v e), (h, g')).

Lemma rangeFrom_trav
    (body : Expression → nat → wstate G → res unit * wstate G)
    (lst : tree → list Expression) sel p c s :
  h !! p = Some c → sel c = Some s →
  ∀ ks, Forall (λ k, ∀ i tr g, ∃ g',
                  body (rootOf k) i (tr, (h, g))
                  = (Ok tt, (tr ++ lst k, (h, g')))) ks →
  ∀ pre, s = pre ++ map rootOf ks →
  ∀ tr g, ∃ g',
    rangeFrom body sel p (length pre) (map rootOf ks) (tr, (h, g))
    = (Ok tt, (tr ++ flat_map lst ks, (h, g'))).
Proof.
  intros Hp Hs ks Hks.
  induction Hks as [|k ks Hk _ IH]; intros pre Hpre tr g; simpl.
  - exists g. by rewrite app_nil_r.
  - rewrite (elemAt_stable sel h p c s (length pre) (rootOf k)); [|done..|].
    2:{ subst s. simpl. by rewrite list_lookup_middle. }
    destruct (Hk (length pre) tr g) as [g1 ->].
    destruct (IH (pre ++ [rootOf k])) with (tr := tr ++ lst k) (g := g1)
      as [g2 Hg2].
    { subst s. simpl. by rewrite <- app_assoc. }
    rewrite length_app in Hg2. simpl in Hg2.
    replace (length pre + 1) with (S (length pre)) in Hg2 by lia.
    exists g2. by rewrite Hg2, app_assoc.
Qed.

Lemma gwalk_trav t :
  repr h t = true →
  ∀ fuel, depth t ≤ fuel →
  ∀ v p i tr g, ∃ g',
    gwalk step fuel v (rootOf t) p i (tr, (h, g))
    = (Ok tt, (tr ++ trav dec v t, (h, g'))).
Proof.
  induction t as [a kids IH] using tree_kids_ind.
  intros Hr fuel Hf v p i tr g.
  destruct fuel as [|fuel]; [simpl in Hf; lia|].
  apply repr_inv in Hr as (c & Ha & Hc & Hkids).
  assert (IH' : Forall (λ k, ∀ v p i tr g, ∃ g',
      gwalk step fuel v (rootOf k) p i (tr, (h, g))
      = (Ok tt, (tr ++ trav dec v k, (h, g')))) kids).
  { rewrite Forall_forall in IH, Hkids. apply Forall_forall.
    intros k Hk. apply IH; [done|by apply Hkids|].
    pose proof (depth_kid k kids Hk). simpl in Hf. lia. }
  clear IH. simpl gwalk. simpl trav.
  destruct (step_reads v (ptr a) p i g) as [g1 ->].
  destruct (dec v (ptr a)) as [w|]; [|by exists g1].
  simpl. rewrite Ha. unfold childrenOf in Hc.
  destruct (shapeOf c) as [e|sel s| |] eqn:Hshape; [| | |done].
  - destruct kids as [|k [|]]; simplify_eq/=.
    apply Forall_inv in IH'.
    destruct (IH' w (ptr a) 0 (tr ++ [ptr a]) g1) as [g2 ->].
    exists g2. by rewrite app_nil_r, <- app_assoc.
  - simplify_eq/=.
    destruct (rangeFrom_trav (λ e i, gwalk step fuel w e (ptr a) i)
                (trav dec w) sel a c (map rootOf kids) Ha
                (shapeOf_Many _ _ _ Hshape) kids) with
      (pre := @nil Expression) (tr := tr ++ [ptr a]) (g := g1) as [g2 Hg2];
      [|done|].
    { eapply Forall_impl; [exact IH'|]. intros k Hk. apply Hk. }
    exists g2. simpl in Hg2. by rewrite Hg2, <- app_assoc.
  - destruct kids; simplify_eq/=. by exists g1.
Qed.
End readonly.

(** ** Walking a tree with a visitor that only reads, its state followed *)

Lemma kidsT_app {G : Type} (f : nat → tree → G → list Expression * G)
    (pre ks : list tree) :
  ∀ j g,
    kidsT f j (pre ++ ks) g
    = ((kidsT f j pre g).1
         ++ (kidsT f (j + length pre) ks (kidsT f j pre g).2).1,
       (kidsT f (j + length pre) ks (kidsT f j pre g).2).2).
Proof.
  induction pre as [|k pre IH]; intros j g.
  - simpl. rewrite Nat.add_0_r. by destruct (kidsT f j ks g).
  - cbn [app kidsT length]. rewrite IH. cbn [fst snd].
    replace (S j + length pre) with (j + S (length pre)) by lia.
    by rewrite app_assoc.
Qed.

Lemma kidsT_in_preorder {G : Type}
    (f : nat → tree → G → list Expression * G) (ks : list tree) :
  Forall (λ k, ∀ j g e, e ∈ (f j k g).1 → e ∈ preorder k) ks →
  ∀ j g e, e ∈ (kidsT f j ks g).1 → e ∈ flat_map preorder ks.
Proof.
  induction 1 as [|k ks Hk _ IH]; intros j g e; simpl.
  - by intros ?%elem_of_nil.
  - rewrite !elem_of_app. intros [He|He]; [left; by eapply Hk|right].
    by eapply IH.
Qed.

Section stateful_listings.
Context {V G : Type}.
Variable ans : V → Expression → Expression → nat → G → option V * G.

Lemma walkT_in_preorder t :
  ∀ v p i g e, e ∈ (walkT ans v p i t g).1 → e ∈ preorder t.
Proof.
  induction t as [a kids IH] using tree_kids_ind; intros v p i g e.
  cbn [walkT preorder].
  destruct (ans v (ptr a) p i g).1 as [w|]; cbn [fst].
  - rewrite !elem_of_cons. intros [->|He]; [by left|right].
    eapply kidsT_in_preorder; [|exact He].
    eapply Forall_impl; [exact IH|]. intros k Hk j g1 e1. apply Hk.
  - rewrite list_elem_of_singleton. intros ->. apply elem_of_cons. by left.
Qed.

Lemma arrives_in_preorder v p i t g N u pN iN gN :
  arrives ans v p i t g N u pN iN gN →
  ∀ e, e ∈ preorder N → e ∈ preorder t.
Proof.
  induction 1 as [|v p i a kids g w pre k post N u pN iN gN Hd -> _ IH];
    [done|].
  intros e He. simpl. apply elem_of_cons. right.
  apply elem_of_flat_map. exists k. split; [|by apply IH].
  apply elem_of_app. right. apply elem_of_cons. by left.
Qed.

Lemma arrives_visited v p i t g N u pN iN gN :
  arrives ans v p i t g N u pN iN gN →
  rootOf N ∈ (walkT ans v p i t g).1.
Proof.
  induction 1 as [v p i [a kids] g
                 |v p i a kids g w pre k post N u pN iN gN Hd -> _ IH].
  - cbn [walkT rootOf].
    destruct (ans v (ptr a) p i g).1; cbn [fst]; apply elem_of_cons; by left.
  - cbn [walkT]. rewrite Hd. cbn [fst]. apply elem_of_cons. right.
    rewrite kidsT_app. cbn [fst kidsT]. apply elem_of_app. right.
    apply elem_of_app. left. exact IH.
Qed.

Lemma arrives_step v p i t g P u pP iP gP w pre k post :
  arrives ans v p i t g P u pP iP gP →
  (ans u (rootOf P) pP iP gP).1 = Some w →
  kidsOf P = pre ++ k :: post →
  arrives ans v p i t g k w (rootOf P) (length pre)
    (kidsT (λ j k, walkT ans w (rootOf P) j k) 0 pre
       (ans u (rootOf P) pP iP gP).2).2.
Proof.
  induction 1 as [v p i [a kids] g
                 |v p i a kids g w' pre' k' post' N u pN iN gN Hd Hk _ IH];
    intros Hw Hkids.
  - simpl in *. eapply arrives_kid; [done..|]. constructor.
  - eapply arrives_kid; [done..|]. by apply IH.
Qed.

Lemma arrives_pruned v p i t g N u pN iN gN :
  arrives ans v p i t g N u pN iN gN →
  (ans u (rootOf N) pN iN gN).1 = None →
  NoDup (preorder t) →
  ∀ d, d ∈ descendants N → d ∉ (walkT ans v p i t g).1.
Proof.
  induction 1 as [v p i [a kids] g
                 |v p i a kids g w pre k post N u pN iN gN Hd -> Harr IH].
  - intros Hnone [Ha _]%NoDup_cons d Hdesc. unfold descendants in Hdesc.
    cbn [walkT rootOf kidsOf] in *. rewrite Hnone. cbn [fst].
    rewrite list_elem_of_singleton. by intros ->.
  - intros Hnone [Ha Hkids]%NoDup_cons d Hdesc.
    assert (Hdk : d ∈ preorder k).
    { eapply arrives_in_preorder; [done|].
      by apply descendants_in_preorder. }
    rewrite flat_map_app in Ha, Hkids. cbn [flat_map] in Ha, Hkids.
    apply NoDup_app in Hkids as (_ & Hpre & Hrest).
    apply NoDup_app in Hrest as (Hndk & Hpost & _).
    assert (Hall : ∀ ks, Forall (λ k0, ∀ j g0 e,
              e ∈ (walkT ans w (ptr a) j k0 g0).1 → e ∈ preorder k0) ks).
    { intros ks. apply Forall_forall. intros k0 _ j g0 e.
      apply walkT_in_preorder. }
    cbn [walkT]. rewrite Hd. cbn [fst]. rewrite kidsT_app. cbn [fst kidsT].
    rewrite elem_of_cons, !elem_of_app.
    intros [->|[Hin|[Hin|Hin]]].
    + apply Ha. apply elem_of_app. right. apply elem_of_app. by left.
    + apply (Hpre d); [|apply elem_of_app; by left].
      by eapply kidsT_in_preorder.
    + by apply (IH Hnone Hndk d).
    + apply (Hpost d Hdk). by eapply kidsT_in_preorder.
Qed.
End stateful_listings.

Section reading.
Context {V G : Type}.
Variable step :
  V → Expression → Expression → nat → gmap addr node * G
    → res (option V) * (gmap addr node * G).
Variable ans : V → Expression → Expression → nat → G → option V * G.
Variable h : gmap addr node.
(** In the heap [h] every call of the visitor returns and leaves the heap
    as it is; [ans] gives its answer and the state it leaves. *)
Hypothesis step_reads : ∀ v e p i g,
  step v e p i (h, g) = (Ok (ans v e p i g).1, (h, (ans v e p i g).2)).

Lemma rangeFrom_kidsT
    (body : Expression → nat → wstate G → res unit * wstate G)
    (f : nat → tree → G → list Expression * G) sel p c s :
  h !! p = Some c → sel c = Some s →
  ∀ ks, Forall (λ k, ∀ j tr g,
                  body (rootOf k) j (tr, (h, g))
                  = (Ok tt, (tr ++ (f j k g).1, (h, (f j k g).2)))) ks →
  ∀ pre, s = pre ++ map rootOf ks →
  ∀ tr g,
    rangeFrom body sel p (length pre) (map rootOf ks) (tr, (h, g))
    = (Ok tt, (tr ++ (kidsT f (length pre) ks g).1,
               (h, (kidsT f (length pre) ks g).2))).
Proof.
  intros Hp Hs ks Hks.
  induction Hks as [|k ks Hk _ IH]; intros pre Hpre tr g; simpl.
  - by rewrite app_nil_r.
  - rewrite (elemAt_stable sel h p c s (length pre) (rootOf k)); [|done..|].
    2:{ subst s. simpl. by rewrite list_lookup_middle. }
    rewrite Hk.
    specialize (IH (pre ++ [rootOf k])).
    rewrite length_app in IH. simpl in IH.
    replace (length pre + 1) with (S (length pre)) in IH by lia.
    rewrite IH; [by rewrite app_assoc|].
    subst s. by rewrite <- app_assoc.
Qed.

Lemma gwalk_walkT t :
  repr h t = true →
  ∀ fuel, depth t ≤ fuel →
  ∀ v p i tr g,
    gwalk step fuel v (rootOf t) p i (tr, (h, g))
    = (Ok tt, (tr ++ (walkT ans v p i t g).1, (h, (walkT ans v p i t g).2))).
Proof.
  induction t as [a kids IH] using tree_kids_ind.
  intros Hr fuel Hf v p i tr g.
  destruct fuel as [|fuel]; [simpl in Hf; lia|].
  apply repr_inv in Hr as (c & Ha & Hc & Hkids).
  assert (IH' : Forall (λ k, ∀ v p i tr g,
      gwalk step fuel v (rootOf k) p i (tr, (h, g))
      = (Ok tt, (tr ++ (walkT ans v p i k g).1,
                 (h, (walkT ans v p i k g).2)))) kids).
  { rewrite Forall_forall in IH, Hkids. apply Forall_forall.
    intros k Hk. apply IH; [done|by apply Hkids|].
    pose proof (depth_kid k kids Hk). simpl in Hf. lia. }
  clear IH. cbn [gwalk rootOf walkT fst snd]. rewrite step_reads.
  destruct (ans v (ptr a) p i g) as [[w|] g1]; cbn [fst snd]; [|done].
  rewrite Ha. unfold childrenOf in Hc.
  destruct (shapeOf c) as [e|sel s| |] eqn:Hshape; [| | |done].
  - destruct kids as [|k [|]]; simplify_eq/=.
    apply Forall_inv in IH'. rewrite IH'.
    by rewrite app_nil_r, <- app_assoc.
  - simplify_eq/=.
    rewrite (rangeFrom_kidsT (λ e i, gwalk step fuel w e (ptr a) i)
               (λ j k, walkT ans w (ptr a) j k) sel a c (map rootOf kids) Ha
               (shapeOf_Many _ _ _ Hshape) kids) with (pre := @nil Expression);
      [|by (eapply Forall_impl; [exact IH'|]; intros k Hk; apply Hk)|done].
    simpl. by rewrite <- app_assoc.
  - destruct kids; simplify_eq/=. done.
Qed.
End reading.

Lemma answerOf_reads {V G : Type}
    (Visit : V → Expression → BackrefWalk.Backref → gmap addr node * G
               → res (option V) * (gmap addr node * G))
    (h : gmap addr node) :
  (∀ v e br g, ∃ o g', Visit v e br (h, g) = (Ok o, (h, g'))) →
  ∀ v e p i g,
    backrefStep Visit v e p i (h, g)
    = (Ok (answerOf Visit h v e p i g).1, (h, (answerOf Visit h v e p i g).2)).
Proof.
  intros Hread v e p i g. unfold backrefStep, answerOf. simpl.
  by destruct (Hread v e (BackrefWalk.mkBackref p (replacerOf h p i)) g)
    as (o & g' & ->).
Qed.

Lemma answerPlain_reads {V G : Type}
    (Visit : V → Expression → gmap addr node * G
               → res (option V) * (gmap addr node * G))
    (h : gmap addr node) :
  (∀ v e g, ∃ o g', Visit v e (h, g) = (Ok o, (h, g'))) →
  ∀ v e p i g,
    plainStep Visit v e p i (h, g)
    = (Ok (answerPlain Visit h v e p i g).1,
       (h, (answerPlain Visit h v e p i g).2)).
Proof.
  intros Hread v e p i g. unfold plainStep, answerPlain.
  by destruct (Hread v e g) as (o & g' & ->).
Qed.

Lemma answerReplacer_reads {R G : Type}
    (VisitReplace : R → Expression → replacerFn → gmap addr node * G
                      → res (option R) * (gmap addr node * G))
    (h : gmap addr node) :
  (∀ r e repl g, ∃ o g', VisitReplace r e repl (h, g) = (Ok o, (h, g'))) →
  ∀ r e p i g,
    replacerStep VisitReplace r e p i (h, g)
    = (Ok (answerReplacer VisitReplace h r e p i g).1,
       (h, (answerReplacer VisitReplace h r e p i g).2)).
Proof.
  intros Hread r e p i g. unfold replacerStep, answerReplacer. simpl.
  by destruct (Hread r e (replacerOf h p i) g) as (o & g' & ->).
Qed.

(** C4: traversal is pre-order and follows the declared child order.  For
    a tree held in the heap and a visitor that only reads and continues
    everywhere, [Walk] returns and its visits are the pre-order listing of
    the tree: each node, then its subtrees from the first child to the
    last (for Alternatives [A; B; C] all of [A], then [B], then [C]; for
    Exprs [X; Y] all of [X], then [Y]).  The listing depends on the tree
    only, not on the fuel or on the visitor's state: every run over the
    same tree gives the same order. *)
Theorem Walk_is_preorder {V G : Type}
    (Visit : V → Expression → BackrefWalk.Backref → gmap addr node * G
               → res (option V) * (gmap addr node * G))
    (dec : V → Expression → option V) (h : gmap addr node) :
  (∀ v e br g, ∃ g', Visit v e br (h, g) = (Ok (dec v e), (h, g'))) →
  (∀ v e, is_Some (dec v e)) →
  ∀ t, repr h t = true →
  ∀ fuel, depth t ≤ fuel →
  ∀ v tr g, ∃ g',
    BackrefWalk.Walk Visit fuel v (rootOf t) (tr, (h, g))
    = (Ok tt, (tr ++ preorder t, (h, g'))).
Proof.
  intros Hread Hfull t Hr fuel Hf v tr g.
  unfold BackrefWalk.Walk. rewrite walk0_gwalk.
  rewrite <- (trav_full dec t Hfull v).
  apply gwalk_trav; [|done..].
  intros v1 e p i g1. apply Hread.
Qed.

Lemma Walk_is_preorder_witness :
  ∃ g', BackrefWalk.Walk visitAll 5 tt (ptr 0) ([], (heapGrammar, tt))
        = (Ok tt, ([] ++ [ptr 0; ptr 1; ptr 2; ptr 5; ptr 6; ptr 7;
                          ptr 3; ptr 4; ptr 8; ptr 9], (heapGrammar, g'))).
Proof.
  apply (Walk_is_preorder visitAll (λ _ _, Some tt) heapGrammar
           ltac:(intros; eexists; reflexivity)
           ltac:(intros; eexists; reflexivity)
           treeGrammar ltac:(vm_compute; reflexivity)
           5 ltac:(vm_compute; lia) tt [] tt).
Defined.

(** C5: pruning skips a subtree and nothing else.  For a tree with
    distinct nodes held in the heap and a visitor that only reads - its
    answers may depend on the node, on the back-reference and on its own
    state, so on the calls made before - [Walk] returns, and: when the
    call of [Visit] at a node [N] the walk gets to returns nil, no node
    below [N] is visited; every node the walk gets to - every node at all
    of whose ancestors the visitor continued - is visited, whatever the
    visitor answered at the nodes that are not its ancestors; in
    particular all children of a node at which the visitor continues are
    visited, also those that come after a pruned sibling. *)
Theorem pruning_skips_the_subtree_only {V G : Type}
    (Visit : V → Expression → BackrefWalk.Backref → gmap addr node * G
               → res (option V) * (gmap addr node * G))
    (h : gmap addr node) :
  (∀ v e br g, ∃ o g', Visit v e br (h, g) = (Ok o, (h, g'))) →
  ∀ t, repr h t = true → NoDup (preorder t) →
  ∀ fuel, depth t ≤ fuel →
  ∀ v tr g, ∃ log g',
    BackrefWalk.Walk Visit fuel v (rootOf t) (tr, (h, g))
      = (Ok tt, (tr ++ log, (h, g')))
    ∧ (∀ N u pN iN gN,
         arrives (answerOf Visit h) v nilExpr 0 t g N u pN iN gN →
         (Visit u (rootOf N)
            (BackrefWalk.mkBackref pN (replacerOf h pN iN)) (h, gN)).1
           = Ok None →
         ∀ d, d ∈ descendants N → d ∉ log)
    ∧ (∀ x u px ix gx,
         arrives (answerOf Visit h) v nilExpr 0 t g x u px ix gx →
         rootOf x ∈ log)
    ∧ (∀ P u pP iP gP w k,
         arrives (answerOf Visit h) v nilExpr 0 t g P u pP iP gP →
         (Visit u (rootOf P)
            (BackrefWalk.mkBackref pP (replacerOf h pP iP)) (h, gP)).1
           = Ok (Some w) →
         k ∈ kidsOf P → rootOf k ∈ log).
Proof.
  intros Hread t Hr Hnd fuel Hf v tr g.
  exists (walkT (answerOf Visit h) v nilExpr 0 t g).1,
         (walkT (answerOf Visit h) v nilExpr 0 t g).2.
  split_and!.
  - unfold BackrefWalk.Walk. rewrite walk0_gwalk.
    apply (gwalk_walkT (backrefStep Visit) (answerOf Visit h) h
             (answerOf_reads Visit h Hread) t Hr fuel Hf).
  - intros N u pN iN gN HN Hnone d Hd.
    apply (arrives_pruned (answerOf Visit h) v nilExpr 0 t g N u pN iN gN);
      [done| |done..].
    unfold answerOf. destruct (Visit u (rootOf N) _ (h, gN)) as [r w0].
    simpl in Hnone. by subst r.
  - intros x u px ix gx Hx. by eapply arrives_visited.
  - intros P u pP iP gP w k HP Hw Hk.
    apply list_elem_of_split in Hk as (pre & post & Hk).
    eapply arrives_visited. eapply arrives_step; [exact HP| |exact Hk].
    unfold answerOf. destruct (Visit u (rootOf P) _ (h, gP)) as [r w0].
    simpl in Hw. by subst r.
Qed.

Lemma pruning_skips_the_subtree_only_witness :
  ∃ log g',
    BackrefWalk.Walk secondCallStops 5 tt (ptr 0) ([], (heapGrammar, 0))
      = (Ok tt, ([] ++ log, (heapGrammar, g')))
    ∧ (∀ N u pN iN gN,
         arrives (answerOf secondCallStops heapGrammar) tt nilExpr 0
           treeGrammar 0 N u pN iN gN →
         (secondCallStops u (rootOf N)
            (BackrefWalk.mkBackref pN (replacerOf heapGrammar pN iN))
            (heapGrammar, gN)).1 = Ok None →
         ∀ d, d ∈ descendants N → d ∉ log)
    ∧ (∀ x u px ix gx,
         arrives (answerOf secondCallStops heapGrammar) tt nilExpr 0
           treeGrammar 0 x u px ix gx →
         rootOf x ∈ log)
    ∧ (∀ P u pP iP gP w k,
         arrives (answerOf secondCallStops heapGrammar) tt nilExpr 0
           treeGrammar 0 P u pP iP gP →
         (secondCallStops u (rootOf P)
            (BackrefWalk.mkBackref pP (replacerOf heapGrammar pP iP))
            (heapGrammar, gP)).1 = Ok (Some w) →
         k ∈ kidsOf P → rootOf k ∈ log).
Proof.
  apply (pruning_skips_the_subtree_only secondCallStops heapGrammar
           ltac:(intros; eexists _, _; reflexivity)
           treeGrammar ltac:(vm_compute; reflexivity)
           ltac:(apply (bool_decide_unpack _); vm_compute; exact I)
           5 ltac:(vm_compute; lia) tt [] 0).
Defined.

(** The visitor that stops at its second call prunes the first Rule of
    the Grammar - the node of that call - and goes on with the second
    Rule and all below it. *)
Example second_call_prunes_the_first_rule :
  BackrefWalk.Walk secondCallStops 5 tt (ptr 0) ([], (heapGrammar, 0))
  = (Ok tt, ([ptr 0; ptr 1; ptr 3; ptr 4; ptr 8; ptr 9], (heapGrammar, 6))).
Proof. vm_compute. reflexivity. Qed.

Example pruned_walk_visits :
  (BackrefWalk.Walk countingVisit 5 0 (ptr 0) ([], (heapGrammar, tt))).2.1
  = [ptr 0; ptr 1; ptr 2; ptr 3; ptr 4; ptr 8; ptr 9].
Proof. vm_compute. reflexivity. Qed.

(** ** A call that does not return ends the walk *)

Section abort.
Context {V G : Type}.
Variable step :
  V → Expression → Expression → nat → gmap addr node * G
    → res (option V) * (gmap addr node * G).

Lemma iterates_abort
    (body : Expression → nat → wstate G → res unit * wstate G)
    sel p i snap st j e st' r s :
  iterates body sel p i snap st j e st' →
  body e j st' = (r, s) → r ≠ Ok tt →
  rangeFrom body sel p i snap st = (r, s).
Proof.
  induction 1 as [i e0 snap st|i e0 snap st st1 j e st' Hb _ IH];
    intros Hr Hbad; simpl.
  - rewrite Hr. destruct r as [[]| |]; done.
  - rewrite Hb. by apply IH.
Qed.

Lemma subcall_abort outer inner r s :
  subcall step outer inner →
  run step inner = (r, s) → r ≠ Ok tt →
  run step outer = (r, s).
Proof.
  induction 1 as [|fuel v expr p i st v' w a c e inner Hs -> Ha Hc _ IH
                  |fuel v expr p i st v' w a c sel s0 j e st' inner
                     Hs -> Ha Hc Hit _ IH]; intros Hr Hbad; [done| |].
  - specialize (IH Hr Hbad). unfold run in *. simpl in *.
    by rewrite Hs, Ha, Hc.
  - specialize (IH Hr Hbad). unfold run in *. simpl in *.
    rewrite Hs, Ha, Hc. by eapply iterates_abort.
Qed.
End abort.

(** C7 (as the code has it): an expression outside the taxonomy aborts
    the walk when the visitor continues at it.  If, in the course of a
    walk, the walker visits an expression that is nil or of a foreign type
    and the visitor returns a continuation, then [Walk] as a whole panics
    with the unknown-expression fault, and its final state is the one
    right after that visit: the node is the last one visited.  The node is
    visited before its type is looked at: when the visitor returns nil for
    it, the call returns without a fault. *)
Theorem unknown_node_aborts_when_continued {V G : Type}
    (Visit : V → Expression → BackrefWalk.Backref → gmap addr node * G
               → res (option V) * (gmap addr node * G))
    (fuel : nat) (v : V) (root : Expression) (st : wstate G)
    (n : nat) (u : V) (e parent0 : Expression) (i : nat) (st' : wstate G)
    (o : option V) (w : gmap addr node * G) :
  subcall (backrefStep Visit) (mkCall fuel v root nilExpr 0 st)
    (mkCall (S n) u e parent0 i st') →
  Visit u e (BackrefWalk.mkBackref parent0 (replacerOf st'.2.1 parent0 i)) st'.2
    = (Ok o, w) →
  unknownIn w.1 e →
  match o with
  | Some _ =>
      BackrefWalk.Walk Visit fuel v root st
      = (Panic UnknownExpressionType, (st'.1 ++ [e], w))
  | None =>
      BackrefWalk.walk0 Visit (S n) u e parent0 i st'
      = (Ok tt, (st'.1 ++ [e], w))
  end.
Proof.
  intros Hsub Hvisit Hunk. destruct o as [u'|].
  - unfold BackrefWalk.Walk. rewrite walk0_gwalk.
    apply (subcall_abort _ _ _ _ _ Hsub); [|done].
    unfold run. simpl. unfold backrefStep at 1. rewrite Hvisit.
    destruct e as [|a]; [done|]. simpl in Hunk. by rewrite Hunk.
  - simpl. by rewrite Hvisit.
Qed.

Lemma unknown_node_aborts_when_continued_witness :
  BackrefWalk.Walk visitAll 3 tt (ptr 0) ([], (heapForeign, tt))
  = (Panic UnknownExpressionType, ([ptr 0] ++ [ptr 1], (heapForeign, tt))).
Proof.
  apply (unknown_node_aborts_when_continued visitAll 3 tt (ptr 0)
           ([], (heapForeign, tt)) 1 tt (ptr 1) (ptr 0) 0
           ([ptr 0], (heapForeign, tt)) (Some tt) (heapForeign, tt)).
  - apply (subcall_many (backrefStep visitAll) 2 tt (ptr 0) nilExpr 0
             ([], (heapForeign, tt)) tt (heapForeign, tt) 0
             (SeqExpr [ptr 1; ptr 2]) selExprs [ptr 1; ptr 2] 0 (ptr 1)
             ([ptr 0], (heapForeign, tt)));
      [reflexivity..| |apply subcall_here].
    apply (iterates_here _ selExprs 0 0 (ptr 1) [ptr 2]
             ([ptr 0], (heapForeign, tt))).
  - reflexivity.
  - reflexivity.
Defined.

(** The claim C7 as stated fails: a visitor that returns nil at a node of
    a foreign type makes the walker skip it without a fault and go on to
    its sibling. *)
Lemma unknown_node_skipped_when_pruned :
  heapForeign !! 1 = Some ForeignExpr ∧
  BackrefWalk.Walk skipUnknown 3 tt (ptr 0) ([], (heapForeign, tt))
  = (Ok tt, ([ptr 0; ptr 1; ptr 2], (heapForeign, tt))).
Proof. split; vm_compute; reflexivity. Qed.

(** C1: the walker never calls [Visit(nil)] after the children of a node,
    in either variant, although the comments of [Visitor] and [Walk]
    promise that call.  On a OneOrMoreExpr over a LitMatcher, with a
    visitor that continues everywhere, the visits are those of the two
    nodes and nothing else; with the promised calls they would be
    [ptr 0; ptr 1; nilExpr; nilExpr]. *)
Theorem no_Visit_nil_after_children :
  BackrefWalk.Walk visitAll 3 tt (ptr 0) ([], (heapRepeat, tt))
    = (Ok tt, ([ptr 0; ptr 1], (heapRepeat, tt)))
  ∧ UpgradeWalk.Walk plainAll replacerAll (λ _, None) 3 tt (ptr 0)
      ([], (heapRepeat, tt))
    = (Ok tt, ([ptr 0; ptr 1], (heapRepeat, tt)))
  ∧ UpgradeWalk.Walk plainAll replacerAll (λ _, Some tt) 3 tt (ptr 0)
      ([], (heapRepeat, tt))
    = (Ok tt, ([ptr 0; ptr 1], (heapRepeat, tt))).
Proof. split_and!; vm_compute; reflexivity. Qed.





(** * Further properties of the replacers and the walkers *)

(** ** What a replacer writes *)

Lemma tagOf_set_slot (mk : list Expression → node) s i e :
  (∀ s1 s2, length s1 = length s2 → tagOf (mk s1) = tagOf (mk s2)) →
  tagOf (mk (<[i := e]> s)) = tagOf (mk s).
Proof. intros H. apply H. apply length_insert. Qed.

Lemma replacerOf_writes
    (h : gmap addr node) (p : addr) (c : node) (es : list Expression)
    (i : nat) (e : Expression) :
  h !! p = Some c →
  childrenOf c = Some es →
  i < length es →
  (∀ s, c = Grammar s → isRule h e = true) →
  ∃ c', replacerOf h (ptr p) i e h = (Ok tt, <[p := c']> h)
        ∧ childrenOf c' = Some (<[i := e]> es)
        ∧ tagOf c' = tagOf c.
Proof.
  intros Hp Hc Hi Hrule. simpl. rewrite Hp.
  destruct c; simpl in Hc; try discriminate Hc;
    injection Hc as <-; simpl in Hi;
    try (destruct i; [|lia]; eexists; split_and!; reflexivity);
    try lia.
  - unfold setAlternative, setIndex. rewrite Hp, decide_True by done.
    eexists. split_and!; [reflexivity..|]. simpl. by rewrite length_insert.
  - unfold setRule, setIndex. rewrite (Hrule _ eq_refl), Hp.
    rewrite decide_True by done.
    eexists. split_and!; [reflexivity..|]. simpl. by rewrite length_insert.
  - unfold setSeqElem, setIndex. rewrite Hp, decide_True by done.
    eexists. split_and!; [reflexivity..|]. simpl. by rewrite length_insert.
Qed.

(** X1: the replacer handed with a child writes the slot the child was
    read from.  For a parent of the taxonomy with children [es] and an
    index within them, applied in the heap it was built in to any
    expression (a [*Rule] when the parent is a Grammar), the replacer
    returns; the only cell that changes is the parent's, which keeps its
    kind and has the children [es] with [e] at the index. *)
Theorem replacer_writes_the_slot
    (h : gmap addr node) (p : addr) (c : node) (es : list Expression)
    (i : nat) (e : Expression) :
  h !! p = Some c →
  childrenOf c = Some es →
  i < length es →
  (∀ s, c = Grammar s → isRule h e = true) →
  ∃ c', replacerOf h (ptr p) i e h = (Ok tt, <[p := c']> h)
        ∧ childrenOf c' = Some (<[i := e]> es)
        ∧ tagOf c' = tagOf c.
Proof. apply replacerOf_writes. Qed.

Lemma replacer_writes_the_slot_witness :
  ∃ c', replacerOf heapGrammar (ptr 2) 1 nilExpr heapGrammar
          = (Ok tt, <[2 := c']> heapGrammar)
        ∧ childrenOf c' = Some (<[1 := nilExpr]> [ptr 5; ptr 6; ptr 7])
        ∧ tagOf c' = tagOf (ChoiceExpr [ptr 5; ptr 6; ptr 7]).
Proof.
  apply (replacer_writes_the_slot heapGrammar 2
           (ChoiceExpr [ptr 5; ptr 6; ptr 7]) [ptr 5; ptr 6; ptr 7] 1 nilExpr
           ltac:(reflexivity) ltac:(reflexivity) ltac:(simpl; lia)).
  intros s Hs. discriminate Hs.
Defined.

Lemma replacerOf_cases (h0 : gmap addr node) (parent0 : Expression) (i : nat) :
  replacerOf h0 parent0 i = noopReplacer
  ∨ replacerOf h0 parent0 i = nilReplacer
  ∨ ∃ p, parent0 = ptr p ∧
      ((∃ mk e0, h0 !! p = Some (mk e0)
                 ∧ (∀ e, tagOf (mk e) = tagOf (mk e0) ∧ shapeOf (mk e) = Single e)
                 ∧ replacerOf h0 parent0 i = setExpr p mk)
       ∨ (∃ s0, h0 !! p = Some (ChoiceExpr s0)
                ∧ replacerOf h0 parent0 i = setAlternative p i)
       ∨ (∃ s0, h0 !! p = Some (Grammar s0)
                ∧ replacerOf h0 parent0 i = setRule p i)
       ∨ (∃ s0, h0 !! p = Some (SeqExpr s0)
                ∧ replacerOf h0 parent0 i = setSeqElem p i)).
Proof.
  destruct parent0 as [|p]; [by left|]. simpl.
  destruct (h0 !! p) as [c|] eqn:Hp; [|by right; left].
  destruct c as [e0| |e0| | |s0|s0|e0| | |e0|e0|e0| |s0| |e0|e0|];
    try (by right; left); right; right; exists p; (split; [done|]);
    first [ by right; left; exists s0
          | by right; right; left; exists s0
          | by right; right; right; exists s0
          | left ].
  - exists ActionExpr, e0. by split_and!.
  - exists AndExpr, e0. by split_and!.
  - exists LabeledExpr, e0. by split_and!.
  - exists NotExpr, e0. by split_and!.
  - exists OneOrMoreExpr, e0. by split_and!.
  - exists Rule, e0. by split_and!.
  - exists ZeroOrMoreExpr, e0. by split_and!.
  - exists ZeroOrOneExpr, e0. by split_and!.
Qed.

Lemma replacerOf_props
    (h0 h : gmap addr node) (parent0 : Expression) (i : nat) (e : Expression) :
  (replacerOf h0 parent0 i e h).1 ≠ OutOfFuel
  ∧ (∀ q, (replacerOf h0 parent0 i e h).1 = Panic q →
          (replacerOf h0 parent0 i e h).2 = h)
  ∧ (∀ a, parent0 ≠ ptr a → (replacerOf h0 parent0 i e h).2 !! a = h !! a)
  ∧ ((∀ p, parent0 = ptr p → tagOf <$> h0 !! p = tagOf <$> h !! p) →
     tagOf <$> (replacerOf h0 parent0 i e h).2 = tagOf <$> h).
Proof.
  destruct (replacerOf_cases h0 parent0 i)
    as [->|[->|(p & -> & [(mk & e0 & H0 & Hmk & ->)|[(s0 & H0 & ->)|
        [(s0 & H0 & ->)|(s0 & H0 & ->)]]])]]; try by (split_and!; intros; done).
  - unfold setExpr. simpl. split_and!; [done..| |].
    + intros a Ha. apply lookup_insert_ne. congruence.
    + intros Ht. specialize (Ht p eq_refl). rewrite H0 in Ht. simpl in Ht.
      rewrite fmap_insert. apply insert_id. rewrite lookup_fmap, <- Ht.
      simpl. by rewrite (proj1 (Hmk e)).
  - unfold setAlternative, setIndex.
    destruct (h !! p) as [c|] eqn:Hp; [|by split_and!; intros; done].
    destruct c; try by (split_and!; intros; done).
    case_decide; [|by split_and!; intros; done].
    simpl. split_and!; [done..| |].
    + intros a Ha. apply lookup_insert_ne. congruence.
    + intros _. rewrite fmap_insert. apply insert_id.
      rewrite lookup_fmap, Hp. simpl. by rewrite length_insert.
  - unfold setRule, setIndex.
    destruct (isRule h e); [|by split_and!; intros; done].
    destruct (h !! p) as [c|] eqn:Hp; [|by split_and!; intros; done].
    destruct c; try by (split_and!; intros; done).
    case_decide; [|by split_and!; intros; done].
    simpl. split_and!; [done..| |].
    + intros a Ha. apply lookup_insert_ne. congruence.
    + intros _. rewrite fmap_insert. apply insert_id.
      rewrite lookup_fmap, Hp. simpl. by rewrite length_insert.
  - unfold setSeqElem, setIndex.
    destruct (h !! p) as [c|] eqn:Hp; [|by split_and!; intros; done].
    destruct c; try by (split_and!; intros; done).
    case_decide; [|by split_and!; intros; done].
    simpl. split_and!; [done..| |].
    + intros a Ha. apply lookup_insert_ne. congruence.
    + intros _. rewrite fmap_insert. apply insert_id.
      rewrite lookup_fmap, Hp. simpl. by rewrite length_insert.
Qed.

(** X2: a replacer is atomic and local.  Whatever heap it was built in
    and whatever heap it is applied in, it returns or panics; when it
    panics the heap is as before; it never changes a cell other than the
    parent's; and if the parent has in the heap of the call the kind and
    arity it had when the replacer was built, every cell keeps its kind
    and arity. *)
Theorem replacer_is_atomic_and_local
    (h0 h : gmap addr node) (parent0 : Expression) (i : nat) (e : Expression) :
  (replacerOf h0 parent0 i e h).1 ≠ OutOfFuel
  ∧ (∀ q, (replacerOf h0 parent0 i e h).1 = Panic q →
          (replacerOf h0 parent0 i e h).2 = h)
  ∧ (∀ a, parent0 ≠ ptr a → (replacerOf h0 parent0 i e h).2 !! a = h !! a)
  ∧ ((∀ p, parent0 = ptr p → tagOf <$> h0 !! p = tagOf <$> h !! p) →
     tagOf <$> (replacerOf h0 parent0 i e h).2 = tagOf <$> h).
Proof. apply replacerOf_props. Qed.

(** X3: the last write wins.  Of two calls of one replacer that both
    succeed when made in the heap the replacer was built in, making the
    second after the first leaves the heap that the second alone leaves. *)
Theorem last_write_wins
    (h : gmap addr node) (parent0 : Expression) (i : nat)
    (e1 e2 : Expression) (h1 h2 : gmap addr node) :
  replacerOf h parent0 i e1 h = (Ok tt, h1) →
  replacerOf h parent0 i e2 h = (Ok tt, h2) →
  replacerOf h parent0 i e2 h1 = (Ok tt, h2).
Proof.
  destruct (replacerOf_cases h parent0 i)
    as [->|[->|(p & -> & [(mk & e0 & H0 & Hmk & ->)|[(s0 & H0 & ->)|
        [(s0 & H0 & ->)|(s0 & H0 & ->)]]])]].
  - unfold noopReplacer. by intros [= <-] [= <-].
  - by intros [=].
  - unfold setExpr. intros [= <-] [= <-]. by rewrite insert_insert_eq.
  - unfold setAlternative, setIndex. rewrite H0.
    case_decide; [|by intros [=]]. intros [= <-] [= <-].
    rewrite lookup_insert_eq, length_insert, decide_True by done.
    by rewrite list_insert_insert_eq, insert_insert_eq.
  - unfold setRule, setIndex. rewrite H0.
    destruct (isRule h e1); [|by intros [=]].
    destruct (isRule h e2) eqn:He2; [|by intros _ [=]].
    case_decide; [|by intros [=]]. intros [= <-] [= <-].
    assert (isRule (<[p:=Grammar (<[i:=e1]> s0)]> h) e2 = true) as ->.
    { destruct e2 as [|r]; [done|]. simpl in *.
      destruct (decide (r = p)) as [->|Hne]; [by rewrite H0 in He2|].
      by rewrite lookup_insert_ne. }
    rewrite lookup_insert_eq, length_insert, decide_True by done.
    by rewrite list_insert_insert_eq, insert_insert_eq.
  - unfold setSeqElem, setIndex. rewrite H0.
    case_decide; [|by intros [=]]. intros [= <-] [= <-].
    rewrite lookup_insert_eq, length_insert, decide_True by done.
    by rewrite list_insert_insert_eq, insert_insert_eq.
Qed.

Lemma last_write_wins_witness :
  replacerOf heapGrammar (ptr 0) 1 (ptr 3)
    (<[0 := Grammar [ptr 1; ptr 1]]> heapGrammar)
  = (Ok tt, <[0 := Grammar [ptr 1; ptr 3]]> heapGrammar).
Proof.
  apply (last_write_wins heapGrammar (ptr 0) 1 (ptr 1) (ptr 3)
           (<[0 := Grammar [ptr 1; ptr 1]]> heapGrammar)
           (<[0 := Grammar [ptr 1; ptr 3]]> heapGrammar));
    vm_compute; reflexivity.
Defined.

(** ** Visitors that write through the replacer only *)

Lemma tagOf_children c c' es :
  tagOf c = tagOf c' → childrenOf c = Some es →
  ∃ es', childrenOf c' = Some es' ∧ length es' = length es.
Proof.
  intros Ht Hc. unfold childrenOf in *.
  destruct c, c'; simpl in *; try discriminate; simplify_eq/=;
    try (eexists; split; [reflexivity|]; simpl; try done;
         by apply (f_equal length) in Ht; rewrite !length_replicate in Ht).
Qed.

Lemma tagOf_isRule (h h' : gmap addr node) e :
  tagOf <$> h = tagOf <$> h' → isRule h e = isRule h' e.
Proof.
  intros Ht. destruct e as [|r]; [done|]. simpl.
  assert (Hr : tagOf <$> h !! r = tagOf <$> h' !! r)
    by (by rewrite <- !lookup_fmap, Ht).
  destruct (h !! r) as [c|], (h' !! r) as [c'|]; simpl in Hr; try done;
    injection Hr as Hr; destruct c, c'; simpl in *; done.
Qed.

Lemma validSlot_tags (h h' : gmap addr node) parent0 i :
  tagOf <$> h = tagOf <$> h' → validSlot h parent0 i → validSlot h' parent0 i.
Proof.
  intros Ht. destruct parent0 as [|p]; [done|]. simpl.
  intros (c & es & Hp & Hc & Hi).
  assert (Hr : tagOf <$> h !! p = tagOf <$> h' !! p)
    by (by rewrite <- !lookup_fmap, Ht).
  rewrite Hp in Hr. destruct (h' !! p) as [c'|]; [|done].
  injection Hr as Hr.
  destruct (tagOf_children c c' es Hr Hc) as (es' & Hc' & Hlen).
  exists c', es'. split_and!; [done..|lia].
Qed.

Lemma applyAll_tags (h0 : gmap addr node) parent0 i es :
  ∀ h, tagOf <$> h = tagOf <$> h0 →
       tagOf <$> (applyAll (replacerOf h0 parent0 i) es h).2 = tagOf <$> h0.
Proof.
  induction es as [|e es IH]; intros h Ht; simpl; [done|].
  pose proof (replacerOf_props h0 h parent0 i e) as (_ & _ & _ & Htag).
  assert (H1 : tagOf <$> (replacerOf h0 parent0 i e h).2 = tagOf <$> h0).
  { rewrite Htag; [done|]. intros p _. by rewrite <- !lookup_fmap, Ht. }
  destruct (replacerOf h0 parent0 i e h) as [[[]| |] h1]; simpl in *;
    [by apply IH|done..].
Qed.

Lemma scripted_step_tags {V G : Type}
    (script : V → Expression → gmap addr node → G
                → list Expression * option V * G) v e p i w :
  tagOf <$> (backrefStep (scripted script) v e p i w).2.1 = tagOf <$> w.1.
Proof.
  unfold backrefStep, scripted. simpl.
  pose proof (applyAll_tags w.1 p i (script v e w.1 w.2).1.1 w.1 eq_refl) as H.
  by destruct (applyAll _ _ _) as [[[]| |] h1].
Qed.

(** X4: a visitor that writes the tree through its replacer only cannot
    change the kind or the number of children of any node, and neither
    creates nor removes nodes: after [Walk], whatever its outcome, every
    address holds a node of the kind and arity it held before. *)
Theorem replacing_keeps_kinds_and_arities {V G : Type}
    (script : V → Expression → gmap addr node → G
                → list Expression * option V * G)
    (fuel : nat) (v : V) (root : Expression) (st : wstate G) :
  tagOf <$> (BackrefWalk.Walk (scripted script) fuel v root st).2.2.1
  = tagOf <$> st.2.1.
Proof.
  unfold BackrefWalk.Walk. rewrite walk0_gwalk.
  apply (gwalk_frame _ (λ w, tagOf <$> w.1)).
  intros. apply scripted_step_tags.
Qed.

Lemma gwalk_invariant {V G : Type}
    (step : V → Expression → Expression → nat → gmap addr node * G
              → res (option V) * (gmap addr node * G))
    (I : gmap addr node * G → Prop) :
  (∀ v e p i w, I w → I (step v e p i w).2) →
  ∀ fuel v e p i st, I st.2 → I (gwalk step fuel v e p i st).2.2.
Proof.
  intros Hstep. induction fuel as [|fuel IH]; intros v e p i st HI; [done|].
  simpl. pose proof (Hstep v e p i st.2 HI) as Hs.
  destruct (step v e p i st.2) as [[[v'|]| |] w]; simpl in *; try done.
  destruct e as [|a]; [done|].
  destruct (w.1 !! a) as [c|]; [|done].
  destruct (shapeOf c) as [e1|sel s| |]; simpl; try done.
  - by apply IH.
  - generalize 0 (st.1 ++ [ptr a], w) (Hs : I (st.1 ++ [ptr a], w).2).
    induction s as [|e0 s IHs]; intros j st1 H1; simpl; [done|].
    pose proof (IH v' (elemAt sel st1.2.1 a j e0) (ptr a) j st1 H1) as Hb.
    destruct (gwalk step fuel v' _ (ptr a) j st1) as [[[]| |] st2];
      simpl in *; try done. by apply IHs.
Qed.

Lemma grammarTyped_tags (h h' : gmap addr node) s :
  tagOf <$> h = tagOf <$> h' →
  Forall (λ e, isRule h e = true) s → Forall (λ e, isRule h' e = true) s.
Proof.
  intros Ht Hs. eapply Forall_impl; [exact Hs|]. intros e He. simpl in *.
  by rewrite <- (tagOf_isRule h h' e Ht).
Qed.

Lemma replacerOf_typed (h0 h : gmap addr node) parent0 i e :
  (∀ p, parent0 = ptr p → tagOf <$> h0 !! p = tagOf <$> h !! p) →
  grammarTyped h → grammarTyped (replacerOf h0 parent0 i e h).2.
Proof.
  intros Hsame Htyped.
  pose proof (replacerOf_props h0 h parent0 i e) as (_ & _ & _ & Htag).
  specialize (Htag Hsame).
  assert (Hother : ∀ p c', (replacerOf h0 parent0 i e h).2 = <[p := c']> h →
            (∀ s, c' = Grammar s → Forall (λ x, isRule h x = true) s) →
            grammarTyped (replacerOf h0 parent0 i e h).2).
  { intros p c' Heq Hc' g s Hg.
    apply (grammarTyped_tags h); [done|]. rewrite Heq in Hg.
    destruct (decide (g = p)) as [->|Hne].
    - rewrite lookup_insert_eq in Hg. injection Hg as ->. by eapply Hc'.
    - rewrite lookup_insert_ne in Hg by done. by eapply Htyped. }
  destruct (replacerOf_cases h0 parent0 i)
    as [Hr|[Hr|(p & -> & [(mk & e0 & H0 & Hmk & Hr)|[(s0 & H0 & Hr)|
        [(s0 & H0 & Hr)|(s0 & H0 & Hr)]]])]]; rewrite Hr in *; clear Hr;
    try done.
  - apply (Hother p (mk e)); [done|]. intros s Hs.
    destruct (Hmk e) as [_ Hshape]. by rewrite Hs in Hshape.
  - unfold setAlternative, setIndex in *.
    destruct (h !! p) as [[]|] eqn:Hp; try done.
    case_decide; [|done]. by eapply Hother.
  - unfold setRule, setIndex in *.
    destruct (isRule h e) eqn:He; [|done].
    destruct (h !! p) as [[]|] eqn:Hp; try done.
    case_decide; [|done]. eapply Hother; [done|].
    intros s [= <-]. apply Forall_insert; [|done]. by eapply Htyped.
  - unfold setSeqElem, setIndex in *.
    destruct (h !! p) as [[]|] eqn:Hp; try done.
    case_decide; [|done]. by eapply Hother.
Qed.

Lemma applyAll_typed (h0 : gmap addr node) parent0 i es :
  ∀ h, tagOf <$> h = tagOf <$> h0 → grammarTyped h →
       grammarTyped (applyAll (replacerOf h0 parent0 i) es h).2.
Proof.
  induction es as [|e es IH]; intros h Ht Htyped; simpl; [done|].
  assert (Hsame : ∀ p, parent0 = ptr p →
            tagOf <$> h0 !! p = tagOf <$> h !! p).
  { intros p _. by rewrite <- !lookup_fmap, Ht. }
  pose proof (replacerOf_typed h0 h parent0 i e Hsame Htyped) as H1.
  pose proof (replacerOf_props h0 h parent0 i e) as (_ & _ & _ & Htag).
  specialize (Htag Hsame).
  destruct (replacerOf h0 parent0 i e h) as [[[]| |] h1]; simpl in *;
    [|done..].
  apply IH; [|done]. by rewrite Htag.
Qed.

(** X5: the walk keeps Grammars typed.  If every element of every
    [Rules] slice is a [*Rule] before [Walk], and the visitor writes the
    tree through its replacer only, then this holds after [Walk] too,
    whatever the visitor tried to install and whatever the outcome of the
    walk. *)
Theorem replacing_keeps_grammars_typed {V G : Type}
    (script : V → Expression → gmap addr node → G
                → list Expression * option V * G)
    (fuel : nat) (v : V) (root : Expression) (st : wstate G) :
  grammarTyped st.2.1 →
  grammarTyped (BackrefWalk.Walk (scripted script) fuel v root st).2.2.1.
Proof.
  intros Htyped. unfold BackrefWalk.Walk. rewrite walk0_gwalk.
  apply (gwalk_invariant _ (λ w, grammarTyped w.1)); [|done].
  clear. intros v e p i w Hw. unfold backrefStep, scripted. simpl.
  pose proof (applyAll_typed w.1 p i (script v e w.1 w.2).1.1 w.1
                eq_refl Hw) as H.
  by destruct (applyAll _ _ _) as [[[]| |] h1].
Qed.

Lemma grammarTypedB_sound (h : gmap addr node) :
  grammarTypedB h = true → grammarTyped h.
Proof.
  unfold grammarTypedB. rewrite forallb_forall. intros H g s Hg.
  apply elem_of_map_to_list, list_elem_of_In in Hg.
  specialize (H _ Hg). simpl in H. rewrite forallb_forall in H.
  apply Forall_forall. intros e He. by apply H, list_elem_of_In.
Qed.

Lemma replacing_keeps_grammars_typed_witness :
  grammarTyped
    (BackrefWalk.Walk (scripted (twiceScript (ptr 1) (ptr 9))) 5 tt (ptr 0)
       ([], (heapGrammar, 0))).2.2.1.
Proof.
  apply (replacing_keeps_grammars_typed (twiceScript (ptr 1) (ptr 9)) 5 tt
           (ptr 0) ([], (heapGrammar, 0))).
  apply grammarTypedB_sound. vm_compute. reflexivity.
Defined.

Lemma replacerOf_safe (h0 h : gmap addr node) parent0 i e :
  validSlot h0 parent0 i → tagOf <$> h = tagOf <$> h0 →
  noSlotFault (replacerOf h0 parent0 i e h).1.
Proof.
  destruct parent0 as [|p]; [done|]. simpl.
  intros (c & es & Hp & Hc & Hi) Ht. rewrite Hp.
  assert (Hr : tagOf <$> h !! p = Some (tagOf c)).
  { by rewrite <- lookup_fmap, Ht, lookup_fmap, Hp. }
  destruct (h !! p) as [c'|] eqn:Hp'; [|done]. injection Hr as Hr.
  unfold childrenOf in Hc.
  destruct c; simpl in *; simplify_eq/=; try done; try lia.
  - unfold setAlternative, setIndex. rewrite Hp'.
    destruct c'; simpl in Hr; try done. injection Hr as Hr.
    apply (f_equal length) in Hr. rewrite !length_replicate in Hr.
    by rewrite decide_True by lia.
  - unfold setRule, setIndex. destruct (isRule h e); [|done]. rewrite Hp'.
    destruct c'; simpl in Hr; try done. injection Hr as Hr.
    apply (f_equal length) in Hr. rewrite !length_replicate in Hr.
    by rewrite decide_True by lia.
  - unfold setSeqElem, setIndex. rewrite Hp'.
    destruct c'; simpl in Hr; try done. injection Hr as Hr.
    apply (f_equal length) in Hr. rewrite !length_replicate in Hr.
    by rewrite decide_True by lia.
Qed.

Lemma applyAll_safe (h0 : gmap addr node) parent0 i es :
  validSlot h0 parent0 i →
  ∀ h, tagOf <$> h = tagOf <$> h0 →
       noSlotFault (applyAll (replacerOf h0 parent0 i) es h).1.
Proof.
  intros Hv. induction es as [|e es IH]; intros h Ht; simpl; [done|].
  pose proof (replacerOf_safe h0 h parent0 i e Hv Ht) as Hs.
  pose proof (replacerOf_props h0 h parent0 i e) as (_ & _ & _ & Htag).
  assert (H1 : tagOf <$> (replacerOf h0 parent0 i e h).2 = tagOf <$> h0).
  { rewrite Htag; [done|]. intros p _. by rewrite <- !lookup_fmap, Ht. }
  destruct (replacerOf h0 parent0 i e h) as [[[]| |] h1]; simpl in *;
    [by apply IH|done..].
Qed.

Section safety.
Context {V G : Type}.
Variable script :
  V → Expression → gmap addr node → G → list Expression * option V * G.

Lemma scripted_step_safe v e p i (w : gmap addr node * G) :
  validSlot w.1 p i →
  noSlotFault (backrefStep (scripted script) v e p i w).1.
Proof.
  intros Hv. unfold backrefStep, scripted. simpl.
  pose proof (applyAll_safe w.1 p i (script v e w.1 w.2).1.1 Hv w.1 eq_refl)
    as H.
  by destruct (applyAll _ _ _) as [[[]| |] h1].
Qed.

Lemma gwalk_scripted_safe fuel :
  ∀ v e p i (st : wstate G),
    validSlot st.2.1 p i →
    noSlotFault (gwalk (backrefStep (scripted script)) fuel v e p i st).1.
Proof.
  induction fuel as [|fuel IH]; intros v e p i st Hv; [done|]. simpl.
  pose proof (scripted_step_safe v e p i st.2 Hv) as Hs.
  destruct (backrefStep (scripted script) v e p i st.2)
    as [[[v'|]| |] w] eqn:Hstep; simpl in *; try done.
  destruct e as [|a]; [done|].
  destruct (w.1 !! a) as [c|] eqn:Ha; [|done].
  destruct (shapeOf c) as [e1|sel s| |] eqn:Hshape; simpl; try done.
  - apply IH. simpl. exists c, [e1]. unfold childrenOf. rewrite Hshape.
    split_and!; [done..|simpl; lia].
  - assert (Hrange : ∀ snap j (st1 : wstate G),
        j + length snap = length s →
        tagOf <$> st1.2.1 = tagOf <$> w.1 →
        noSlotFault
          (rangeFrom (λ e0 i0, gwalk (backrefStep (scripted script)) fuel v'
                                 e0 (ptr a) i0) sel a j snap st1).1).
    { induction snap as [|e0 snap IHs]; intros j st1 Hj Ht; simpl; [done|].
      assert (Hslot : validSlot st1.2.1 (ptr a) j).
      { apply (validSlot_tags w.1); [done|]. simpl. exists c, s.
        unfold childrenOf. rewrite Hshape. simpl in Hj.
        split_and!; [done..|lia]. }
      pose proof (IH v' (elemAt sel st1.2.1 a j e0) (ptr a) j st1 Hslot)
        as Hb.
      pose proof (gwalk_frame (backrefStep (scripted script))
                    (λ w0, tagOf <$> w0.1)
                    (scripted_step_tags script) fuel v'
                    (elemAt sel st1.2.1 a j e0) (ptr a) j st1) as Hf.
      destruct (gwalk _ fuel v' _ (ptr a) j st1) as [[[]| |] st2];
        simpl in *; try done.
      apply IHs; [lia|]. by rewrite Hf. }
    by apply Hrange.
Qed.
End safety.

(** X6: the slots the walker hands out are good.  With a visitor that
    does nothing to the tree but call the replacer it is handed, any
    number of times and with any expressions, [Walk] never ends in an
    index-out-of-range panic nor in the call of a nil replacer: every
    replacer it builds is non-nil and its index is within the parent's
    slice at the time of the call. *)
Theorem replacer_calls_never_miss_the_slot {V G : Type}
    (script : V → Expression → gmap addr node → G
                → list Expression * option V * G)
    (fuel : nat) (v : V) (root : Expression) (st : wstate G) :
  (BackrefWalk.Walk (scripted script) fuel v root st).1
    ≠ Panic IndexOutOfRange
  ∧ (BackrefWalk.Walk (scripted script) fuel v root st).1
    ≠ Panic NilFuncCall.
Proof.
  unfold BackrefWalk.Walk. rewrite walk0_gwalk.
  pose proof (gwalk_scripted_safe script fuel v root nilExpr 0 st I) as H.
  by destruct (gwalk _ _ _ _ _ _ _).1 as [|[]|].
Qed.

(** ** Walks of trees, in all entry points *)

(** X7: on a tree held in the heap, [Inspect] with a pure predicate
    returns, leaves heap and state alone, and has called the predicate on
    exactly the nodes all of whose proper ancestors satisfy it, in
    pre-order; both variants of [Inspect] do, and so a second [Inspect]
    repeats the calls of the first. *)
Theorem Inspect_lists_the_unpruned_nodes {G : Type}
    (pred : gmap addr node → Expression → bool) (h : gmap addr node)
    (t : tree) (fuel : nat) (tr : list Expression) (g : G) :
  repr h t = true →
  depth t ≤ fuel →
  BackrefWalk.Inspect fuel (rootOf t) (purePredicate pred) (tr, (h, g))
    = (Ok tt, (tr ++ trav (predicateDec pred h) tt t, (h, g)))
  ∧ UpgradeWalk.Inspect fuel (rootOf t) (purePredicate pred) (tr, (h, g))
    = (Ok tt, (tr ++ trav (predicateDec pred h) tt t, (h, g))).
Proof.
  intros Hr Hf.
  assert (HB : BackrefWalk.Inspect fuel (rootOf t) (purePredicate pred)
                 (tr, (h, g))
               = (Ok tt, (tr ++ trav (predicateDec pred h) tt t, (h, g)))).
  { unfold BackrefWalk.Inspect, BackrefWalk.Walk. rewrite walk0_gwalk.
    rewrite (gwalk_sim _
               (λ (_ : unit) e (_ : Expression) (_ : nat)
                  (w : gmap addr node * G),
                  (Ok (predicateDec pred w.1 tt e), w))
               (λ _ f _, f = purePredicate pred) ) with (v' := tt); [|
      |done].
    - destruct (gwalk_trav
                  (λ (_ : unit) e (_ : Expression) (_ : nat)
                     (w : gmap addr node * G),
                     (Ok (predicateDec pred w.1 tt e), w))
                  (predicateDec pred h) h) with
        (t := t) (fuel := fuel) (v := tt) (p := nilExpr) (i := 0)
        (tr := tr) (g := g) as [g' Hg']; [|done..|].
      { intros [] e p i g1. by exists g1. }
      pose proof (gwalk_frame
                    (λ (_ : unit) e (_ : Expression) (_ : nat)
                       (w : gmap addr node * G),
                       (Ok (predicateDec pred w.1 tt e), w)) id
                    (λ _ _ _ _ _, eq_refl) fuel tt (rootOf t) nilExpr 0
                    (tr, (h, g))) as Hfr.
      rewrite Hg' in Hfr. simpl in Hfr. by rewrite Hg', Hfr.
    - intros p f [] -> e i w.
      unfold backrefStep, BackrefWalk.inspectorVisit, purePredicate,
        predicateDec.
      destruct (pred w.1 e); split; simpl; done. }
  split; [exact HB|]. by rewrite Inspect_variants.
Qed.

Lemma Inspect_lists_the_unpruned_nodes_witness :
  BackrefWalk.Inspect 5 (ptr 0) (purePredicate notChoice)
    ([], (heapGrammar, tt))
  = (Ok tt, ([] ++ [ptr 0; ptr 1; ptr 2; ptr 3; ptr 4; ptr 8; ptr 9],
             (heapGrammar, tt)))
  ∧ UpgradeWalk.Inspect 5 (ptr 0) (purePredicate notChoice)
      ([], (heapGrammar, tt))
    = (Ok tt, ([] ++ [ptr 0; ptr 1; ptr 2; ptr 3; ptr 4; ptr 8; ptr 9],
               (heapGrammar, tt))).
Proof.
  apply (Inspect_lists_the_unpruned_nodes notChoice heapGrammar treeGrammar
           5 [] tt ltac:(vm_compute; reflexivity) ltac:(vm_compute; lia)).
Defined.

(** X8: the walker with the optional capability on a tree.  A visitor
    that is a [VisitReplacer] is walked with [VisitReplace] at every node,
    the root and all below, and its [Visit] is never called: if
    [VisitReplace] only reads, [Walk] returns and its visits and final
    state are those of the pre-order walk of the tree pruned where
    [VisitReplace] returns nil, whatever [Visit] is.  Any other visitor
    is walked with [Visit]: if [Visit] only reads, the visits and final
    state are those of the walk pruned where [Visit] returns nil, whatever
    [VisitReplace] is.  The answers may depend on the node and on the
    visitor's own state. *)
Theorem UpgradeWalk_lists_the_unpruned_nodes {V R G : Type}
    (Visit : V → Expression → gmap addr node * G
               → res (option V) * (gmap addr node * G))
    (VisitReplace : R → Expression → replacerFn → gmap addr node * G
                      → res (option R) * (gmap addr node * G))
    (asVisitReplacer : V → option R)
    (h : gmap addr node) (t : tree) (fuel : nat) (v : V)
    (tr : list Expression) (g : G) :
  repr h t = true →
  depth t ≤ fuel →
  match asVisitReplacer v with
  | Some r =>
      (∀ r e repl g, ∃ o g',
         VisitReplace r e repl (h, g) = (Ok o, (h, g'))) →
      UpgradeWalk.Walk Visit VisitReplace asVisitReplacer fuel v (rootOf t)
        (tr, (h, g))
      = (Ok tt,
         (tr ++ (walkT (answerReplacer VisitReplace h) r nilExpr 0 t g).1,
          (h, (walkT (answerReplacer VisitReplace h) r nilExpr 0 t g).2)))
  | None =>
      (∀ v e g, ∃ o g', Visit v e (h, g) = (Ok o, (h, g'))) →
      UpgradeWalk.Walk Visit VisitReplace asVisitReplacer fuel v (rootOf t)
        (tr, (h, g))
      = (Ok tt,
         (tr ++ (walkT (answerPlain Visit h) v nilExpr 0 t g).1,
          (h, (walkT (answerPlain Visit h) v nilExpr 0 t g).2)))
  end.
Proof.
  intros Hr Hf. unfold UpgradeWalk.Walk.
  destruct (asVisitReplacer v) as [r|].
  - intros HR. rewrite walkReplacer_gwalk.
    apply (gwalk_walkT (replacerStep VisitReplace)
             (answerReplacer VisitReplace h) h
             (answerReplacer_reads VisitReplace h HR) t Hr fuel Hf).
  - intros HV. rewrite (walkVisitor_gwalk _ _ _ _ nilExpr 0).
    apply (gwalk_walkT (plainStep Visit) (answerPlain Visit h) h
             (answerPlain_reads Visit h HV) t Hr fuel Hf).
Qed.

Lemma UpgradeWalk_lists_the_unpruned_nodes_witness :
  UpgradeWalk.Walk plainPanics replacerAll (λ _, Some tt) 5 0 (ptr 0)
    ([], (heapGrammar, tt))
  = (Ok tt, ([] ++ [ptr 0; ptr 1; ptr 2; ptr 5; ptr 6; ptr 7;
                    ptr 3; ptr 4; ptr 8; ptr 9], (heapGrammar, tt)))
  ∧ UpgradeWalk.Walk plainCounting replacerAll (λ _, None) 5 0 (ptr 0)
      ([], (heapGrammar, tt))
    = (Ok tt, ([] ++ [ptr 0; ptr 1; ptr 2; ptr 3; ptr 4; ptr 8; ptr 9],
               (heapGrammar, tt))).
Proof.
  split.
  - apply (UpgradeWalk_lists_the_unpruned_nodes plainPanics replacerAll
             (λ _, Some tt) heapGrammar treeGrammar 5 0 [] tt
             ltac:(vm_compute; reflexivity) ltac:(vm_compute; lia)).
    intros. eexists _, _. reflexivity.
  - apply (UpgradeWalk_lists_the_unpruned_nodes plainCounting replacerAll
             (λ _, None) heapGrammar treeGrammar 5 0 [] tt
             ltac:(vm_compute; reflexivity) ltac:(vm_compute; lia)).
    intros. eexists _, _. reflexivity.
Defined.

(** X9: the walker with back-references on a tree, with pruning.  With a
    visitor that only reads - its answers may depend on the node, on the
    back-reference and on its own state - [Walk] returns and its visits
    are exactly: the root, and then, if the visitor continues there, the
    visits of the walks of the children in order, each with the
    continuation and started in the state the walk before it left. *)
Theorem Walk_lists_the_unpruned_nodes {V G : Type}
    (Visit : V → Expression → BackrefWalk.Backref → gmap addr node * G
               → res (option V) * (gmap addr node * G))
    (h : gmap addr node) :
  (∀ v e br g, ∃ o g', Visit v e br (h, g) = (Ok o, (h, g'))) →
  ∀ t, repr h t = true →
  ∀ fuel, depth t ≤ fuel →
  ∀ v tr g,
    BackrefWalk.Walk Visit fuel v (rootOf t) (tr, (h, g))
    = (Ok tt, (tr ++ (walkT (answerOf Visit h) v nilExpr 0 t g).1,
               (h, (walkT (answerOf Visit h) v nilExpr 0 t g).2))).
Proof.
  intros Hread t Hr fuel Hf v tr g.
  unfold BackrefWalk.Walk. rewrite walk0_gwalk.
  apply (gwalk_walkT (backrefStep Visit) (answerOf Visit h) h
           (answerOf_reads Visit h Hread) t Hr fuel Hf).
Qed.

Lemma Walk_lists_the_unpruned_nodes_witness :
  BackrefWalk.Walk secondCallStops 5 tt (ptr 0) ([], (heapGrammar, 0))
  = (Ok tt, ([] ++ [ptr 0; ptr 1; ptr 3; ptr 4; ptr 8; ptr 9],
             (heapGrammar, 6))).
Proof.
  apply (Walk_lists_the_unpruned_nodes secondCallStops heapGrammar
           ltac:(intros; eexists _, _; reflexivity)
           treeGrammar ltac:(vm_compute; reflexivity)
           5 ltac:(vm_compute; lia) tt [] 0).
Defined.

(** ** A replacement does not redirect the walk that makes it *)

Lemma sameBut_refl nodes parent0 i h : sameBut nodes parent0 i h h.
Proof. by split_and!. Qed.

Lemma sameBut_trans nodes parent0 i h1 h2 h3 :
  sameBut nodes parent0 i h1 h2 → sameBut nodes parent0 i h2 h3 →
  sameBut nodes parent0 i h1 h3.
Proof.
  intros (Ht1 & Ho1 & Hs1) (Ht2 & Ho2 & Hs2). split_and!.
  - by rewrite Ht2.
  - intros a Ha Hp. by rewrite Ho2, Ho1.
  - intros p j Hp Hn Hj. by rewrite (Hs2 p j), (Hs1 p j).
Qed.

Lemma slotOf_agree (h h' : gmap addr node) a j :
  h' !! a = h !! a → slotOf h' a j = slotOf h a j.
Proof. unfold slotOf. by intros ->. Qed.

Lemma tagOf_shape_Many c c' sel s :
  tagOf c' = tagOf c → shapeOf c = Many sel s →
  ∃ s', shapeOf c' = Many sel s'.
Proof.
  intros Ht Hs. destruct c; simpl in Hs; try discriminate;
    destruct c'; simpl in Ht; try discriminate;
    injection Hs as <- <-; by eexists.
Qed.

Lemma tagOf_shape_Single c c' e :
  tagOf c' = tagOf c → shapeOf c = Single e →
  ∃ e', shapeOf c' = Single e'.
Proof.
  intros Ht Hs. destruct c; simpl in Hs; try discriminate;
    destruct c'; simpl in Ht; try discriminate; by eexists.
Qed.

Lemma elemAt_of_slot (h : gmap addr node) a c sel s j e snap :
  h !! a = Some c → shapeOf c = Many sel s → slotOf h a j = Some e →
  elemAt sel h a j snap = e.
Proof.
  intros Ha Hs. unfold slotOf, elemAt, childrenOf. rewrite Ha. simpl.
  rewrite Hs, (shapeOf_Many _ _ _ Hs). simpl. by intros ->.
Qed.

Lemma lookup_tags (h h' : gmap addr node) a c :
  tagOf <$> h' = tagOf <$> h → h !! a = Some c →
  ∃ c', h' !! a = Some c' ∧ tagOf c' = tagOf c.
Proof.
  intros Ht Ha.
  assert (Hr : tagOf <$> h' !! a = tagOf <$> h !! a)
    by (by rewrite <- !lookup_fmap, Ht).
  rewrite Ha in Hr. destruct (h' !! a) as [c'|]; [|done].
  injection Hr as Hr. by exists c'.
Qed.

Lemma replacerOf_sameBut (h0 h : gmap addr node) parent0 i e :
  validSlot h0 parent0 i → tagOf <$> h = tagOf <$> h0 →
  ((replacerOf h0 parent0 i e h).1 = Panic InvalidReplacement)
  ∨ ((replacerOf h0 parent0 i e h).1 = Ok tt
     ∧ sameBut [] parent0 i h (replacerOf h0 parent0 i e h).2).
Proof.
  intros Hv Ht.
  pose proof (replacerOf_props h0 h parent0 i e) as (_ & _ & Hother & Htag).
  assert (Htags : tagOf <$> (replacerOf h0 parent0 i e h).2 = tagOf <$> h).
  { apply Htag. intros p _. by rewrite <- !lookup_fmap, Ht. }
  destruct parent0 as [|p]; [right; split; [done|apply sameBut_refl]|].
  assert (Hslots :
    (replacerOf h0 (ptr p) i e h).1 = Panic InvalidReplacement
    ∨ ((replacerOf h0 (ptr p) i e h).1 = Ok tt
       ∧ ∀ j, j ≠ i → slotOf (replacerOf h0 (ptr p) i e h).2 p j
                      = slotOf h p j)).
  { clear Hother Htag Htags. simpl in *.
    destruct Hv as (c & es & Hp & Hc & Hi). rewrite Hp.
    destruct (lookup_tags h0 h p c Ht Hp) as (c' & Hp' & Hc').
    unfold childrenOf in Hc.
    destruct c; simpl in *; simplify_eq/=; try lia;
      try (assert (i = 0) as -> by lia; right; split; [done|];
           intros j Hj; unfold slotOf, childrenOf;
           rewrite lookup_insert_eq, Hp'; destruct c'; simpl in Hc';
           try discriminate; destruct j; simpl; done).
    - unfold setAlternative, setIndex. rewrite Hp'.
      destruct c'; simpl in Hc'; try discriminate. injection Hc' as Hc'.
      apply (f_equal length) in Hc'. rewrite !length_replicate in Hc'.
      rewrite decide_True by lia. right. split; [done|]. intros j Hj.
      simpl. unfold slotOf, childrenOf. rewrite lookup_insert_eq, Hp'. simpl.
      by rewrite list_lookup_insert_ne.
    - unfold setRule, setIndex. destruct (isRule h e); [|by left].
      rewrite Hp'.
      destruct c'; simpl in Hc'; try discriminate. injection Hc' as Hc'.
      apply (f_equal length) in Hc'. rewrite !length_replicate in Hc'.
      rewrite decide_True by lia. right. split; [done|]. intros j Hj.
      simpl. unfold slotOf, childrenOf. rewrite lookup_insert_eq, Hp'. simpl.
      by rewrite list_lookup_insert_ne.
    - unfold setSeqElem, setIndex. rewrite Hp'.
      destruct c'; simpl in Hc'; try discriminate. injection Hc' as Hc'.
      apply (f_equal length) in Hc'. rewrite !length_replicate in Hc'.
      rewrite decide_True by lia. right. split; [done|]. intros j Hj.
      simpl. unfold slotOf, childrenOf. rewrite lookup_insert_eq, Hp'. simpl.
      by rewrite list_lookup_insert_ne. }
  destruct Hslots as [Hpanic|[Hok Hsl]]; [by left|right].
  split; [done|]. split_and!; [done| |].
  - intros a _ Ha. apply Hother. congruence.
  - intros q j [= <-] _ Hj. by apply Hsl.
Qed.

Lemma applyAll_sameBut (h0 : gmap addr node) parent0 i es :
  validSlot h0 parent0 i →
  ∀ h, tagOf <$> h = tagOf <$> h0 →
    ((applyAll (replacerOf h0 parent0 i) es h).1 = Panic InvalidReplacement)
    ∨ ((applyAll (replacerOf h0 parent0 i) es h).1 = Ok tt
       ∧ sameBut [] parent0 i h (applyAll (replacerOf h0 parent0 i) es h).2).
Proof.
  intros Hv. induction es as [|e es IH]; intros h Ht; simpl.
  - right. split; [done|apply sameBut_refl].
  - destruct (replacerOf_sameBut h0 h parent0 i e Hv Ht) as [Hp|[Hok Hsb]].
    + left. by destruct (replacerOf h0 parent0 i e h) as [[[]| |] h1];
        simpl in *.
    + destruct (replacerOf h0 parent0 i e h) as [[[]| |] h1]; simpl in *;
        try done.
      destruct (IH h1) as [Hp|[Hok' Hsb']].
      * destruct Hsb as (Ht1 & _). by rewrite Ht1.
      * by left.
      * right. split; [done|]. by eapply sameBut_trans.
Qed.

Lemma sameBut_subtree nodes parent0 i (h h1 h2 : gmap addr node) :
  sameBut [] parent0 i h h1 →
  tagOf <$> h2 = tagOf <$> h1 →
  (∀ x, ptr x ∉ nodes → h2 !! x = h1 !! x) →
  sameBut nodes parent0 i h h2.
Proof.
  intros (Ht & Ho & Hs) Ht2 Hx. split_and!.
  - by rewrite Ht2.
  - intros a Ha Hp. rewrite Hx by done. apply Ho; [|done].
    by intros ?%elem_of_nil.
  - intros p j Hp Hn Hj. rewrite (slotOf_agree h1 h2) by by apply Hx.
    apply Hs; [done| |done]. by intros ?%elem_of_nil.
Qed.

Lemma repr_agree (h h' : gmap addr node) t :
  (∀ a, ptr a ∈ preorder t → h' !! a = h !! a) →
  repr h t = true → repr h' t = true.
Proof.
  induction t as [a kids IH] using tree_kids_ind. intros Hag Hr.
  apply repr_inv in Hr as (c & Ha & Hc & Hkids). simpl.
  rewrite Hag by (simpl; apply elem_of_cons; by left).
  rewrite Ha. simpl. rewrite Hc.
  apply andb_true_intro. split; [by apply bool_decide_eq_true|].
  apply forallb_forall. intros k Hk%list_elem_of_In.
  rewrite Forall_forall in IH, Hkids. apply IH; [done| |by apply Hkids].
  intros x Hx. apply Hag. simpl. apply elem_of_cons. right.
  apply elem_of_flat_map. eauto.
Qed.

Lemma replacerOf_sameBut_always (h0 h : gmap addr node) parent0 i e :
  validSlot h0 parent0 i → tagOf <$> h = tagOf <$> h0 →
  sameBut [] parent0 i h (replacerOf h0 parent0 i e h).2
  ∧ ((replacerOf h0 parent0 i e h).1 = Ok tt
     ∨ (replacerOf h0 parent0 i e h).1 = Panic InvalidReplacement).
Proof.
  intros Hv Ht.
  destruct (replacerOf_sameBut h0 h parent0 i e Hv Ht) as [Hp|[Hok Hsb]].
  - pose proof (replacerOf_props h0 h parent0 i e) as (_ & Hat & _).
    rewrite (Hat _ Hp). split; [apply sameBut_refl|by right].
  - split; [done|by left].
Qed.

Lemma applyAll_sameBut_always (h0 : gmap addr node) parent0 i es :
  validSlot h0 parent0 i →
  ∀ h, tagOf <$> h = tagOf <$> h0 →
    sameBut [] parent0 i h (applyAll (replacerOf h0 parent0 i) es h).2
    ∧ ((applyAll (replacerOf h0 parent0 i) es h).1 = Ok tt
       ∨ (applyAll (replacerOf h0 parent0 i) es h).1
         = Panic InvalidReplacement).
Proof.
  intros Hv. induction es as [|e es IH]; intros h Ht; simpl.
  - split; [apply sameBut_refl|by left].
  - destruct (replacerOf_sameBut_always h0 h parent0 i e Hv Ht)
      as [Hsb [Hok|Hp]].
    + destruct (replacerOf h0 parent0 i e h) as [[[]| |] h1]; simpl in *;
        try done.
      destruct (IH h1) as [Hsb' Hres].
      * destruct Hsb as (Ht1 & _). by rewrite Ht1.
      * split; [by eapply sameBut_trans|done].
    + destruct (replacerOf h0 parent0 i e h) as [[[]| |] h1]; simpl in *;
        try done.
      split; [done|right; congruence].
Qed.

Lemma rangeFrom_replacing {G : Type}
    (body : Expression → nat → wstate G → res unit * wstate G)
    (f : nat → tree → G → list Expression * G)
    sel a c s kids (h1 : gmap addr node) :
  h1 !! a = Some c → shapeOf c = Many sel s → s = map rootOf kids →
  NoDup (flat_map preorder kids) → ptr a ∉ flat_map preorder kids →
  Forall (λ k, repr h1 k = true) kids →
  (∀ k, k ∈ kids → ∀ j tr hj gj,
     tagOf <$> hj = tagOf <$> h1 →
     repr hj k = true → validSlot hj (ptr a) j →
     ∃ r log h' g',
       body (rootOf k) j (tr, (hj, gj)) = (r, (tr ++ log, (h', g')))
       ∧ sameBut (preorder k) (ptr a) j hj h'
       ∧ (r = Panic InvalidReplacement
          ∨ (r = Ok tt ∧ log = (f j k gj).1 ∧ g' = (f j k gj).2))) →
  ∀ ks pre, kids = pre ++ ks →
  ∀ tr hj gj,
    tagOf <$> hj = tagOf <$> h1 →
    (∀ x, ptr x ∉ flat_map preorder pre → x ≠ a → hj !! x = h1 !! x) →
    (∀ j', length pre ≤ j' → slotOf hj a j' = slotOf h1 a j') →
    ∃ r log h' g',
      rangeFrom body sel a (length pre) (map rootOf ks) (tr, (hj, gj))
        = (r, (tr ++ log, (h', g')))
      ∧ tagOf <$> h' = tagOf <$> h1
      ∧ (∀ x, ptr x ∉ flat_map preorder kids → x ≠ a → h' !! x = h1 !! x)
      ∧ (r = Panic InvalidReplacement
         ∨ (r = Ok tt ∧ log = (kidsT f (length pre) ks gj).1
            ∧ g' = (kidsT f (length pre) ks gj).2)).
Proof.
  intros Ha Hshape Hs Hnd Hroot Hrepr Hbody.
  induction ks as [|k ks IH]; intros pre Hkids tr hj gj Ht Hcells Hslots.
  - simpl. exists (Ok tt), [], hj, gj. rewrite app_nil_r.
    split_and!; [done..| |by right].
    rewrite app_nil_r in Hkids. by subst pre.
  - simpl.
    assert (Hk : k ∈ kids).
    { subst kids. apply elem_of_app. right. apply elem_of_cons. by left. }
    assert (Hslot1 : slotOf h1 a (length pre) = Some (rootOf k)).
    { unfold slotOf, childrenOf. rewrite Ha. simpl. rewrite Hshape. simpl.
      subst s kids. rewrite map_app. simpl.
      rewrite <- (length_map rootOf pre). apply list_lookup_middle. done. }
    destruct (lookup_tags h1 hj a c Ht Ha) as (cj & Haj & Hcj).
    destruct (tagOf_shape_Many c cj sel s Hcj Hshape) as (sj & Hshj).
    rewrite (elemAt_of_slot hj a cj sel sj (length pre) (rootOf k));
      [|done..|by rewrite Hslots].
    assert (Hsplit : NoDup (flat_map preorder pre ++ preorder k
                            ++ flat_map preorder ks)).
    { subst kids. rewrite flat_map_app in Hnd. exact Hnd. }
    apply NoDup_app in Hsplit as (_ & Hdisj & Hrest).
    assert (Hkroot : ∀ x, ptr x ∈ preorder k → x ≠ a).
    { intros x Hx ->. apply Hroot. apply elem_of_flat_map. eauto. }
    assert (Hkpre : ∀ x, ptr x ∈ preorder k →
              ptr x ∉ flat_map preorder pre).
    { intros x Hx Hin. apply (Hdisj _ Hin). apply elem_of_app. by left. }
    assert (Hout : ∀ x, ptr x ∉ flat_map preorder kids →
              (ptr x ∉ flat_map preorder pre) ∧ (ptr x ∉ preorder k)).
    { intros x Hx. subst kids. rewrite flat_map_app in Hx. simpl in Hx.
      split; intros Hin; apply Hx, elem_of_app; [by left|right].
      apply elem_of_app. by left. }
    assert (Hreprk : repr hj k = true).
    { apply (repr_agree h1).
      - intros x Hx. apply Hcells; [by apply Hkpre|by apply Hkroot].
      - rewrite Forall_forall in Hrepr. by apply Hrepr. }
    assert (Hvalid : validSlot hj (ptr a) (length pre)).
    { apply (validSlot_tags h1); [done|]. simpl. exists c, s.
      unfold childrenOf. rewrite Hshape. split_and!; [done..|].
      subst s kids. rewrite length_map, length_app. simpl. lia. }
    destruct (Hbody k Hk (length pre) tr hj gj Ht Hreprk Hvalid)
      as (r & log & h' & g' & -> & Hsb & Hres).
    destruct Hsb as (Ht' & Ho' & Hs').
    destruct Hres as [->|(-> & -> & ->)].
    { exists (Panic InvalidReplacement), log, h', g'.
      split_and!; [done|by rewrite Ht'| |by left].
      intros x Hx Hxa. destruct (Hout x Hx) as [Hx1 Hx2].
      rewrite Ho'; [by apply Hcells|done|congruence]. }
    destruct (IH (pre ++ [k])) with
      (tr := tr ++ (f (length pre) k gj).1) (hj := h')
      (gj := (f (length pre) k gj).2)
      as (r & log & h2 & g2 & Hrange & Ht2 & Hfr2 & Hres).
    + by rewrite <- app_assoc.
    + by rewrite Ht'.
    + intros x Hx Hxa. rewrite flat_map_app in Hx. simpl in Hx.
      rewrite app_nil_r in Hx.
      rewrite Ho'; [|intros Hin; apply Hx, elem_of_app; by right|congruence].
      apply Hcells; [|done]. intros Hin. apply Hx, elem_of_app. by left.
    + intros j' Hj'. rewrite length_app in Hj'. simpl in Hj'.
      rewrite (Hs' a j'); [apply Hslots; lia|done| |lia].
      intros Hin. by apply (Hkroot a).
    + rewrite length_app in Hrange, Hres. simpl in Hrange, Hres.
      replace (length pre + 1) with (S (length pre)) in Hrange, Hres by lia.
      rewrite Hrange.
      exists r, ((f (length pre) k gj).1 ++ log), h2, g2.
      split_and!; [by rewrite app_assoc|done..|].
      destruct Hres as [->|(-> & -> & ->)]; [by left|by right].
Qed.

Section replacing.
Context {V G : Type}.
Variable script :
  V → Expression → gmap addr node → G → list Expression * option V * G.
(** The heap the walk starts in. *)
Variable h0 : gmap addr node.
(** The continuation the visitor returns and the state it leaves depend
    on the heap through the kinds of its nodes at most: in a heap with
    the kinds and arities of [h0] they are what they are in [h0]. *)
Hypothesis script_kinds : ∀ v e (h : gmap addr node) g,
  tagOf <$> h = tagOf <$> h0 →
  (script v e h g).1.2 = (script v e h0 g).1.2
  ∧ (script v e h g).2 = (script v e h0 g).2.

Lemma scripted_step_cases v e p i (w : gmap addr node * G) :
  tagOf <$> w.1 = tagOf <$> h0 →
  validSlot w.1 p i →
  sameBut [] p i w.1 (backrefStep (scripted script) v e p i w).2.1
  ∧ (backrefStep (scripted script) v e p i w).2.2
    = (scriptAnswer script h0 v e p i w.2).2
  ∧ ((backrefStep (scripted script) v e p i w).1 = Panic InvalidReplacement
     ∨ (backrefStep (scripted script) v e p i w).1
       = Ok (scriptAnswer script h0 v e p i w.2).1).
Proof.
  intros Ht Hv. unfold backrefStep, scripted, scriptAnswer. simpl.
  destruct (script_kinds v e w.1 w.2 Ht) as [Hd Hu].
  destruct (applyAll_sameBut_always w.1 p i (script v e w.1 w.2).1.1 Hv w.1
              eq_refl) as [Hsb Hres].
  destruct (applyAll _ _ _) as [[[]| |] h1]; simpl in *;
    (split_and!; [done|done|]); destruct Hres as [Hres|Hres];
    try discriminate Hres.
  - right. by rewrite Hd.
  - left. congruence.
Qed.

Lemma gwalk_replacing t :
  ∀ fuel, depth t ≤ fuel →
  ∀ v p i tr (h : gmap addr node) (g : G),
    tagOf <$> h = tagOf <$> h0 →
    repr h t = true → NoDup (preorder t) → p ∉ preorder t →
    validSlot h p i →
    ∃ r log h' g',
      gwalk (backrefStep (scripted script)) fuel v (rootOf t) p i
        (tr, (h, g)) = (r, (tr ++ log, (h', g')))
      ∧ sameBut (preorder t) p i h h'
      ∧ (r = Panic InvalidReplacement
         ∨ (r = Ok tt
            ∧ log = (walkT (scriptAnswer script h0) v p i t g).1
            ∧ g' = (walkT (scriptAnswer script h0) v p i t g).2)).
Proof.
  induction t as [a kids IH] using tree_kids_ind.
  intros fuel Hf v p i tr h g Ht0 Hr Hnd Hp Hv.
  destruct fuel as [|fuel]; [simpl in Hf; lia|].
  pose proof Hr as Hr0.
  apply repr_inv in Hr as (c & Ha & Hc & Hkids).
  simpl in Hnd, Hp. apply NoDup_cons in Hnd as [Hroot Hndk].
  assert (Hpa : p ≠ ptr a).
  { intros ->. apply Hp, elem_of_cons. by left. }
  assert (Hpk : p ∉ flat_map preorder kids).
  { intros Hin. apply Hp, elem_of_cons. by right. }
  cbn [gwalk rootOf walkT fst snd].
  destruct (scripted_step_cases v (ptr a) p i (h, g) Ht0 Hv)
    as (Hsb & Hg & Hres).
  destruct (backrefStep (scripted script) v (ptr a) p i (h, g))
    as [r0 [h1 g1]]; cbn [fst snd] in Hsb, Hg, Hres. subst g1.
  destruct Hres as [->| ->].
  { exists (Panic InvalidReplacement), [ptr a], h1,
      (scriptAnswer script h0 v (ptr a) p i g).2.
    split_and!; [done| |by left].
    by apply (sameBut_subtree _ _ _ h h1 h1). }
  destruct (scriptAnswer script h0 v (ptr a) p i g) as [[w|] g1];
    cbn [fst snd].
  2:{ exists (Ok tt), [ptr a], h1, g1. split_and!; [done| |by right].
      by apply (sameBut_subtree _ _ _ h h1 h1). }
  assert (Ht1 : tagOf <$> h1 = tagOf <$> h0).
  { destruct Hsb as (Ht1 & _). by rewrite Ht1. }
  assert (Hag : ∀ x, ptr x ∈ ptr a :: flat_map preorder kids →
                     h1 !! x = h !! x).
  { intros x Hx. destruct Hsb as (_ & Ho & _). apply Ho.
    - by intros ?%elem_of_nil.
    - intros ->. by apply Hp. }
  assert (Ha1 : h1 !! a = Some c).
  { rewrite Hag; [done|]. apply elem_of_cons. by left. }
  assert (Hkids1 : Forall (λ k, repr h1 k = true) kids).
  { rewrite Forall_forall in Hkids. apply Forall_forall. intros k Hk.
    apply (repr_agree h); [|by apply Hkids]. intros x Hx. apply Hag.
    apply elem_of_cons. right. apply elem_of_flat_map. eauto. }
  destruct (NoDup_flat_map_parts _ _ Hndk) as [Hndkid _].
  assert (Hbody : ∀ k, k ∈ kids → ∀ j tr1 (hj : gmap addr node) (gj : G),
            tagOf <$> hj = tagOf <$> h1 →
            repr hj k = true → validSlot hj (ptr a) j →
            ∃ r log h' g',
              gwalk (backrefStep (scripted script)) fuel w (rootOf k)
                (ptr a) j (tr1, (hj, gj)) = (r, (tr1 ++ log, (h', g')))
              ∧ sameBut (preorder k) (ptr a) j hj h'
              ∧ (r = Panic InvalidReplacement
                 ∨ (r = Ok tt
                    ∧ log = (walkT (scriptAnswer script h0) w (ptr a) j k
                               gj).1
                    ∧ g' = (walkT (scriptAnswer script h0) w (ptr a) j k
                              gj).2))).
  { intros k Hk j tr1 hj gj Htj Hrk Hvk. rewrite Forall_forall in IH.
    apply IH; [done| |by rewrite Htj|done|by apply Hndkid| |done].
    - pose proof (depth_kid k kids Hk). simpl in Hf. lia.
    - intros Hin. apply Hroot. apply elem_of_flat_map. eauto. }
  rewrite Ha1. unfold childrenOf in Hc.
  destruct (shapeOf c) as [e|sel s| |] eqn:Hshape; [| | |done].
  - destruct kids as [|k [|]]; simplify_eq/=.
    assert (Hk : k ∈ [k]) by (apply elem_of_cons; by left).
    destruct (Hbody k Hk 0 (tr ++ [ptr a]) h1 g1 eq_refl)
      as (r & log & h2 & g2 & Hw & Hsb2 & Hres).
    { by apply Forall_inv in Hkids1. }
    { exists c, [rootOf k]. unfold childrenOf. rewrite Hshape.
      split_and!; [done..|simpl; lia]. }
    rewrite Hw. exists r, (ptr a :: log), h2, g2.
    split_and!; [by rewrite <- app_assoc| |].
    + destruct Hsb2 as (Ht2 & Ho2 & _).
      apply (sameBut_subtree _ _ _ h h1 h2); [done..|].
      intros x Hx. apply Ho2.
      * intros Hin. apply Hx, elem_of_cons. right. apply elem_of_app.
        by left.
      * intros [= ->]. apply Hx, elem_of_cons. by left.
    + destruct Hres as [->|(-> & -> & ->)]; [by left|right].
      by rewrite app_nil_r.
  - simplify_eq/=.
    destruct (rangeFrom_replacing
                (λ e0 j, gwalk (backrefStep (scripted script)) fuel w e0
                           (ptr a) j)
                (λ j k, walkT (scriptAnswer script h0) w (ptr a) j k)
                sel a c (map rootOf kids) kids h1 Ha1 Hshape
                eq_refl Hndk Hroot Hkids1 Hbody kids [] eq_refl
                (tr ++ [ptr a]) h1 g1 eq_refl)
      as (r & log & h2 & g2 & Hw & Ht2 & Ho2 & Hres); [done..|].
    simpl in Hw, Hres. rewrite Hw. exists r, (ptr a :: log), h2, g2.
    split_and!; [by rewrite <- app_assoc| |].
    + apply (sameBut_subtree _ _ _ h h1 h2); [done..|].
      intros x Hx. apply Ho2.
      * intros Hin. apply Hx, elem_of_cons. by right.
      * intros ->. apply Hx, elem_of_cons. by left.
    + destruct Hres as [->|(-> & -> & ->)]; [by left|by right].
  - destruct kids; simplify_eq/=.
    exists (Ok tt), [ptr a], h1, g1. split_and!; [done| |by right].
    by apply (sameBut_subtree _ _ _ h h1 h1).
Qed.
End replacing.

(** X10: replacing nodes does not redirect the walk that does it.  Take a
    tree with distinct nodes and a visitor that writes the tree through
    its replacer only (any number of calls, any expressions) and whose
    continuation and next state depend on the heap through the kinds of
    its nodes at most, so not on what the replacements install; they may
    depend on the visitor's state.  Then [Walk] either returns or fails
    with the invalid-replacement fault (a non-Rule written to a slot of a
    Grammar).  If it returns, its visits and final state are those of the
    tree as it was when the walk started, in pre-order and pruned where
    the visitor stops: never a node that was installed during the walk.
    In both cases, the cells outside the tree are left as they were, and
    every cell keeps its kind and its number of children. *)
Theorem replacing_never_redirects_the_walk {V G : Type}
    (script : V → Expression → gmap addr node → G
                → list Expression * option V * G)
    (h : gmap addr node) :
  (∀ v e (h1 : gmap addr node) g,
     tagOf <$> h1 = tagOf <$> h →
     (script v e h1 g).1.2 = (script v e h g).1.2
     ∧ (script v e h1 g).2 = (script v e h g).2) →
  ∀ t, repr h t = true → NoDup (preorder t) →
  ∀ fuel, depth t ≤ fuel →
  ∀ v tr (g : G), ∃ r log h' g',
    BackrefWalk.Walk (scripted script) fuel v (rootOf t) (tr, (h, g))
      = (r, (tr ++ log, (h', g')))
    ∧ (∀ a, ptr a ∉ preorder t → h' !! a = h !! a)
    ∧ tagOf <$> h' = tagOf <$> h
    ∧ (r = Panic InvalidReplacement
       ∨ (r = Ok tt
          ∧ log = (walkT (scriptAnswer script h) v nilExpr 0 t g).1
          ∧ g' = (walkT (scriptAnswer script h) v nilExpr 0 t g).2)).
Proof.
  intros Hkinds t Hr Hnd fuel Hf v tr g.
  unfold BackrefWalk.Walk. rewrite walk0_gwalk.
  destruct (gwalk_replacing script h Hkinds t fuel Hf v nilExpr 0 tr h g
              eq_refl Hr Hnd) as (r & log & h' & g' & Hw & Hsb & Hres);
    [|done|].
  { destruct t as [a kids]. simpl. intros [Hx|Hx]%elem_of_cons; [done|].
    apply elem_of_flat_map in Hx as (k & _ & Hx). revert Hx. clear.
    induction k as [b ks IHk] using tree_kids_ind. simpl.
    intros [Hx|Hx]%elem_of_cons; [done|].
    apply elem_of_flat_map in Hx as (k' & Hk' & Hx).
    rewrite Forall_forall in IHk. by apply (IHk k'). }
  exists r, log, h', g'. destruct Hsb as (Ht & Ho & _).
  split_and!; [done| |done..]. intros a Ha. by apply Ho.
Qed.

Lemma replacing_never_redirects_the_walk_witness :
  ∃ r log h' g',
    BackrefWalk.Walk (scripted (twiceScript (ptr 1) (ptr 9))) 5 tt (ptr 0)
      ([], (heapGrammar, 0)) = (r, ([] ++ log, (h', g')))
    ∧ (∀ a, ptr a ∉ preorder treeGrammar → h' !! a = heapGrammar !! a)
    ∧ tagOf <$> h' = tagOf <$> heapGrammar
    ∧ (r = Panic InvalidReplacement
       ∨ (r = Ok tt
          ∧ log = (walkT (scriptAnswer (twiceScript (ptr 1) (ptr 9))
                            heapGrammar) tt nilExpr 0 treeGrammar 0).1
          ∧ g' = (walkT (scriptAnswer (twiceScript (ptr 1) (ptr 9))
                           heapGrammar) tt nilExpr 0 treeGrammar 0).2)).
Proof.
  apply (replacing_never_redirects_the_walk (twiceScript (ptr 1) (ptr 9))
           heapGrammar
           ltac:(intros v e h1 g Ht; unfold twiceScript;
                 destruct e as [|a]; [done|];
                 assert (Hr : tagOf <$> h1 !! a = tagOf <$> heapGrammar !! a)
                   by (by rewrite <- !lookup_fmap, Ht);
                 destruct (h1 !! a) as [[]|], (heapGrammar !! a) as [[]|];
                 simpl in Hr; try discriminate Hr; done)
           treeGrammar ltac:(vm_compute; reflexivity)
           ltac:(apply (bool_decide_unpack _); vm_compute; exact I)
           5 ltac:(vm_compute; lia) tt [] 0).
Defined.

Example replacing_walk_runs :
  BackrefWalk.Walk (scripted (twiceScript (ptr 1) (ptr 9))) 5 tt (ptr 0)
    ([], (heapGrammar, 0))
  = (Ok tt,
     ([ptr 0; ptr 1; ptr 2; ptr 5; ptr 6; ptr 7; ptr 3; ptr 4; ptr 8; ptr 9],
      (<[2 := ChoiceExpr [ptr 9; ptr 9; ptr 7]]>
         (<[4 := SeqExpr [ptr 9; ptr 9]]> heapGrammar), 3))).
Proof. vm_compute. reflexivity. Qed.

(** ** A replacement and the walks made after it *)

Lemma map_rootOf_insert kids i (k' : tree) :
  map rootOf (<[i := k']> kids) = <[i := rootOf k']> (map rootOf kids).
Proof.
  revert i. induction kids as [|k kids IH]; intros [|i]; simpl; try done.
  by rewrite IH.
Qed.

(** X11: a replacement shows in the walks made after it.  In a tree
    without cycles, replacing child [i] of a node by the root of another
    tree (a Rule when the node is a Grammar) returns, and the heap then
    holds the tree with that subtree in place of the old one and the
    siblings as before: a full walk from the node then visits the new
    subtree at position [i], and no longer the old one. *)
Theorem replaced_subtree_is_walked_next
    (h : gmap addr node) (a : addr) (kids : list tree) (i : nat) (k' : tree)
    (fuel : nat) (tr : list Expression) :
  repr h (Tree a kids) = true →
  i < length kids →
  repr h k' = true →
  ptr a ∉ flat_map preorder kids →
  ptr a ∉ preorder k' →
  (∀ s, h !! a = Some (Grammar s) → isRule h (rootOf k') = true) →
  depth (Tree a (<[i := k']> kids)) ≤ fuel →
  ∃ h', replacerOf h (ptr a) i (rootOf k') h = (Ok tt, h')
        ∧ repr h' (Tree a (<[i := k']> kids)) = true
        ∧ BackrefWalk.Walk visitAll fuel tt (ptr a) (tr, (h', tt))
          = (Ok tt, (tr ++ preorder (Tree a (<[i := k']> kids)), (h', tt))).
Proof.
  intros Hr Hi Hk' Ha Hak' Hrule Hf.
  pose proof Hr as Hr0. apply repr_inv in Hr as (c & Hc & Hch & Hkids).
  destruct (replacerOf_writes h a c (map rootOf kids) i (rootOf k') Hc Hch)
    as (c' & Hw & Hch' & _).
  { by rewrite length_map. }
  { intros s ->. by apply (Hrule s). }
  exists (<[a := c']> h).
  assert (Hrepr : repr (<[a := c']> h) (Tree a (<[i := k']> kids)) = true).
  { simpl. rewrite lookup_insert_eq. simpl. rewrite Hch'.
    apply andb_true_intro. split.
    - apply bool_decide_eq_true. by rewrite map_rootOf_insert.
    - apply forallb_forall. intros k Hk%list_elem_of_In.
      assert (Hcase : k = k' ∨ k ∈ kids).
      { apply list_elem_of_lookup in Hk as [j Hj].
        destruct (decide (i = j)) as [->|Hne].
        - rewrite list_lookup_insert_eq in Hj by done. left. congruence.
        - rewrite list_lookup_insert_ne in Hj by done. right.
          apply list_elem_of_lookup. eauto. }
      destruct Hcase as [->|Hin].
      + apply (repr_agree h); [|done]. intros x Hx.
        apply lookup_insert_ne. intros ->. by apply Hak'.
      + apply (repr_agree h).
        * intros x Hx. apply lookup_insert_ne. intros ->. apply Ha.
          apply elem_of_flat_map. eauto.
        * rewrite Forall_forall in Hkids. by apply Hkids. }
  split_and!; [done..|].
  unfold BackrefWalk.Walk. rewrite walk0_gwalk.
  destruct (gwalk_trav (backrefStep visitAll) (λ _ _, Some tt)
              (<[a := c']> h)) with
    (t := Tree a (<[i := k']> kids)) (fuel := fuel) (v := tt)
    (p := nilExpr) (i := 0) (tr := tr) (g := tt) as [[] Hg]; [|done..|].
  { intros [] e p j []. by exists tt. }
  change (ptr a) with (rootOf (Tree a (<[i := k']> kids))).
  rewrite Hg. rewrite trav_full; [done|]. intros; by eexists.
Qed.

Lemma replaced_subtree_is_walked_next_witness :
  ∃ h', replacerOf heapGrammar (ptr 2) 1 (ptr 8) heapGrammar = (Ok tt, h')
        ∧ repr h' (Tree 2 (<[1 := Tree 8 []]>
                             [Tree 5 []; Tree 6 []; Tree 7 []])) = true
        ∧ BackrefWalk.Walk visitAll 3 tt (ptr 2) ([], (h', tt))
          = (Ok tt, ([] ++ [ptr 2; ptr 5; ptr 8; ptr 7], (h', tt))).
Proof.
  apply (replaced_subtree_is_walked_next heapGrammar 2
           [Tree 5 []; Tree 6 []; Tree 7 []] 1 (Tree 8 []) 3 []
           ltac:(vm_compute; reflexivity) ltac:(simpl; lia)
           ltac:(vm_compute; reflexivity)
           ltac:(apply (bool_decide_unpack _); vm_compute; exact I)
           ltac:(apply (bool_decide_unpack _); vm_compute; exact I)
           ltac:(intros s Hs; vm_compute in Hs; discriminate Hs)
           ltac:(vm_compute; lia)).
Defined.

(** ** Panics of the visitor, nil children, and the parent in the Backref *)

(** X12: a panic raised by the visitor (or by a replacer it calls) ends
    the walk at once.  If the call of [Visit] at some node reached in the
    course of a walk panics, [Walk] as a whole panics with the same value;
    the node is the last one visited and the heap and state are those the
    visitor left: no sibling or later node is visited. *)
Theorem visitor_panic_ends_the_walk {V G : Type}
    (Visit : V → Expression → BackrefWalk.Backref → gmap addr node * G
               → res (option V) * (gmap addr node * G))
    (fuel : nat) (v : V) (root : Expression) (st : wstate G)
    (n : nat) (u : V) (e parent0 : Expression) (i : nat) (st' : wstate G)
    (q : panic) (w : gmap addr node * G) :
  subcall (backrefStep Visit) (mkCall fuel v root nilExpr 0 st)
    (mkCall (S n) u e parent0 i st') →
  Visit u e (BackrefWalk.mkBackref parent0 (replacerOf st'.2.1 parent0 i)) st'.2
    = (Panic q, w) →
  BackrefWalk.Walk Visit fuel v root st = (Panic q, (st'.1 ++ [e], w)).
Proof.
  intros Hsub Hvisit. unfold BackrefWalk.Walk. rewrite walk0_gwalk.
  apply (subcall_abort _ _ _ _ _ Hsub); [|done].
  unfold run. simpl. unfold backrefStep at 1. by rewrite Hvisit.
Qed.

Lemma visitor_panic_ends_the_walk_witness :
  BackrefWalk.Walk (failAt (ptr 2)) 5 tt (ptr 0) ([], (heapGrammar, tt))
  = (Panic VisitorPanic, ([ptr 0; ptr 1] ++ [ptr 2], (heapGrammar, tt))).
Proof.
  apply (visitor_panic_ends_the_walk (failAt (ptr 2)) 5 tt (ptr 0)
           ([], (heapGrammar, tt)) 2 tt (ptr 2) (ptr 1) 0
           ([ptr 0; ptr 1], (heapGrammar, tt)) VisitorPanic (heapGrammar, tt)).
  - apply (subcall_many (backrefStep (failAt (ptr 2))) 4 tt (ptr 0) nilExpr 0
             ([], (heapGrammar, tt)) tt (heapGrammar, tt) 0
             (Grammar [ptr 1; ptr 3]) selRules [ptr 1; ptr 3] 0 (ptr 1)
             ([ptr 0], (heapGrammar, tt)));
      [reflexivity..| |].
    + apply (iterates_here _ selRules 0 0 (ptr 1) [ptr 3]
               ([ptr 0], (heapGrammar, tt))).
    + apply (subcall_single (backrefStep (failAt (ptr 2))) 3 tt (ptr 1)
               (ptr 0) 0 ([ptr 0], (heapGrammar, tt)) tt (heapGrammar, tt) 1
               (Rule (ptr 2)) (ptr 2));
        [reflexivity..|apply subcall_here].
  - reflexivity.
Defined.

(** X13: a nil child is handed to the visitor like any other; the walker
    does not skip it.  When the single child of a node is nil and the
    visitor continues at the node, the next call is [Visit(nil)] with the
    back-reference of that slot; if the visitor continues there too the
    walk panics with the unknown-expression fault, and if it returns nil
    the walk goes on. *)
Theorem nil_child_is_visited {V G : Type}
    (Visit : V → Expression → BackrefWalk.Backref → gmap addr node * G
               → res (option V) * (gmap addr node * G))
    (n : nat) (v v' : V) (p : addr) (parent0 : Expression) (i : nat)
    (st : wstate G) (w w' : gmap addr node * G) (c : node) (o : option V) :
  Visit v (ptr p)
    (BackrefWalk.mkBackref parent0 (replacerOf st.2.1 parent0 i)) st.2
    = (Ok (Some v'), w) →
  w.1 !! p = Some c →
  shapeOf c = Single nilExpr →
  Visit v' nilExpr
    (BackrefWalk.mkBackref (ptr p) (replacerOf w.1 (ptr p) 0)) w
    = (Ok o, w') →
  BackrefWalk.walk0 Visit (S (S n)) v (ptr p) parent0 i st
  = (match o with
     | Some _ => Panic UnknownExpressionType
     | None => Ok tt
     end, (st.1 ++ [ptr p; nilExpr], w')).
Proof.
  intros Hv Hp Hc Hnil. rewrite walk0_gwalk.
  cbn [gwalk]. unfold backrefStep at 1. rewrite Hv. cbn [fst snd].
  rewrite Hp, Hc. unfold backrefStep at 1. cbn [fst snd]. rewrite Hnil.
  rewrite <- app_assoc. by destruct o.
Qed.

Lemma nil_child_is_visited_witness :
  BackrefWalk.walk0 visitAll 2 tt (ptr 0) nilExpr 0
    ([], (<[0 := Rule nilExpr]> ∅, tt))
  = (Panic UnknownExpressionType,
     ([] ++ [ptr 0; nilExpr], (<[0 := Rule nilExpr]> ∅, tt))).
Proof.
  apply (nil_child_is_visited visitAll 0 tt tt 0 nilExpr 0
           ([], (<[0 := Rule nilExpr]> ∅, tt))
           (<[0 := Rule nilExpr]> ∅, tt) (<[0 := Rule nilExpr]> ∅, tt)
           (Rule nilExpr) (Some tt));
    reflexivity.
Defined.

Lemma rangeFrom_noting {G : Type}
    (body : Expression → nat → wstate G → res unit * wstate G)
    (lst : tree → list Expression) (upd : tree → G → G)
    sel (h : gmap addr node) p c s :
  h !! p = Some c → sel c = Some s →
  ∀ ks, Forall (λ k, ∀ i tr g,
                  body (rootOf k) i (tr, (h, g))
                  = (Ok tt, (tr ++ lst k, (h, upd k g)))) ks →
  ∀ pre, s = pre ++ map rootOf ks →
  ∀ tr g,
    rangeFrom body sel p (length pre) (map rootOf ks) (tr, (h, g))
    = (Ok tt, (tr ++ flat_map lst ks,
               (h, foldl (λ g0 k, upd k g0) g ks))).
Proof.
  intros Hp Hs ks Hks.
  induction Hks as [|k ks Hk _ IH]; intros pre Hpre tr g; simpl.
  - by rewrite app_nil_r.
  - rewrite (elemAt_stable sel h p c s (length pre) (rootOf k)); [|done..|].
    2:{ subst s. simpl. by rewrite list_lookup_middle. }
    rewrite Hk.
    specialize (IH (pre ++ [rootOf k])). rewrite length_app in IH.
    simpl in IH. replace (length pre + 1) with (S (length pre)) in IH by lia.
    rewrite IH; [by rewrite app_assoc|].
    subst s. by rewrite <- app_assoc.
Qed.

Lemma gwalk_noting (h : gmap addr node) t :
  repr h t = true →
  ∀ fuel, depth t ≤ fuel →
  ∀ p i tr g,
    gwalk (backrefStep notingParents) fuel tt (rootOf t) p i (tr, (h, g))
    = (Ok tt, (tr ++ preorder t, (h, g ++ edges p t))).
Proof.
  induction t as [a kids IH] using tree_kids_ind.
  intros Hr fuel Hf p i tr g.
  destruct fuel as [|fuel]; [simpl in Hf; lia|].
  apply repr_inv in Hr as (c & Ha & Hc & Hkids).
  assert (IH' : Forall (λ k, ∀ p i tr g,
      gwalk (backrefStep notingParents) fuel tt (rootOf k) p i (tr, (h, g))
      = (Ok tt, (tr ++ preorder k, (h, g ++ edges p k)))) kids).
  { rewrite Forall_forall in IH, Hkids. apply Forall_forall.
    intros k Hk. apply IH; [done|by apply Hkids|].
    pose proof (depth_kid k kids Hk). simpl in Hf. lia. }
  clear IH. cbn [gwalk rootOf]. unfold backrefStep at 1, notingParents at 1.
  cbn [fst snd BackrefWalk.parent]. rewrite Ha. unfold childrenOf in Hc.
  destruct (shapeOf c) as [e|sel s| |] eqn:Hshape; [| | |done].
  - destruct kids as [|k [|]]; simplify_eq/=.
    apply Forall_inv in IH'. rewrite IH'.
    by rewrite !app_nil_r, <- !app_assoc.
  - simplify_eq/=.
    rewrite (rangeFrom_noting
               (λ e j, gwalk (backrefStep notingParents) fuel tt e (ptr a) j)
               preorder (λ k g0, g0 ++ edges (ptr a) k)
               sel h a c (map rootOf kids) Ha (shapeOf_Many _ _ _ Hshape)
               kids) with (pre := []); [|by eapply Forall_impl; [exact IH'|]
                                        |done].
    simpl. rewrite <- app_assoc. simpl. do 3 f_equal.
    replace (g ++ (ptr a, p) :: flat_map (edges (ptr a)) kids)
      with ((g ++ [(ptr a, p)]) ++ flat_map (edges (ptr a)) kids)
      by (by rewrite <- app_assoc).
    generalize (g ++ [(ptr a, p)]). clear.
    induction kids as [|k kids IHk]; intros g0; simpl.
    + by rewrite app_nil_r.
    + by rewrite IHk, <- app_assoc.
  - destruct kids; simplify_eq/=. done.
Qed.

(** X14: the back-reference names the parent.  On a tree, the [parent]
    field of the [Backref] handed with each node is the node whose child
    it is, and nil at the root: a visitor that notes the field at every
    visit ends with the list of the nodes in pre-order, each paired with
    its parent. *)
Theorem backref_names_the_parent
    (h : gmap addr node) (t : tree) (fuel : nat)
    (tr : list Expression) (g : list (Expression * Expression)) :
  repr h t = true →
  depth t ≤ fuel →
  BackrefWalk.Walk notingParents fuel tt (rootOf t) (tr, (h, g))
  = (Ok tt, (tr ++ preorder t, (h, g ++ edges nilExpr t))).
Proof.
  intros Hr Hf. unfold BackrefWalk.Walk. rewrite walk0_gwalk.
  by apply gwalk_noting.
Qed.

Lemma backref_names_the_parent_witness :
  BackrefWalk.Walk notingParents 5 tt (ptr 0) ([], (heapGrammar, []))
  = (Ok tt,
     ([] ++ preorder treeGrammar,
      (heapGrammar,
       [] ++ [(ptr 0, nilExpr); (ptr 1, ptr 0); (ptr 2, ptr 1);
              (ptr 5, ptr 2); (ptr 6, ptr 2); (ptr 7, ptr 2);
              (ptr 3, ptr 0); (ptr 4, ptr 3); (ptr 8, ptr 4);
              (ptr 9, ptr 4)]))).
Proof.
  apply (backref_names_the_parent heapGrammar treeGrammar 5 [] []
           ltac:(vm_compute; reflexivity) ltac:(vm_compute; lia)).
Defined.

(** ** Replacements that respect the typing of Grammars never fail *)

Lemma replacerOf_ok (h0 h : gmap addr node) parent0 i e :
  validSlot h0 parent0 i → tagOf <$> h = tagOf <$> h0 →
  (∀ q s, parent0 = ptr q → h0 !! q = Some (Grammar s) → isRule h e = true) →
  (replacerOf h0 parent0 i e h).1 = Ok tt.
Proof.
  intros Hv Ht Hrule.
  destruct (replacerOf_sameBut h0 h parent0 i e Hv Ht) as [Hp|[Hok _]];
    [|done].
  exfalso. destruct parent0 as [|p]; [done|]. simpl in *.
  destruct Hv as (c & es & Hc & _). rewrite Hc in Hp.
  destruct c; simpl in Hp; try done.
  - unfold setAlternative, setIndex in Hp.
    destruct (h !! p) as [[]|]; try done. by case_decide.
  - unfold setRule, setIndex in Hp. rewrite (Hrule p _ eq_refl Hc) in Hp.
    destruct (h !! p) as [[]|]; try done. by case_decide.
  - unfold setSeqElem, setIndex in Hp.
    destruct (h !! p) as [[]|]; try done. by case_decide.
Qed.

Lemma applyAll_ok (h0 : gmap addr node) parent0 i es :
  validSlot h0 parent0 i →
  ∀ h, tagOf <$> h = tagOf <$> h0 →
    (∀ q s, parent0 = ptr q → h0 !! q = Some (Grammar s) →
            Forall (λ e, isRule h0 e = true) es) →
    (applyAll (replacerOf h0 parent0 i) es h).1 = Ok tt.
Proof.
  intros Hv. induction es as [|e es IH]; intros h Ht Hrule; simpl; [done|].
  assert (Hok : (replacerOf h0 parent0 i e h).1 = Ok tt).
  { apply replacerOf_ok; [done..|]. intros q s Hq Hg.
    specialize (Hrule q s Hq Hg). apply Forall_inv in Hrule.
    by rewrite (tagOf_isRule h h0 e Ht). }
  pose proof (replacerOf_props h0 h parent0 i e) as (_ & _ & _ & Htag).
  assert (H1 : tagOf <$> (replacerOf h0 parent0 i e h).2 = tagOf <$> h0).
  { rewrite Htag; [done|]. intros p _. by rewrite <- !lookup_fmap, Ht. }
  destruct (replacerOf h0 parent0 i e h) as [r h1]; simpl in *. subst r.
  apply IH; [done|]. intros q s Hq Hg. specialize (Hrule q s Hq Hg).
  by apply Forall_inv_tail in Hrule.
Qed.

Section typed_scripts.
Context {V G : Type}.
Variable script :
  V → Expression → gmap addr node → G → list Expression * option V * G.
(** The kinds and arities of the heap the walk starts in. *)
Variable T : gmap addr node.
(** Handed a Rule, the visitor passes Rules only to its replacer; this
    is asked of it in the heaps a walk can be in: those with the kinds
    and arities [T] in which the Rules slices hold Rules only. *)
Hypothesis script_rules : ∀ v e (h : gmap addr node) g,
  tagOf <$> h = T → grammarTyped h →
  isRule h e = true → Forall (λ x, isRule h x = true) (script v e h g).1.1.

Lemma scripted_step_typed v e p i (w : gmap addr node * G) :
  grammarTyped w.1 →
  grammarTyped (backrefStep (scripted script) v e p i w).2.1.
Proof.
  intros Hw. unfold backrefStep, scripted. simpl.
  pose proof (applyAll_typed w.1 p i (script v e w.1 w.2).1.1 w.1
                eq_refl Hw) as H.
  by destruct (applyAll _ _ _) as [[[]| |] h1].
Qed.

Lemma scripted_step_ok v e p i (w : gmap addr node * G) :
  tagOf <$> w.1 = T → grammarTyped w.1 →
  validSlot w.1 p i →
  (∀ q s, p = ptr q → w.1 !! q = Some (Grammar s) → isRule w.1 e = true) →
  ∃ o, (backrefStep (scripted script) v e p i w).1 = Ok o.
Proof.
  intros HT Hty Hv Hrule. unfold backrefStep, scripted. simpl.
  pose proof (applyAll_ok w.1 p i (script v e w.1 w.2).1.1 Hv w.1 eq_refl)
    as Hok.
  destruct (applyAll _ _ _) as [r h1]; simpl in *.
  rewrite Hok; [by eexists|].
  intros q s Hq Hg. apply script_rules; [done..|]. by eapply Hrule.
Qed.

Lemma gwalk_typed_ok fuel :
  ∀ v e p i (st : wstate G),
    tagOf <$> st.2.1 = T →
    grammarTyped st.2.1 → validSlot st.2.1 p i →
    (∀ q s, p = ptr q → st.2.1 !! q = Some (Grammar s) →
            isRule st.2.1 e = true) →
    (gwalk (backrefStep (scripted script)) fuel v e p i st).1
      ≠ Panic InvalidReplacement.
Proof.
  induction fuel as [|fuel IH]; intros v e p i st HT Hty Hv Hrule; [done|].
  simpl.
  destruct (scripted_step_ok v e p i st.2 HT Hty Hv Hrule) as [o Ho].
  pose proof (scripted_step_typed v e p i st.2 Hty) as Hty1.
  pose proof (scripted_step_tags script v e p i st.2) as Htg1.
  destruct (backrefStep (scripted script) v e p i st.2) as [r w];
    simpl in *. subst r. destruct o as [v'|]; [|done].
  destruct e as [|a]; [done|].
  destruct (w.1 !! a) as [c|] eqn:Ha; [|done].
  destruct (shapeOf c) as [e1|sel s| |] eqn:Hshape; simpl; try done.
  - apply IH; simpl; [by rewrite Htg1|done| |].
    + exists c, [e1]. unfold childrenOf. rewrite Hshape.
      split_and!; [done..|simpl; lia].
    + intros q s0 [= <-] Hg. rewrite Ha in Hg. injection Hg as ->.
      discriminate Hshape.
  - assert (Hrange : ∀ snap j (st1 : wstate G),
        j + length snap = length s →
        tagOf <$> st1.2.1 = tagOf <$> w.1 →
        grammarTyped st1.2.1 →
        (rangeFrom (λ e0 i0, gwalk (backrefStep (scripted script)) fuel v'
                               e0 (ptr a) i0) sel a j snap st1).1
          ≠ Panic InvalidReplacement).
    { induction snap as [|e0 snap IHs]; intros j st1 Hj Ht Hty2; simpl;
        [done|].
      assert (Hslot : validSlot st1.2.1 (ptr a) j).
      { apply (validSlot_tags w.1); [done|]. simpl. exists c, s.
        unfold childrenOf. rewrite Hshape. simpl in Hj.
        split_and!; [done..|lia]. }
      assert (Hel : ∀ q s0, ptr a = ptr q →
                st1.2.1 !! q = Some (Grammar s0) →
                isRule st1.2.1 (elemAt sel st1.2.1 a j e0) = true).
      { intros q s0 [= <-] Hg.
        destruct (lookup_tags w.1 st1.2.1 a c Ht Ha) as (c1 & Ha1 & Hc1).
        rewrite Ha1 in Hg. injection Hg as ->.
        destruct (tagOf_shape_Many c (Grammar s0) sel s Hc1 Hshape)
          as (s1 & Hs1). simpl in Hs1. injection Hs1 as <- <-.
        unfold elemAt. rewrite Ha1. simpl.
        assert (Hlen : length s0 = length s).
        { destruct (tagOf_children c (Grammar s0) s) as (es' & He' & Hl).
          - done.
          - unfold childrenOf. by rewrite Hshape.
          - unfold childrenOf in He'. simpl in He'. by injection He' as <-. }
        destruct (lookup_lt_is_Some_2 s0 j) as [x Hx]; [simpl in Hj; lia|].
        rewrite Hx. simpl. specialize (Hty2 a s0 Ha1).
        rewrite Forall_forall in Hty2. apply Hty2.
        apply list_elem_of_lookup. eauto. }
      assert (HT1 : tagOf <$> st1.2.1 = T) by (by rewrite Ht, Htg1).
      pose proof (IH v' (elemAt sel st1.2.1 a j e0) (ptr a) j st1 HT1 Hty2
                    Hslot Hel) as Hb.
      pose proof (gwalk_frame (backrefStep (scripted script))
                    (λ w0, tagOf <$> w0.1)
                    (scripted_step_tags script) fuel v'
                    (elemAt sel st1.2.1 a j e0) (ptr a) j st1) as Hf.
      pose proof (gwalk_invariant (backrefStep (scripted script))
                    (λ w0, grammarTyped w0.1)
                    (λ v0 e1 p0 i0 w0, scripted_step_typed v0 e1 p0 i0 w0)
                    fuel v' (elemAt sel st1.2.1 a j e0) (ptr a) j st1 Hty2)
        as Hg.
      destruct (gwalk _ fuel v' _ (ptr a) j st1) as [[[]| |] st2];
        simpl in *; try done.
      apply IHs; [lia|by rewrite Hf|done]. }
    by apply Hrange.
Qed.
End typed_scripts.

(** X15: replacements that respect the typing never fail.  If every
    element of every [Rules] slice is a [*Rule] when the walk starts, and
    the visitor writes the tree through its replacer only and passes it
    Rules whenever the node it is handed is a Rule - this is asked of it
    in the heaps a walk can be in, those with the kinds and arities of the
    start in which the Rules slices hold Rules only - then no call of
    a replacer panics: [Walk] does not end in the invalid-replacement
    fault (nor in an index or nil-replacer fault). *)
Theorem typed_replacements_never_fail {V G : Type}
    (script : V → Expression → gmap addr node → G
                → list Expression * option V * G)
    (fuel : nat) (v : V) (root : Expression) (st : wstate G) :
  (∀ v e (h : gmap addr node) g,
     tagOf <$> h = tagOf <$> st.2.1 → grammarTyped h →
     isRule h e = true →
     Forall (λ x, isRule h x = true) (script v e h g).1.1) →
  grammarTyped st.2.1 →
  (BackrefWalk.Walk (scripted script) fuel v root st).1
    ≠ Panic InvalidReplacement
  ∧ (BackrefWalk.Walk (scripted script) fuel v root st).1
    ≠ Panic IndexOutOfRange
  ∧ (BackrefWalk.Walk (scripted script) fuel v root st).1
    ≠ Panic NilFuncCall.
Proof.
  intros Hscript Hty. unfold BackrefWalk.Walk. rewrite walk0_gwalk.
  pose proof (gwalk_scripted_safe script fuel v root nilExpr 0 st I) as H.
  split_and!.
  - by apply (gwalk_typed_ok script (tagOf <$> st.2.1) Hscript).
  - by destruct (gwalk _ _ _ _ _ _ _).1 as [|[]|].
  - by destruct (gwalk _ _ _ _ _ _ _).1 as [|[]|].
Qed.

Lemma typed_replacements_never_fail_witness :
  (BackrefWalk.Walk (scripted (replaceBy sampleChoice)) 5 tt (ptr 0)
     ([], (heapGrammar, tt))).1 ≠ Panic InvalidReplacement
  ∧ (BackrefWalk.Walk (scripted (replaceBy sampleChoice)) 5 tt (ptr 0)
       ([], (heapGrammar, tt))).1 ≠ Panic IndexOutOfRange
  ∧ (BackrefWalk.Walk (scripted (replaceBy sampleChoice)) 5 tt (ptr 0)
       ([], (heapGrammar, tt))).1 ≠ Panic NilFuncCall.
Proof.
  apply (typed_replacements_never_fail (replaceBy sampleChoice) 5 tt
           (ptr 0) ([], (heapGrammar, tt))).
  - intros v e h g Ht _ He.
    rewrite (tagOf_isRule h heapGrammar e Ht) in He.
    apply Forall_forall. intros x Hx.
    rewrite (tagOf_isRule h heapGrammar x Ht).
    unfold replaceBy in Hx. simpl in Hx.
    destruct e as [|[|[|[|[|[|[|a]]]]]]]; simpl in Hx;
      try (by apply elem_of_nil in Hx);
      apply list_elem_of_singleton in Hx; subst x;
      vm_compute in He; try discriminate He; reflexivity.
  - apply grammarTypedB_sound. vm_compute. reflexivity.
Defined.

(** With these replacements the walk writes a slot of the Grammar: the
    Rule [ptr 3] hands [ptr 1], a Rule, to its replacer. *)
Example typed_replacement_writes_the_grammar :
  (BackrefWalk.Walk (scripted (replaceBy sampleChoice)) 5 tt (ptr 0)
     ([], (heapGrammar, tt))).2.2.1 !! 0
  = Some (Grammar [ptr 1; ptr 1]).
Proof. vm_compute. reflexivity. Qed.

(** ** Rewriting a tree node by node *)

Lemma slotOf_validSlot (h : gmap addr node) q i e :
  slotOf h q i = Some e → validSlot h (ptr q) i.
Proof.
  unfold slotOf. simpl. destruct (h !! q) as [c|]; [|done]. simpl.
  destruct (childrenOf c) as [es|] eqn:Hc; [|done]. simpl. intros Hi.
  exists c, es. split_and!; [done..|]. by eapply lookup_lt_Some.
Qed.

Lemma replacerOf_slot (h : gmap addr node) q i e :
  validSlot h (ptr q) i →
  (replacerOf h (ptr q) i e h).1 = Ok tt →
  slotOf (replacerOf h (ptr q) i e h).2 q i = Some e.
Proof.
  simpl. intros (c & es & Hc & Hch & Hi). rewrite Hc.
  unfold childrenOf in Hch.
  destruct c; simpl in *; simplify_eq/=; try lia;
    try (assert (i = 0) as -> by lia; intros _; unfold slotOf, childrenOf;
         by rewrite lookup_insert_eq).
  - unfold setAlternative, setIndex. rewrite Hc, decide_True by done.
    intros _. simpl. unfold slotOf, childrenOf. rewrite lookup_insert_eq.
    simpl. by apply list_lookup_insert_eq.
  - unfold setRule, setIndex. destruct (isRule h e); [|done].
    rewrite Hc, decide_True by done.
    intros _. simpl. unfold slotOf, childrenOf. rewrite lookup_insert_eq.
    simpl. by apply list_lookup_insert_eq.
  - unfold setSeqElem, setIndex. rewrite Hc, decide_True by done.
    intros _. simpl. unfold slotOf, childrenOf. rewrite lookup_insert_eq.
    simpl. by apply list_lookup_insert_eq.
Qed.

Section rewriting.
Context {G : Type}.
Variable F : Expression → option Expression.

Lemma rewriting_step_cases e p i (w : gmap addr node * G) :
  validSlot w.1 p i →
  (backrefStep (scripted (replaceBy F)) tt e p i w).1
    = Panic InvalidReplacement
  ∨ ((backrefStep (scripted (replaceBy F)) tt e p i w).1 = Ok (Some tt)
     ∧ (backrefStep (scripted (replaceBy F)) tt e p i w).2.2 = w.2
     ∧ sameBut [] p i w.1 (backrefStep (scripted (replaceBy F)) tt e p i w).2.1
     ∧ (∀ q, p = ptr q → slotOf w.1 q i = Some e →
             slotOf (backrefStep (scripted (replaceBy F)) tt e p i w).2.1 q i
             = Some (replaced F e))).
Proof.
  intros Hv. unfold backrefStep, scripted, replaceBy, replaced. simpl.
  destruct (F e) as [e'|]; simpl.
  - pose proof (replacerOf_sameBut w.1 w.1 p i e' Hv eq_refl) as Hcases.
    assert (Hslot : ∀ q, p = ptr q →
              (replacerOf w.1 p i e' w.1).1 = Ok tt →
              slotOf (replacerOf w.1 p i e' w.1).2 q i = Some e').
    { intros q ->. by apply replacerOf_slot. }
    destruct (replacerOf w.1 p i e' w.1) as [[[]| |] h1]; simpl in *.
    + right. destruct Hcases as [|[_ Hsb]]; [done|].
      split_and!; [done..|]. intros q Hq _. by apply Hslot.
    + left. destruct Hcases as [Hp|[Hp _]]; congruence.
    + destruct Hcases as [|[]]; done.
  - right. split_and!; [done..|apply sameBut_refl|]. by intros q _ ->.
Qed.

Lemma rangeFrom_rewriting
    (body : Expression → nat → wstate G → res unit * wstate G)
    sel a c s kids (h1 : gmap addr node) :
  h1 !! a = Some c → shapeOf c = Many sel s → s = map rootOf kids →
  NoDup (flat_map preorder kids) → ptr a ∉ flat_map preorder kids →
  Forall (λ k, repr h1 k = true) kids →
  (∀ k, k ∈ kids → ∀ j tr hj gj,
     repr hj k = true → slotOf hj a j = Some (rootOf k) →
     ∃ r log h',
       body (rootOf k) j (tr, (hj, gj)) = (r, (tr ++ log, (h', gj)))
       ∧ (r = Panic InvalidReplacement
          ∨ (r = Ok tt ∧ log = preorder k
             ∧ sameBut (preorder k) (ptr a) j hj h'
             ∧ (∀ x j', ptr x ∈ preorder k →
                        slotOf h' x j' = replaced F <$> slotOf hj x j')
             ∧ slotOf h' a j = Some (replaced F (rootOf k))))) →
  ∀ ks pre, kids = pre ++ ks →
  ∀ tr hj gj,
    tagOf <$> hj = tagOf <$> h1 →
    (∀ x, ptr x ∉ flat_map preorder pre → x ≠ a → hj !! x = h1 !! x) →
    (∀ j', length pre ≤ j' → slotOf hj a j' = slotOf h1 a j') →
    (∀ j', j' < length pre →
           slotOf hj a j' = replaced F <$> slotOf h1 a j') →
    (∀ x j', ptr x ∈ flat_map preorder pre →
             slotOf hj x j' = replaced F <$> slotOf h1 x j') →
    ∃ r log h',
      rangeFrom body sel a (length pre) (map rootOf ks) (tr, (hj, gj))
        = (r, (tr ++ log, (h', gj)))
      ∧ (r = Panic InvalidReplacement
         ∨ (r = Ok tt ∧ log = flat_map preorder ks
            ∧ tagOf <$> h' = tagOf <$> h1
            ∧ (∀ x, ptr x ∉ flat_map preorder kids → x ≠ a →
                    h' !! x = h1 !! x)
            ∧ (∀ j', j' < length kids →
                     slotOf h' a j' = replaced F <$> slotOf h1 a j')
            ∧ (∀ x j', ptr x ∈ flat_map preorder kids →
                       slotOf h' x j' = replaced F <$> slotOf h1 x j'))).
Proof.
  intros Ha Hshape Hs Hnd Hroot Hrepr Hbody.
  induction ks as [|k ks IH];
    intros pre Hkids tr hj gj Ht Hcells Hslots Hdone Hdown.
  - simpl. exists (Ok tt), [], hj. rewrite app_nil_r.
    split; [done|]. right. rewrite app_nil_r in Hkids. subst pre.
    by split_and!.
  - simpl.
    assert (Hk : k ∈ kids).
    { subst kids. apply elem_of_app. right. apply elem_of_cons. by left. }
    assert (Hslot1 : slotOf h1 a (length pre) = Some (rootOf k)).
    { unfold slotOf, childrenOf. rewrite Ha. simpl. rewrite Hshape. simpl.
      subst s kids. rewrite map_app. simpl.
      rewrite <- (length_map rootOf pre). apply list_lookup_middle. done. }
    destruct (lookup_tags h1 hj a c Ht Ha) as (cj & Haj & Hcj).
    destruct (tagOf_shape_Many c cj sel s Hcj Hshape) as (sj & Hshj).
    rewrite (elemAt_of_slot hj a cj sel sj (length pre) (rootOf k));
      [|done..|by rewrite Hslots].
    assert (Hsplit : NoDup (flat_map preorder pre ++ preorder k
                            ++ flat_map preorder ks)).
    { subst kids. rewrite flat_map_app in Hnd. exact Hnd. }
    apply NoDup_app in Hsplit as (_ & Hdisj & Hrest).
    assert (Hkroot : ∀ x, ptr x ∈ preorder k → x ≠ a).
    { intros x Hx ->. apply Hroot. apply elem_of_flat_map. eauto. }
    assert (Hkpre : ∀ x, ptr x ∈ preorder k →
              ptr x ∉ flat_map preorder pre).
    { intros x Hx Hin. apply (Hdisj _ Hin). apply elem_of_app. by left. }
    assert (Hreprk : repr hj k = true).
    { apply (repr_agree h1).
      - intros x Hx. apply Hcells; [by apply Hkpre|by apply Hkroot].
      - rewrite Forall_forall in Hrepr. by apply Hrepr. }
    destruct (Hbody k Hk (length pre) tr hj gj Hreprk)
      as (r & log & h' & -> & [->|(-> & -> & Hsb & Hin & Hat)]).
    { by rewrite Hslots. }
    { exists (Panic InvalidReplacement), log, h'. split; [done|by left]. }
    destruct Hsb as (Ht' & Ho' & Hs').
    assert (Hnotk : ptr a ∉ preorder k) by (intros Hx; by apply (Hkroot a)).
    destruct (IH (pre ++ [k])) with
      (tr := tr ++ preorder k) (hj := h') (gj := gj)
      as (r & log & h2 & Hrange & Hres).
    + by rewrite <- app_assoc.
    + by rewrite Ht'.
    + intros x Hx Hxa. rewrite flat_map_app in Hx. simpl in Hx.
      rewrite app_nil_r in Hx.
      rewrite Ho'; [|intros Hi; apply Hx, elem_of_app; by right|congruence].
      apply Hcells; [|done]. intros Hi. apply Hx, elem_of_app. by left.
    + intros j' Hj'. rewrite length_app in Hj'. simpl in Hj'.
      rewrite (Hs' a j'); [apply Hslots; lia|done..|lia].
    + intros j' Hj'. rewrite length_app in Hj'. simpl in Hj'.
      destruct (decide (j' = length pre)) as [->|Hne].
      * by rewrite Hat, Hslot1.
      * rewrite (Hs' a j'); [apply Hdone; lia|done..].
    + intros x j' Hx. rewrite flat_map_app in Hx. simpl in Hx.
      rewrite app_nil_r in Hx. apply elem_of_app in Hx as [Hx|Hx].
      * assert (Hxa : x ≠ a).
        { intros ->. apply Hroot. subst kids. rewrite flat_map_app.
          apply elem_of_app. by left. }
        assert (Hxk : ptr x ∉ preorder k).
        { intros Hi. by apply (Hkpre x). }
        rewrite (slotOf_agree hj h') by (apply Ho'; [done|congruence]).
        by apply Hdown.
      * rewrite (Hin x j' Hx).
        by rewrite (slotOf_agree h1 hj)
          by (apply Hcells; [by apply Hkpre|by apply Hkroot]).
    + rewrite length_app in Hrange. simpl in Hrange.
      replace (length pre + 1) with (S (length pre)) in Hrange by lia.
      rewrite Hrange. exists r, (preorder k ++ log), h2.
      split; [by rewrite app_assoc|].
      destruct Hres as [->|(-> & -> & Hres)]; [by left|by right].
Qed.
End rewriting.

Lemma slotOf_None_tags (h h' : gmap addr node) a j :
  tagOf <$> h' = tagOf <$> h → slotOf h a j = None → slotOf h' a j = None.
Proof.
  intros Ht. unfold slotOf.
  destruct (h !! a) as [c|] eqn:Ha.
  - destruct (lookup_tags h h' a c Ht Ha) as (c' & -> & Hc'). simpl.
    destruct (childrenOf c) as [es|] eqn:Hch; simpl.
    + destruct (tagOf_children c c' es) as (es' & -> & Hlen);
        [done..|]. simpl. intros Hn%lookup_ge_None.
      apply lookup_ge_None. lia.
    + intros _. destruct (childrenOf c') as [es'|] eqn:Hch'; [|done].
      destruct (tagOf_children c' c es') as (es & Hes & _); [done..|].
      congruence.
  - intros _.
    assert (Hr : tagOf <$> h' !! a = tagOf <$> h !! a)
      by (by rewrite <- !lookup_fmap, Ht).
    rewrite Ha in Hr. by destruct (h' !! a).
Qed.

Section rewriting_trees.
Context {G : Type}.
Variable F : Expression → option Expression.

Lemma gwalk_rewriting t :
  ∀ fuel, depth t ≤ fuel →
  ∀ p i tr (h : gmap addr node) (g : G),
    repr h t = true → NoDup (preorder t) → p ∉ preorder t →
    (∀ q, p = ptr q → slotOf h q i = Some (rootOf t)) →
    ∃ r log h',
      gwalk (backrefStep (scripted (replaceBy F))) fuel tt (rootOf t) p i
        (tr, (h, g)) = (r, (tr ++ log, (h', g)))
      ∧ (r = Panic InvalidReplacement
         ∨ (r = Ok tt ∧ log = preorder t
            ∧ sameBut (preorder t) p i h h'
            ∧ (∀ x j, ptr x ∈ preorder t →
                      slotOf h' x j = replaced F <$> slotOf h x j)
            ∧ (∀ q, p = ptr q →
                    slotOf h' q i = Some (replaced F (rootOf t))))).
Proof.
  induction t as [a kids IH] using tree_kids_ind.
  intros fuel Hf p i tr h g Hr Hnd Hp Hslot.
  destruct fuel as [|fuel]; [simpl in Hf; lia|].
  apply repr_inv in Hr as (c & Ha & Hc & Hkids).
  simpl in Hnd, Hp. apply NoDup_cons in Hnd as [Hroot Hndk].
  assert (Hpa : p ≠ ptr a).
  { intros ->. apply Hp, elem_of_cons. by left. }
  assert (Hv : validSlot h p i).
  { destruct p as [|q]; [done|]. by eapply slotOf_validSlot, Hslot. }
  cbn [gwalk rootOf fst snd].
  destruct (rewriting_step_cases F (ptr a) p i (h, g) Hv)
    as [Hpanic|(Hok & Hg & Hsb & Hps)].
  { destruct (backrefStep (scripted (replaceBy F)) tt (ptr a) p i (h, g))
      as [r0 [h1 g1]] eqn:Hstep; simpl in *. subst r0.
    assert (g1 = g) as ->.
    { revert Hstep. unfold backrefStep, scripted, replaceBy. simpl.
      by destruct (applyAll _ _ _) as [[[]| |] ?]; intros [= _ _ <-]. }
    exists (Panic InvalidReplacement), [ptr a], h1. split; [done|by left]. }
  destruct (backrefStep (scripted (replaceBy F)) tt (ptr a) p i (h, g))
    as [r0 [h1 g1]]; simpl in Hok, Hg, Hsb, Hps. subst r0 g1.
  assert (Hag : ∀ x, ptr x ∈ ptr a :: flat_map preorder kids →
                     h1 !! x = h !! x).
  { intros x Hx. destruct Hsb as (_ & Ho & _). apply Ho.
    - by intros ?%elem_of_nil.
    - intros ->. by apply Hp. }
  assert (Ha1 : h1 !! a = Some c).
  { rewrite Hag; [done|]. apply elem_of_cons. by left. }
  assert (Haa : h1 !! a = h !! a) by (by rewrite Ha1).
  assert (Hkids1 : Forall (λ k, repr h1 k = true) kids).
  { rewrite Forall_forall in Hkids. apply Forall_forall. intros k Hk.
    apply (repr_agree h); [|by apply Hkids]. intros x Hx. apply Hag.
    apply elem_of_cons. right. apply elem_of_flat_map. eauto. }
  destruct (NoDup_flat_map_parts _ _ Hndk) as [Hndkid _].
  assert (Hbody : ∀ k, k ∈ kids → ∀ j tr1 (hj : gmap addr node) (gj : G),
            repr hj k = true → slotOf hj a j = Some (rootOf k) →
            ∃ r log h',
              gwalk (backrefStep (scripted (replaceBy F))) fuel tt (rootOf k)
                (ptr a) j (tr1, (hj, gj)) = (r, (tr1 ++ log, (h', gj)))
              ∧ (r = Panic InvalidReplacement
                 ∨ (r = Ok tt ∧ log = preorder k
                    ∧ sameBut (preorder k) (ptr a) j hj h'
                    ∧ (∀ x j', ptr x ∈ preorder k →
                               slotOf h' x j' = replaced F <$> slotOf hj x j')
                    ∧ slotOf h' a j = Some (replaced F (rootOf k))))).
  { intros k Hk j tr1 hj gj Hrk Hsk. rewrite Forall_forall in IH.
    destruct (IH k Hk fuel) with
      (p := ptr a) (i := j) (tr := tr1) (h := hj) (g := gj)
      as (r & log & h' & Hw & Hres); [|done|by apply Hndkid| | |].
    - pose proof (depth_kid k kids Hk). simpl in Hf. lia.
    - intros Hin. apply Hroot. apply elem_of_flat_map. eauto.
    - by intros q [= <-].
    - exists r, log, h'. split; [done|].
      destruct Hres as [->|(-> & -> & Hsb' & Hin & Hat)]; [by left|right].
      split_and!; [done..|]. by apply Hat. }
  assert (Hparent : ∀ (h2 : gmap addr node),
            (∀ x, ptr x ∉ ptr a :: flat_map preorder kids →
                  h2 !! x = h1 !! x) →
            ∀ q, p = ptr q → slotOf h2 q i = Some (replaced F (ptr a))).
  { intros h2 Hout q ->. rewrite (slotOf_agree h1 h2) by by apply Hout.
    apply Hps; [done|]. by apply Hslot. }
  assert (Hbelow : ∀ (h2 : gmap addr node) x j,
            ptr x ∈ flat_map preorder kids →
            slotOf h2 x j = replaced F <$> slotOf h1 x j →
            slotOf h2 x j = replaced F <$> slotOf h x j).
  { intros h2 x j Hx ->. rewrite (slotOf_agree h h1); [done|].
    apply Hag, elem_of_cons. by right. }
  cbn [fst snd]. rewrite Ha1. unfold childrenOf in Hc.
  destruct (shapeOf c) as [e|sel s| |] eqn:Hshape; [| | |done].
  - destruct kids as [|k [|]]; simplify_eq/=.
    assert (Hk : k ∈ [k]) by (apply elem_of_cons; by left).
    assert (Hs0 : slotOf h a 0 = Some (rootOf k)).
    { unfold slotOf, childrenOf. rewrite Ha. simpl. by rewrite Hshape. }
    destruct (Hbody k Hk 0 (tr ++ [ptr a]) h1 g)
      as (r & log & h2 & Hw & Hres).
    { by apply Forall_inv in Hkids1. }
    { by rewrite (slotOf_agree h h1) by done. }
    rewrite Hw. exists r, (ptr a :: log), h2.
    split; [by rewrite <- app_assoc|].
    destruct Hres as [->|(-> & -> & Hsb2 & Hin & Hat)]; [by left|right].
    rewrite app_nil_r in *.
    pose proof Hsb2 as (Ht2 & Ho2 & Hs2).
    assert (Hout : ∀ x, ptr x ∉ ptr a :: preorder k → h2 !! x = h1 !! x).
    { intros x Hx. apply Ho2.
      - intros Hi. apply Hx, elem_of_cons. by right.
      - intros [= ->]. apply Hx, elem_of_cons. by left. }
    split_and!; [done..| | |].
    + by apply (sameBut_subtree _ _ _ h h1 h2).
    + intros x j [[= ->]|Hx]%elem_of_cons.
      * destruct j as [|j].
        -- by rewrite Hat, Hs0.
        -- rewrite (Hs2 a (S j)); [|done..].
           rewrite (slotOf_agree h h1) by done.
           unfold slotOf, childrenOf. rewrite Ha. simpl. by rewrite Hshape.
      * apply Hbelow; [done|]. by apply Hin.
    + by apply Hparent.
  - simplify_eq/=.
    destruct (rangeFrom_rewriting F
                (λ e0 j, gwalk (backrefStep (scripted (replaceBy F))) fuel tt
                           e0 (ptr a) j)
                sel a c (map rootOf kids) kids h1 Ha1 Hshape
                eq_refl Hndk Hroot Hkids1 Hbody kids [] eq_refl
                (tr ++ [ptr a]) h1 g eq_refl)
      as (r & log & h2 & Hw & Hres); [done|done|simpl; lia| |].
    { by intros x j ?%elem_of_nil. }
    simpl in Hw. rewrite Hw. exists r, (ptr a :: log), h2.
    split; [by rewrite <- app_assoc|].
    destruct Hres as [->|(-> & -> & Ht2 & Ho2 & Hsl & Hdn)]; [by left|right].
    assert (Hout : ∀ x, ptr x ∉ ptr a :: flat_map preorder kids →
                        h2 !! x = h1 !! x).
    { intros x Hx. apply Ho2.
      - intros Hi. apply Hx, elem_of_cons. by right.
      - intros ->. apply Hx, elem_of_cons. by left. }
    split_and!; [done..| | |].
    + by apply (sameBut_subtree _ _ _ h h1 h2).
    + intros x j [[= ->]|Hx]%elem_of_cons.
      * destruct (decide (j < length kids)) as [Hj|Hj].
        -- rewrite Hsl by done. by rewrite (slotOf_agree h h1) by done.
        -- assert (Hn : slotOf h a j = None).
           { unfold slotOf, childrenOf. rewrite Ha. simpl. rewrite Hshape.
             simpl. apply lookup_ge_None. rewrite length_map. lia. }
           rewrite Hn. simpl. apply (slotOf_None_tags h); [|done].
           destruct Hsb as (Ht1 & _). by rewrite Ht2.
      * apply Hbelow; [done|]. by apply Hdn.
    + by apply Hparent.
  - destruct kids; simplify_eq/=.
    exists (Ok tt), [ptr a], h1. split; [done|]. right.
    split_and!; [done..| | |].
    + by apply (sameBut_subtree _ _ _ h h1 h1).
    + intros x j [[= ->]|Hx%elem_of_nil]%elem_of_cons; [|done].
      rewrite (slotOf_agree h h1) by done.
      unfold slotOf, childrenOf. rewrite Ha. simpl. by rewrite Hshape.
    + by apply Hparent.
Qed.
End rewriting_trees.

(** X16: rewriting maps every slot.  On a tree with distinct nodes and
    well-typed Grammars, walk with the visitor that replaces, through the
    back-reference, each node [e] it is handed by what [F] chooses for it
    (Rules for Rules).  The walk returns after visiting the nodes of the
    original tree in pre-order, and afterwards every child slot of every
    node of the tree holds the replacement chosen for its former occupant
    (the occupant itself where [F] chose none): each slot got the
    replacement asked for by the node that was in it, and no other.
    Kinds and arities are as before and so is everything outside the
    tree. *)
Theorem rewriting_maps_every_slot {G : Type}
    (F : Expression → option Expression) (h : gmap addr node) (t : tree)
    (fuel : nat) (tr : list Expression) (g : G) :
  repr h t = true →
  NoDup (preorder t) →
  depth t ≤ fuel →
  grammarTyped h →
  (∀ e e', isRule h e = true → F e = Some e' → isRule h e' = true) →
  ∃ h',
    BackrefWalk.Walk (scripted (replaceBy F)) fuel tt (rootOf t)
      (tr, (h, g)) = (Ok tt, (tr ++ preorder t, (h', g)))
    ∧ tagOf <$> h' = tagOf <$> h
    ∧ (∀ x j, ptr x ∈ preorder t →
              slotOf h' x j = replaced F <$> slotOf h x j)
    ∧ (∀ x, ptr x ∉ preorder t → h' !! x = h !! x).
Proof.
  intros Hr Hnd Hf Hty HF.
  unfold BackrefWalk.Walk. rewrite walk0_gwalk.
  assert (Hnil : nilExpr ∉ preorder t).
  { clear. induction t as [b ks IHk] using tree_kids_ind. simpl.
    intros [Hx|Hx]%elem_of_cons; [done|].
    apply elem_of_flat_map in Hx as (k' & Hk' & Hx).
    rewrite Forall_forall in IHk. by apply (IHk k'). }
  destruct (gwalk_rewriting F t fuel Hf nilExpr 0 tr h g Hr Hnd Hnil)
    as (r & log & h' & Hw & Hres); [done|].
  assert (Hok : r ≠ Panic InvalidReplacement).
  { assert (Hscript : ∀ (v : unit) e (h0 : gmap addr node) (g0 : G),
              tagOf <$> h0 = tagOf <$> h → grammarTyped h0 →
              isRule h0 e = true →
              Forall (λ x, isRule h0 x = true) (replaceBy F v e h0 g0).1.1).
    { intros [] e h0 g0 Ht _ He. unfold replaceBy. simpl.
      destruct (F e) as [e'|] eqn:HFe; constructor; [|done].
      rewrite (tagOf_isRule h0 h e' Ht). apply (HF e); [|done].
      by rewrite <- (tagOf_isRule h0 h e Ht). }
    pose proof (gwalk_typed_ok (replaceBy F) (tagOf <$> h) Hscript fuel tt
                  (rootOf t) nilExpr 0 (tr, (h, g)) eq_refl Hty I) as Hsafe.
    rewrite Hw in Hsafe. apply Hsafe. by intros q s [=]. }
  destruct Hres as [->|(-> & -> & (Ht & Ho & _) & Hin & _)]; [done|].
  exists h'. rewrite Hw. split_and!; [done..|].
  intros x Hx. by apply Ho.
Qed.

Lemma rewriting_maps_every_slot_witness :
  ∃ h',
    BackrefWalk.Walk (scripted (replaceBy sampleChoice)) 5 tt (ptr 0)
      ([], (heapGrammar, tt))
      = (Ok tt, ([] ++ preorder treeGrammar, (h', tt)))
    ∧ tagOf <$> h' = tagOf <$> heapGrammar
    ∧ (∀ x j, ptr x ∈ preorder treeGrammar →
              slotOf h' x j = replaced sampleChoice <$> slotOf heapGrammar x j)
    ∧ (∀ x, ptr x ∉ preorder treeGrammar → h' !! x = heapGrammar !! x).
Proof.
  apply (rewriting_maps_every_slot sampleChoice heapGrammar treeGrammar 5 []
           tt ltac:(vm_compute; reflexivity)
           ltac:(apply (bool_decide_unpack _); vm_compute; exact I)
           ltac:(vm_compute; lia)
           ltac:(apply grammarTypedB_sound; vm_compute; reflexivity)).
  intros e e' He HFe.
  destruct e as [|[|[|[|[|[|[|a]]]]]]]; simpl in HFe; try discriminate;
    injection HFe as <-; vm_compute in He; try discriminate; reflexivity.
Defined.

Example rewriting_walk_runs :
  BackrefWalk.Walk (scripted (replaceBy sampleChoice)) 5 tt (ptr 0)
    ([], (heapGrammar, tt))
  = (Ok tt,
     ([ptr 0; ptr 1; ptr 2; ptr 5; ptr 6; ptr 7; ptr 3; ptr 4; ptr 8; ptr 9],
      (<[0 := Grammar [ptr 1; ptr 1]]>
         (<[2 := ChoiceExpr [ptr 8; ptr 6; ptr 7]]> heapGrammar), tt))).
Proof. vm_compute. reflexivity. Qed.

(** ** The same rewriting in the variant with the optional capability *)

(** X17: [walkReplacer] rewrites as [walk0] does.  A visitor of the
    variant with the optional capability that is a [VisitReplacer] and
    writes the tree through the replacer it is handed gets, at every node,
    the replacer the variant with back-references puts in the [Backref]:
    its [Walk] gives the same result, visits, heap and state as the [Walk]
    of that variant with the same visitor, whatever its [Visit] method
    does. *)
Theorem walkReplacer_rewrites_as_walk0 {V P G : Type}
    (script : V → Expression → gmap addr node → G
                → list Expression * option V * G)
    (Visit : P → Expression → gmap addr node * G
               → res (option P) * (gmap addr node * G))
    (asVisitReplacer : P → option V)
    (fuel : nat) (p : P) (v : V) (root : Expression) (st : wstate G) :
  asVisitReplacer p = Some v →
  UpgradeWalk.Walk Visit (scriptedReplacer script) asVisitReplacer fuel p
    root st
  = BackrefWalk.Walk (scripted script) fuel v root st.
Proof.
  intros Hup. unfold UpgradeWalk.Walk, BackrefWalk.Walk. rewrite Hup.
  rewrite walkReplacer_gwalk, walk0_gwalk.
  apply (gwalk_sim _ _ (λ _ v1 v2, v1 = v2)); [|done].
  intros q v1 v2 <- e i w.
  unfold replacerStep, backrefStep, scriptedReplacer, scripted. simpl.
  destruct (applyAll _ _ _) as [[[]| |] h1]; split; simpl; try done.
  by destruct (script v1 e w.1 w.2).1.2.
Qed.

Lemma walkReplacer_rewrites_as_walk0_witness :
  UpgradeWalk.Walk plainAll (scriptedReplacer (replaceBy sampleChoice))
    (λ _, Some tt) 5 tt (ptr 0) ([], (heapGrammar, tt))
  = BackrefWalk.Walk (scripted (replaceBy sampleChoice)) 5 tt (ptr 0)
      ([], (heapGrammar, tt)).
Proof.
  apply (walkReplacer_rewrites_as_walk0 (replaceBy sampleChoice) plainAll
           (λ _, Some tt) 5 tt tt (ptr 0) ([], (heapGrammar, tt))).
  reflexivity.
Defined.
